(** * FinSentiment front end: a shallow embedding of the client-side scripts

    The development follows the three scripts of the repository:
    - the main script (vote buttons, text expansion, post and comment
      actions, form submissions, sentiment helpers),
    - [chart.js] (four chart render functions over the Chart.js registry),
    - [spinner.js] (overlay and button spinners).

    Part one embeds the scripts, one module for each of them and for what
    they stand on (numbers, the document tree, the query string).  Part two
    holds the vocabulary in which the facts are stated and the documents used
    as examples.  Part three holds the facts. *)

From Stdlib Require Import ZArith QArith Qround String Ascii List DecimalString Lia.
From Stdlib Require Import DecimalFacts DecimalPos DecimalN.
From Stdlib Require Import Qpower Lqa.
From stdpp Require Import base option list strings gmap.

Local Open Scope string_scope.

(* ================================================================== *)
(** * Part one: the scripts *)
(* ================================================================== *)

(* ================================================================== *)
(** * JavaScript numbers and strings *)
(* ================================================================== *)

Module JS.

(** ** Strings

    A string of the scripts is held as the bytes of its UTF-8 form: an ASCII
    character is one byte, and what is written below on bytes (white space,
    digits, percent-encoding) is what the language and the URL standard do on
    the characters that the bytes encode.  A string with an unpaired
    surrogate has no such form and is not represented. *)

(** ** Numbers

    A JavaScript Number.  A finite binary64 value denotes a rational, so the
    finite numbers are embedded in [Q], the two zeros as one; comparisons on
    them are exact, as in the language, and a sum, a product or a quotient is
    the binary64 value nearest to the exact result (see [binary64]). *)
Inductive number : Type :=
| NaN
| NegInf
| PosInf
| Fin (q : Q).

(** The binary64 values denoted by the literals [0.05] and [0.049], both
    multiples of 2^-56; [-0.05] is the opposite of the first. *)
Definition lit_0_05 : Q := 3602879701896397 # 72057594037927936.
Definition lit_0_049 : Q := 3530822107858469 # 72057594037927936.

(** [x >= y]: false as soon as one operand is NaN. *)
Definition geb (x y : number) : bool :=
  match x, y with
  | NaN, _ | _, NaN => false
  | PosInf, _ => true
  | _, NegInf => true
  | NegInf, _ => false
  | _, PosInf => false
  | Fin a, Fin b => Qle_bool b a
  end.

(** [x <= y] *)
Definition leb (x y : number) : bool := geb y x.

Definition Qsgn (q : Q) : Z := Z.sgn (Qnum q).

(** The integer nearest to [q], the even one of two that are as near. *)
Definition roundHalfEven (q : Q) : Z :=
  let f := Qfloor q in
  match (q - inject_Z f ?= 1 # 2)%Q with
  | Lt => f
  | Gt => (f + 1)%Z
  | Eq => if Z.even f then f else (f + 1)%Z
  end.

(** The exponent of a positive rational: the largest [e] with
    [2^e <= q]. *)
Definition ilog2 (q : Q) : Z :=
  let d := (Z.log2 (Qnum q) - Z.log2 (Z.pos (Qden q)))%Z in
  if Qle_bool (2 ^ d) q then d else (d - 1)%Z.

(** The binary64 value nearest to a positive rational, ties to the even
    significand: 53 significant bits from exponent -1022 up, a fixed step
    of 2^-1074 below, and Infinity from 2^1024 on.  The value is kept in
    lowest terms, so that equal numbers are the same term. *)
Definition roundPositive (a : Q) : number :=
  let e := Z.max (ilog2 a) (-1022) in
  let m := roundHalfEven (a * 2 ^ (52 - e)) in
  let r := Qred (inject_Z m * 2 ^ (e - 52)) in
  if Qle_bool (2 ^ 1024) r then PosInf else Fin r.

Definition neg (x : number) : number :=
  match x with
  | NaN => NaN
  | PosInf => NegInf
  | NegInf => PosInf
  | Fin q => Fin (- q)
  end.

(** The binary64 value of a real result. *)
Definition binary64 (q : Q) : number :=
  match Qnum q with
  | Z0 => Fin 0
  | Z.pos _ => roundPositive q
  | Z.neg _ => neg (roundPositive (- q))
  end.

(** [x + y] *)
Definition add (x y : number) : number :=
  match x, y with
  | NaN, _ | _, NaN => NaN
  | PosInf, NegInf | NegInf, PosInf => NaN
  | PosInf, _ | _, PosInf => PosInf
  | NegInf, _ | _, NegInf => NegInf
  | Fin a, Fin b => binary64 (a + b)
  end.

(** [x * y] *)
Definition mul (x y : number) : number :=
  let inf (s : Z) := if (s =? 0)%Z then NaN else if (0 <? s)%Z then PosInf else NegInf in
  match x, y with
  | NaN, _ | _, NaN => NaN
  | Fin a, Fin b => binary64 (a * b)
  | PosInf, Fin b | Fin b, PosInf => inf (Qsgn b)
  | NegInf, Fin b | Fin b, NegInf => inf (- Qsgn b)%Z
  | PosInf, PosInf | NegInf, NegInf => PosInf
  | PosInf, NegInf | NegInf, PosInf => NegInf
  end.

(** [x / y].  The zero of the model stands for +0. *)
Definition div (x y : number) : number :=
  let inf (s : Z) := if (s =? 0)%Z then NaN else if (0 <? s)%Z then PosInf else NegInf in
  match x, y with
  | NaN, _ | _, NaN => NaN
  | Fin a, Fin b => if Qeq_bool b 0 then inf (Qsgn a) else binary64 (a / b)
  | Fin _, PosInf | Fin _, NegInf => Fin 0
  | PosInf, Fin b => if (Qsgn b <? 0)%Z then NegInf else PosInf
  | NegInf, Fin b => if (Qsgn b <? 0)%Z then PosInf else NegInf
  | _, _ => NaN
  end.

(** [Math.floor(x)].  The zero of the model stands for +0. *)
Definition floor (x : number) : number :=
  match x with
  | Fin q => Fin (inject_Z (Qfloor q))
  | _ => x
  end.

(** ** Numbers as text *)

(** Decimal digits of a non-negative integer ("0" for zero). *)
Definition digits (n : Z) : string := NilZero.string_of_uint (N.to_uint (Z.to_N n)).

(** Number::toString on NaN ([None]) and on a whole number that is written
    with all its digits, as those up to 2^53 in magnitude are. *)
Definition intToString (n : option Z) : string :=
  match n with
  | None => "NaN"
  | Some z => if (z <? 0)%Z then "-" ++ digits (- z) else digits z
  end.

Fixpoint zeros (k : nat) : string :=
  match k with O => "" | S k' => String "0" (zeros k') end.

Section ToString.

(** Number::toString on the other finite values: the shortest decimal that
    reads back as the value, in exponent notation from 10^21 on.  It is left
    abstract. *)
Variable bigToString : Q -> string.

(** Number::toString(x), as a template literal or an assignment to
    [textContent] applies it. *)
Definition toString (x : number) : string :=
  match x with
  | NaN => "NaN"
  | PosInf => "Infinity"
  | NegInf => "-Infinity"
  | Fin q =>
      let z := Qfloor q in
      if Qeq_bool (inject_Z z) q && (Z.abs z <=? 2 ^ 53)%Z
      then intToString (Some z)
      else bigToString q
  end.

(** Number.prototype.toFixed(f), for [0 <= f <= 100]; from 10^21 on it
    falls back to Number::toString. *)
Definition toFixed (f : nat) (x : number) : string :=
  match x with
  | NaN => "NaN"
  | PosInf => "Infinity"
  | NegInf => "-Infinity"
  | Fin q =>
      let s := if Qle_bool 0 q then "" else "-" in
      let a := if Qle_bool 0 q then q else Qopp q in
      if Qle_bool (inject_Z (10 ^ 21)) a then s ++ bigToString a
      else
        (* the integer n closest to a * 10^f, the larger one on a tie *)
        let n := Qfloor (a * inject_Z (10 ^ Z.of_nat f) + (1 # 2)) in
        let m := digits n in
        let m := if (String.length m <=? f)%nat
                 then zeros (f + 1 - String.length m) ++ m else m in
        let k := String.length m in
        match f with
        | O => s ++ m
        | _ => s ++ substring 0 (k - f) m ++ "." ++ substring (k - f) f m
        end
  end.

End ToString.

(** ** White space

    The white space of the language, line terminators included: U+0009 to
    U+000D and U+0020, one byte each, and U+00A0, U+1680, U+2000 to U+200A,
    U+2028, U+2029, U+202F, U+205F, U+3000 and U+FEFF, two or three bytes
    each. *)

(** The white space of one byte: U+0009 to U+000D and U+0020. *)
Definition isByteSpace (c : ascii) : bool :=
  let n := nat_of_ascii c in
  ((9 <=? n) && (n <=? 13) || (n =? 32))%nat.

(** The last byte of U+2000 to U+200A, U+2028, U+2029 and U+202F, which
    start with the bytes 226 and 128. *)
Definition isGeneralSpace (c : ascii) : bool :=
  let n := nat_of_ascii c in
  ((128 <=? n) && (n <=? 138) || (n =? 168) || (n =? 169) || (n =? 175))%nat.

(** String.prototype.trimStart *)
Fixpoint trimStart (s : string) : string :=
  match s with
  | String c s1 =>
      if isByteSpace c then trimStart s1
      else
        match c, s1 with
        | "194"%char, String "160" s2 => trimStart s2                   (* U+00A0 *)
        | "225"%char, String "154" (String "128" s3) => trimStart s3    (* U+1680 *)
        | "226"%char, String "128" (String c3 s3) =>
            if isGeneralSpace c3 then trimStart s3 else s
        | "226"%char, String "129" (String "159" s3) => trimStart s3    (* U+205F *)
        | "227"%char, String "128" (String "128" s3) => trimStart s3    (* U+3000 *)
        | "239"%char, String "187" (String "191" s3) => trimStart s3    (* U+FEFF *)
        | _, _ => s
        end
  | EmptyString => s
  end.

(** String.prototype.trimEnd: what is left is cut where only white space
    follows. *)
Fixpoint trimEnd (s : string) : string :=
  match trimStart s with
  | EmptyString => EmptyString
  | _ => match s with
         | String c s' => String c (trimEnd s')
         | EmptyString => EmptyString
         end
  end.

(** String.prototype.trim *)
Definition trim (s : string) : string := trimEnd (trimStart s).

(** ** parseInt(string) with the radix left undefined *)

Definition digitValue (c : ascii) : option Z :=
  let n := nat_of_ascii c in
  if ((48 <=? n) && (n <=? 57))%nat then Some (Z.of_nat (n - 48))
  else if ((97 <=? n) && (n <=? 102))%nat then Some (Z.of_nat (n - 87))
  else if ((65 <=? n) && (n <=? 70))%nat then Some (Z.of_nat (n - 55))
  else None.

(** The longest prefix of digits of radix [R], read with accumulator [acc];
    [None] when the prefix is empty. *)
Fixpoint readDigits (R : Z) (s : string) (acc : option Z) : option Z :=
  match s with
  | String c s' =>
      match digitValue c with
      | Some d =>
          if (d <? R)%Z
          then readDigits R s' (Some (match acc with Some a => a * R + d | None => d end)%Z)
          else acc
      | None => acc
      end
  | EmptyString => acc
  end.

(** The Number for the integer read, NaN when no digit is read.  All the
    digits are read; past twenty significant decimal digits the standard
    lets a host read the later ones as zeros. *)
Definition parseInt (input : string) : number :=
  let s := trimStart input in
  let '(sign, s) :=
    match s with
    | String "-" s' => ((-1)%Z, s')
    | String "+" s' => (1%Z, s')
    | _ => (1%Z, s)
    end in
  let '(R, s) :=
    match s with
    | String "0" (String "x" s') | String "0" (String "X" s') => (16%Z, s')
    | _ => (10%Z, s)
    end in
  match readDigits R s None with
  | Some v => binary64 (inject_Z (sign * v))
  | None => NaN
  end.

End JS.

(* ================================================================== *)
(** * The document tree *)
(* ================================================================== *)

Module Dom.

(** What the scripts read and write on an element: its tag, its class
    tokens, its attributes (id, name, data attributes), its inline style and,
    for form controls, its value. *)
Record element : Type := Element {
  tagName : string;
  classList : list string;
  attrs : gmap string string;
  style : gmap string string;
  value : string
}.

(** A node is a text node or an element with its child nodes, in order. *)
#[warnings="-register-all"]
Inductive node : Type :=
| Text (s : string)
| Elem (e : element) (kids : list node).

(** An element is named by the child indices leading to it from the root.
    The root stands for [document.body]. *)
Abbreviation path := (list nat) (only parsing).

Fixpoint get (n : node) (p : path) : option node :=
  match p with
  | [] => Some n
  | i :: p' =>
      match n with
      | Elem _ ks => match ks !! i with Some k => get k p' | None => None end
      | Text _ => None
      end
  end.

Definition elemAt (d : node) (p : path) : option element :=
  match get d p with
  | Some (Elem e _) => Some e
  | _ => None
  end.

(** ** Selectors *)

Inductive selector : Type :=
| SelClass (c : string)                 (* .c *)
| SelTag (t : string)                   (* t *)
| SelId (i : string)                    (* #i, as getElementById resolves it *)
| SelOr (s1 s2 : selector).             (* s1, s2 *)

Fixpoint matches (sel : selector) (e : element) : bool :=
  match sel with
  | SelClass c => bool_decide (c ∈ classList e)
  | SelTag t => bool_decide (tagName e = t)
  | SelId i => bool_decide (attrs e !! "id" = Some i)
  | SelOr s1 s2 => matches s1 e || matches s2 e
  end.

Definition matchesAt (d : node) (sel : selector) (p : path) : bool :=
  match elemAt d p with
  | Some e => matches sel e
  | None => false
  end.

(** ** Tree order *)

(** The paths of the elements of [n], the root included, in tree order
    (preorder, depth first). *)
Fixpoint elemPaths (n : node) : list path :=
  match n with
  | Text _ => []
  | Elem _ ks =>
      [] :: (fix kidsFrom (i : nat) (ks : list node) : list path :=
               match ks with
               | [] => []
               | k :: ks' => (map (cons i) (elemPaths k) ++ kidsFrom (S i) ks')%list
               end) 0%nat ks
  end.

(** The elements strictly below the element at [p], as absolute paths. *)
Definition descendants (d : node) (p : path) : list path :=
  match get d p with
  | Some n => map (app p) (tail (elemPaths n))
  | None => []
  end.

(** [el.querySelectorAll(sel)] and [el.querySelector(sel)] for the element
    at [p]. *)
Definition querySelectorAll (d : node) (p : path) (sel : selector) : list path :=
  filter (fun q => matchesAt d sel q = true) (descendants d p).

Definition querySelector (d : node) (p : path) (sel : selector) : option path :=
  head (querySelectorAll d p sel).

(** [document.querySelector(sel)] and [document.getElementById(i)]: the
    search starts at the root, which may itself match. *)
Definition docQuerySelector (d : node) (sel : selector) : option path :=
  head (filter (fun q => matchesAt d sel q = true) (elemPaths d)).

Definition getElementById (d : node) (i : string) : option path :=
  docQuerySelector d (SelId i).

(** The inclusive ancestors of [p], innermost first. *)
Fixpoint prefixes (p : path) : list path :=
  [] :: match p with
        | [] => []
        | i :: p' => map (cons i) (prefixes p')
        end.

Definition inclusiveAncestors (p : path) : list path := reverse (prefixes p).

(** [el.closest(sel)] for the element at [p]. *)
Definition closest (d : node) (p : path) (sel : selector) : option path :=
  head (filter (fun q => matchesAt d sel q = true) (inclusiveAncestors p)).

(** ** Reading and writing *)

(** [textContent] getter: the text of all text nodes below, in tree order. *)
Fixpoint textContent (n : node) : string :=
  match n with
  | Text s => s
  | Elem _ ks => String.concat "" (map textContent ks)
  end.

Definition textAt (d : node) (p : path) : string :=
  match get d p with
  | Some n => textContent n
  | None => ""
  end.

(** Apply [f] to the node at [p]; nothing happens when [p] names no node. *)
Fixpoint update (p : path) (f : node -> node) (n : node) : node :=
  match p with
  | [] => f n
  | i :: p' =>
      match n with
      | Elem e ks => Elem e (alter (update p' f) i ks)
      | Text s => Text s
      end
  end.

Definition onElem (g : element -> element) (n : node) : node :=
  match n with
  | Elem e ks => Elem (g e) ks
  | Text s => Text s
  end.

(** Change the element record at [p], keeping its children. *)
Definition updElem (p : path) (g : element -> element) (d : node) : node :=
  update p (onElem g) d.

(** [textContent] setter: all children are replaced by one text node, or by
    nothing for the empty string. *)
Definition setTextContent (p : path) (s : string) (d : node) : node :=
  update p (fun n => match n with
                     | Elem e _ => Elem e (if decide (s = "") then [] else [Text s])
                     | Text _ => Text s
                     end) d.

(** [el.after(new)]: [new] becomes the next sibling of the element at [p];
    an element without a parent is left alone. *)
Definition insertAfter (p : path) (new : node) (d : node) : node :=
  match reverse p with
  | [] => d
  | i :: rparent =>
      update (reverse rparent)
        (fun n => match n with
                  | Elem e ks => Elem e (take (S i) ks ++ new :: drop (S i) ks)%list
                  | Text s => Text s
                  end) d
  end.

(** ** classList, className, style, dataset *)

Definition contains (c : string) (e : element) : bool := bool_decide (c ∈ classList e).

Definition setClasses (cs : list string) (e : element) : element :=
  Element (tagName e) cs (attrs e) (style e) (value e).

Definition classAdd (c : string) (e : element) : element :=
  if contains c e then e else setClasses (classList e ++ [c])%list e.

Definition classRemove (c : string) (e : element) : element :=
  setClasses (filter (fun c' => c' ≠ c) (classList e)) e.

Definition classToggle (c : string) (e : element) : element :=
  if contains c e then classRemove c e else classAdd c e.

(** [el.style.prop]: the empty string when the property is not set. *)
Definition styleOf (prop : string) (e : element) : string :=
  default "" (style e !! prop).

Definition setStyle (prop v : string) (e : element) : element :=
  Element (tagName e) (classList e) (attrs e)
          (if decide (v = "") then delete prop (style e) else <[prop := v]> (style e))
          (value e).

Definition getAttribute (a : string) (e : element) : option string := attrs e !! a.

(** [el.dataset.key] reads the attribute [data-key]. *)
Definition dataset (key : string) (e : element) : option string :=
  attrs e !! ("data-" ++ key).

(** An undefined value inside a template literal. *)
Definition orUndefined (o : option string) : string := default "undefined" o.

End Dom.

(* ================================================================== *)
(** * URLSearchParams *)
(* ================================================================== *)

Module Url.

(** Names and values are strings, held as their UTF-8 form: what is written
    here on bytes is what the URL standard does on the UTF-8 encoding of
    names and values. *)
Abbreviation params := (list (string * string)) (only parsing).

Fixpoint splitOn (sep : ascii) (s : string) : list string :=
  match s with
  | EmptyString => [EmptyString]
  | String c s' =>
      if Ascii.eqb c sep then EmptyString :: splitOn sep s'
      else match splitOn sep s' with
           | w :: ws => String c w :: ws
           | [] => [String c EmptyString]
           end
  end.

(** Cut at the first [=]; a sequence without one is a name with an empty
    value. *)
Fixpoint cutAtEquals (s : string) : string * string :=
  match s with
  | EmptyString => (EmptyString, EmptyString)
  | String c s' =>
      if Ascii.eqb c "=" then (EmptyString, s')
      else let '(n, v) := cutAtEquals s' in (String c n, v)
  end.

Fixpoint plusToSpace (s : string) : string :=
  match s with
  | EmptyString => EmptyString
  | String c s' => String (if Ascii.eqb c "+" then " "%char else c) (plusToSpace s')
  end.

Definition hexValue (c : ascii) : option nat :=
  let n := nat_of_ascii c in
  if ((48 <=? n) && (n <=? 57))%nat then Some (n - 48)%nat
  else if ((65 <=? n) && (n <=? 70))%nat then Some (n - 55)%nat
  else if ((97 <=? n) && (n <=? 102))%nat then Some (n - 87)%nat
  else None.

(** Percent-decoding, from bytes to bytes: [%] followed by two hexadecimal
    digits is one byte, any other byte stands for itself.  The parser below
    decodes what it gives as UTF-8. *)
Fixpoint percentDecode (s : string) : string :=
  match s with
  | EmptyString => EmptyString
  | String c s1 =>
      if Ascii.eqb c "%" then
        match s1 with
        | String h (String l rest) =>
            match hexValue h, hexValue l with
            | Some a, Some b => String (ascii_of_nat (16 * a + b)) (percentDecode rest)
            | _, _ => String c (percentDecode s1)
            end
        | _ => String c (percentDecode s1)
        end
      else String c (percentDecode s1)
  end.

(** U+FFFD, the replacement character. *)
Definition replacement : string := String "239" (String "191" (String "189" "")).

Definition inRange (lo hi : nat) (c : ascii) : bool :=
  let n := nat_of_ascii c in ((lo <=? n) && (n <=? hi))%nat.

(** UTF-8 decode without BOM, the result again in its UTF-8 form: a
    character that is encoded as the standard asks stands as it is, and every
    byte, or run of bytes that starts a character and does not end it, is
    replaced by U+FFFD. *)
Fixpoint utf8Decode (s : string) : string :=
  match s with
  | EmptyString => EmptyString
  | String b0 s1 =>
      let n := nat_of_ascii b0 in
      if (n <=? 127)%nat then String b0 (utf8Decode s1)
      else if inRange 194 223 b0 then
        match s1 with
        | String b1 s2 =>
            if inRange 128 191 b1 then String b0 (String b1 (utf8Decode s2))
            else replacement ++ utf8Decode s1
        | EmptyString => replacement
        end
      else if inRange 224 239 b0 then
        let lo := if (n =? 224)%nat then 160%nat else 128%nat in
        let hi := if (n =? 237)%nat then 159%nat else 191%nat in
        match s1 with
        | String b1 s2 =>
            if inRange lo hi b1 then
              match s2 with
              | String b2 s3 =>
                  if inRange 128 191 b2
                  then String b0 (String b1 (String b2 (utf8Decode s3)))
                  else replacement ++ utf8Decode s2
              | EmptyString => replacement
              end
            else replacement ++ utf8Decode s1
        | EmptyString => replacement
        end
      else if inRange 240 244 b0 then
        let lo := if (n =? 240)%nat then 144%nat else 128%nat in
        let hi := if (n =? 244)%nat then 143%nat else 191%nat in
        match s1 with
        | String b1 s2 =>
            if inRange lo hi b1 then
              match s2 with
              | String b2 s3 =>
                  if inRange 128 191 b2 then
                    match s3 with
                    | String b3 s4 =>
                        if inRange 128 191 b3
                        then String b0 (String b1 (String b2 (String b3 (utf8Decode s4))))
                        else replacement ++ utf8Decode s3
                    | EmptyString => replacement
                    end
                  else replacement ++ utf8Decode s2
              | EmptyString => replacement
              end
            else replacement ++ utf8Decode s1
        | EmptyString => replacement
        end
      else replacement ++ utf8Decode s1
  end.

(** The application/x-www-form-urlencoded parser. *)
Definition parseUrlencoded (input : string) : params :=
  flat_map (fun sq =>
              if String.eqb sq "" then []
              else let '(n, v) := cutAtEquals sq in
                   [(utf8Decode (percentDecode (plusToSpace n)),
                     utf8Decode (percentDecode (plusToSpace v)))])
           (splitOn "&" input).

(** [new URLSearchParams(init)] for a string: one leading [?] is dropped. *)
Definition URLSearchParams (init : string) : params :=
  parseUrlencoded (match init with
                   | String "?" s => s
                   | _ => init
                   end).

(** An argument of the interface is taken as a scalar value string, an
    unpaired surrogate replaced by U+FFFD.  On the UTF-8 form of a string
    this changes nothing; bytes that are no UTF-8 are replaced as the decoder
    replaces them. *)
Definition toUSVString (s : string) : string := utf8Decode s.

Fixpoint setPair (name v : string) (l : params) : params :=
  match l with
  | [] => [(name, v)]
  | (n, x) :: l' =>
      if String.eqb n name
      then (n, v) :: filter (fun nv => negb (String.eqb (fst nv) name) = true) l'
      else (n, x) :: setPair name v l'
  end.

(** [set(name, value)]: the first pair named [name] takes the value and the
    later ones are removed; without such a pair one is appended. *)
Definition set (name v : string) (l : params) : params :=
  setPair (toUSVString name) (toUSVString v) l.

Definition get (name : string) (l : params) : option string :=
  snd <$> head (filter (fun nv => String.eqb (fst nv) name = true) l).

Definition getAll (name : string) (l : params) : list string :=
  snd <$> filter (fun nv => String.eqb (fst nv) name = true) l.

Definition hexDigit (n : nat) : ascii :=
  if (n <? 10)%nat then ascii_of_nat (48 + n) else ascii_of_nat (55 + n).

(** The urlencoded serializer leaves ASCII alphanumerics and [* - . _]
    alone, writes a space as [+] and every other byte as [%XX]. *)
Definition unreserved (c : ascii) : bool :=
  let n := nat_of_ascii c in
  ((48 <=? n) && (n <=? 57) || (65 <=? n) && (n <=? 90) || (97 <=? n) && (n <=? 122)
   || (n =? 42) || (n =? 45) || (n =? 46) || (n =? 95))%nat.

Fixpoint urlencode (s : string) : string :=
  match s with
  | EmptyString => EmptyString
  | String c s' =>
      if unreserved c then String c (urlencode s')
      else if Ascii.eqb c " " then String "+" (urlencode s')
      else let n := nat_of_ascii c in
           String "%" (String (hexDigit (n / 16)) (String (hexDigit (n mod 16)) (urlencode s')))
  end.

(** [toString()] *)
Fixpoint toString (l : params) : string :=
  match l with
  | [] => ""
  | [(n, v)] => urlencode n ++ "=" ++ urlencode v
  | (n, v) :: l' => urlencode n ++ "=" ++ urlencode v ++ "&" ++ toString l'
  end.

End Url.

(* ================================================================== *)
(** * The page: document, location and observable effects *)
(* ================================================================== *)

Module Page.
Import Dom.

(** What a handler does besides changing the tree. *)
Inductive effect : Type :=
| PreventDefault
| ConsoleLog (msg : string)
| ConsoleError (msg : string)
| Focus (target : path)
| ScrollIntoView (target : path)
| ClipboardWriteText (text : string)   (* its continuation alerts the user *)
| Navigate (url : string).             (* assignment to window.location.href *)

Record page : Type := MkPage {
  dom : node;
  pathname : string;        (* window.location.pathname *)
  search : string;          (* window.location.search *)
  href : string;            (* window.location.href *)
  clipboard : bool;         (* navigator.clipboard is defined *)
  trace : list effect       (* most recent first *)
}.

Definition withDom (d : node) (pg : page) : page :=
  MkPage d (pathname pg) (search pg) (href pg) (clipboard pg) (trace pg).

Definition emit (ev : effect) (pg : page) : page :=
  MkPage (dom pg) (pathname pg) (search pg) (href pg) (clipboard pg) (ev :: trace pg).

(** A handler returns, or stops at an uncaught exception. *)
Inductive outcome : Type :=
| Returns (pg : page)
| Throws (err : string) (pg : page).

Definition hasClass (d : node) (p : path) (c : string) : bool :=
  match elemAt d p with
  | Some e => contains c e
  | None => false
  end.

Definition datasetAt (d : node) (p : path) (key : string) : option string :=
  e ← elemAt d p; dataset key e.

End Page.

(* ================================================================== *)
(** * spinner.js: the overlay *)
(* ================================================================== *)

Module Overlay.
Import Dom Page.

(** [showSpinner(message = 'Loading market data...')] *)
Definition showSpinner (message : string) (pg : page) : page :=
  let d := dom pg in
  let overlay := docQuerySelector d (SelClass "spinner-overlay") in
  let messageElement := docQuerySelector d (SelClass "spinner-message") in
  let d := match messageElement with
           | Some m => setTextContent m message d
           | None => d
           end in
  let d := match overlay with
           | Some o => updElem o (classAdd "active") d
           | None => d
           end in
  withDom (updElem [] (setStyle "overflow" "hidden") d) pg.

(** [hideSpinner()] *)
Definition hideSpinner (pg : page) : page :=
  let d := dom pg in
  let overlay := docQuerySelector d (SelClass "spinner-overlay") in
  let d := match overlay with
           | Some o => updElem o (classRemove "active") d
           | None => d
           end in
  withDom (updElem [] (setStyle "overflow" "") d) pg.

End Overlay.

(* ================================================================== *)
(** * The main script: event handlers *)
(* ================================================================== *)

Module Main.
Import Dom Page.

Definition postOrComment : selector := SelOr (SelClass "post") (SelClass "comment").

(** [voteCount += k] *)
Definition addTo (voteCount : JS.number) (k : Z) : JS.number :=
  JS.add voteCount (JS.Fin (inject_Z k)).

Section VoteButtons.

(** Number::toString outside the whole numbers up to 2^53 (see
    [JS.toString]) depends on the host. *)
Variable bigToString : Q -> string.

(** The click listener that [initVoteButtons] attaches to every
    [.vote-button]; [this] is the clicked button. *)
Definition voteButtonClick (pg : page) (this : path) : page :=
  let pg := emit PreventDefault pg in
  let d := dom pg in
  match closest d this postOrComment with
  | None => pg
  | Some parentEl =>
      match querySelector d parentEl (SelClass "vote-count") with
      | None => pg
      | Some voteCountEl =>
          let voteCount := JS.parseInt (textAt d voteCountEl) in
          let isUpvote := hasClass d this "upvote" in
          let siblingButton :=
            if isUpvote then querySelector d parentEl (SelClass "downvote")
            else querySelector d parentEl (SelClass "upvote") in
          let '(d, voteCount) :=
            if hasClass d this "active" then
              (updElem this (classRemove "active") d,
               addTo voteCount (if isUpvote then -1 else 1))
            else
              let d := updElem this (classAdd "active") d in
              match siblingButton with
              | Some sib =>
                  if hasClass d sib "active" then
                    (updElem sib (classRemove "active") d,
                     addTo voteCount (if isUpvote then 2 else -2))
                  else (d, addTo voteCount (if isUpvote then 1 else -1))
              | None => (d, addTo voteCount (if isUpvote then 1 else -1))
              end in
          (* [this] is an object: writing the counter text cannot change its
             class list, so the flag logged below is read before the write *)
          let active := hasClass d this "active" in
          let d := setTextContent voteCountEl (JS.toString bigToString voteCount) d in
          let postId := datasetAt d parentEl "id" in
          let voteType := if isUpvote then "upvote" else "downvote" in
          emit (ConsoleLog ("Vote " ++ (if active then "added" else "removed") ++ ": "
                            ++ voteType ++ " on post/comment " ++ orUndefined postId))
               (withDom d pg)
      end
  end.

End VoteButtons.

(** The click listener that [initExpandTextButtons] attaches to every
    [.expand-button]. *)
Definition expandButtonClick (pg : page) (this : path) : page :=
  let pg := emit PreventDefault pg in
  let d := dom pg in
  match closest d this (SelClass "post") with
  | None => pg
  | Some parentEl =>
      match querySelector d parentEl (SelClass "post-text") with
      | None => pg
      | Some textEl =>
          let fadeEl := querySelector d parentEl (SelClass "post-text-fade") in
          let d := updElem textEl (classToggle "expanded") d in
          if hasClass d textEl "expanded" then
            let d := setTextContent this "Show less" d in
            withDom (match fadeEl with
                     | Some f => updElem f (setStyle "display" "none") d
                     | None => d
                     end) pg
          else
            let d := setTextContent this "Read more" d in
            withDom (match fadeEl with
                     | Some f => updElem f (setStyle "display" "block") d
                     | None => d
                     end) pg
      end
  end.

(** The click listener that [initPostActions] attaches to every
    [.post-action]. *)
Definition postActionClick (pg : page) (this : path) : outcome :=
  let pg := emit PreventDefault pg in
  let d := dom pg in
  let actionType := datasetAt d this "action" in
  match closest d this (SelClass "post") with
  | None => Throws "TypeError" pg          (* [.dataset] of null *)
  | Some post =>
      let postId := datasetAt d post "id" in
      if decide (actionType = Some "comment") then
        match getElementById d "comment-form" with
        | Some commentForm =>
            let pg := emit (ScrollIntoView commentForm) pg in
            match querySelector d commentForm (SelTag "textarea") with
            | Some commentInput => Returns (emit (Focus commentInput) pg)
            | None => Returns pg
            end
        | None => Returns pg
        end
      else if decide (actionType = Some "share") then
        if clipboard pg then Returns (emit (ClipboardWriteText (href pg)) pg)
        else Throws "TypeError" pg             (* [.writeText] of undefined *)
      else if decide (actionType = Some "save") then
        let d := updElem this (classToggle "saved") d in
        let isSaved := hasClass d this "saved" in
        let icon := querySelector d this (SelTag "i") in
        let text := querySelector d this (SelTag "span") in
        let d := match icon with
                 | Some i => updElem i (setClasses [if isSaved then "fas" else "far"; "fa-bookmark"]) d
                 | None => d
                 end in
        let d := match text with
                 | Some t => setTextContent t (if isSaved then "Saved" else "Save") d
                 | None => d
                 end in
        Returns (emit (ConsoleLog ("Post " ++ orUndefined postId ++ " "
                                   ++ (if isSaved then "saved" else "unsaved")))
                      (withDom d pg))
      else
        Returns (emit (ConsoleLog ("Action " ++ orUndefined actionType
                                   ++ " clicked for post " ++ orUndefined postId)) pg)
  end.

(** A run of white space between tags of the reply-form template: a line
    break and the indentation. *)
Fixpoint spaces (k : nat) : string :=
  match k with O => "" | S k' => String " " (spaces k') end.

Definition indent (k : nat) : node := Text (String "010" (spaces k)).

Definition plain (tag : string) (classes : list string) (kids : list node) : node :=
  Elem (Element tag classes ∅ ∅ "") kids.

(** The element built for a first reply: [document.createElement('div')],
    its [className] and the parsed [innerHTML] template. *)
Definition newReplyForm : node :=
  plain "div" ["reply-form"; "mt-2"]
    [ indent 28;
      Elem (Element "textarea" ["form-control"; "mb-2"]
                    {[ "placeholder" := "What are your thoughts?" ]} ∅ "") [];
      indent 28;
      plain "div" ["d-flex"]
        [ indent 32;
          plain "button" ["btn"; "btn-primary"; "btn-sm"] [Text "Reply"];
          indent 32;
          plain "button" ["btn"; "btn-secondary"; "btn-sm"; "ml-2"; "cancel-reply"] [Text "Cancel"];
          indent 28 ];
      indent 24 ].

(** Where [el.after(..)] puts the new node. *)
Definition nextSibling (p : path) : option path :=
  match reverse p with
  | [] => None
  | i :: rparent => Some (reverse rparent ++ [S i])%list
  end.

Definition styleAt (d : node) (p : path) (prop : string) : string :=
  match elemAt d p with
  | Some e => styleOf prop e
  | None => ""
  end.

(** The click listener that [initCommentActions] attaches to every
    [.comment-action]. *)
Definition commentActionClick (pg : page) (this : path) : outcome :=
  let pg := emit PreventDefault pg in
  let d := dom pg in
  let actionType := datasetAt d this "action" in
  match closest d this (SelClass "comment") with
  | None => Throws "TypeError" pg          (* [.dataset] of null *)
  | Some comment =>
      let commentId := datasetAt d comment "id" in
      if decide (actionType = Some "reply") then
        match closest d this (SelClass "comment") with
        | None => Throws "TypeError" pg
        | Some commentEl =>
            match querySelector d commentEl (SelClass "reply-form") with
            | Some replyForm =>
                let isVisible := negb (bool_decide (styleAt d replyForm "display" = "none")) in
                let d := updElem replyForm
                           (setStyle "display" (if isVisible then "none" else "block")) d in
                if negb isVisible then
                  match querySelector d replyForm (SelTag "textarea") with
                  | Some textarea => Returns (emit (Focus textarea) (withDom d pg))
                  | None => Returns (withDom d pg)
                  end
                else Returns (withDom d pg)
            | None =>
                let replyForm := newReplyForm in
                match closest d this (SelClass "comment-actions") with
                | None => Throws "TypeError" pg        (* [.after] of null *)
                | Some actionsEl =>
                    let d := insertAfter actionsEl replyForm d in
                    (* the textarea is looked up inside the new form; the
                       focus lands only when the form is in the document *)
                    match nextSibling actionsEl, querySelector replyForm [] (SelTag "textarea") with
                    | Some formPath, Some textarea =>
                        Returns (emit (Focus (formPath ++ textarea)%list) (withDom d pg))
                    | _, _ => Returns (withDom d pg)
                    end
                end
            end
        end
      else
        Returns (emit (ConsoleLog ("Action " ++ orUndefined actionType
                                   ++ " clicked for comment " ++ orUndefined commentId)) pg)
  end.

(** The click listener put on the [.cancel-reply] button of a new form; it
    closes over the form, here named by its path. *)
Definition cancelReplyClick (replyForm : path) (pg : page) : page :=
  withDom (updElem replyForm (setStyle "display" "none") (dom pg)) pg.

(** [select.name] reflects the name attribute; [select.value]. *)
Definition selectName (select : option element) : string :=
  match select with
  | Some e => default "" (getAttribute "name" e)
  | None => ""
  end.

Definition selectValue (select : option element) : string :=
  match select with
  | Some e => value e
  | None => ""
  end.

(** The change listener that [initFormSubmissions] attaches to every
    [.filter-select]. *)
Definition filterSelectChange (pg : page) (this : path) : page :=
  (* [this] is an object: showing the spinner changes neither its name
     nor its value *)
  let select := elemAt (dom pg) this in
  let pg := Overlay.showSpinner "Updating filters..." pg in
  let urlParams := Url.URLSearchParams (search pg) in
  let urlParams := Url.set (selectName select) (selectValue select) urlParams in
  emit (Navigate (pathname pg ++ "?" ++ Url.toString urlParams)) pg.

(** ** Sentiment helpers *)

Definition threshold : JS.number := JS.Fin JS.lit_0_05.
Definition negThreshold : JS.number := JS.Fin (- JS.lit_0_05).

Definition getSentimentClass (score : JS.number) : string :=
  if JS.geb score threshold then "sentiment-positive"
  else if JS.leb score negThreshold then "sentiment-negative"
  else "sentiment-neutral".

Definition getSentimentText (score : JS.number) : string :=
  if JS.geb score threshold then "Positive"
  else if JS.leb score negThreshold then "Negative"
  else "Neutral".

End Main.

(* ================================================================== *)
(** * chart.js *)
(* ================================================================== *)

Module Chart.
Import Dom Page.

Inductive chartType : Type := Line | Doughnut | Bar | Scatter.

(** A data point: a plain number, or the [{x, y}] pair of the timeline. *)
Inductive datum : Type :=
| Value (v : JS.number)
| Point (x : string) (y : option JS.number).

(** A colour option: one colour for the series or one per point. *)
Inductive colours : Type :=
| One (c : string)
| Each (cs : list string).

Record dataset : Type := Dataset {
  dsLabel : option string;
  dsData : list datum;
  backgroundColor : colours;
  borderColor : option colours
}.

(** What a tooltip label callback reads from its context. *)
Record tooltipContext : Type := TooltipContext {
  ctxDatasetLabel : option string;       (* context.dataset.label *)
  ctxLabel : option string;              (* context.label *)
  ctxParsed : option JS.number;          (* context.parsed, null as None *)
  ctxParsedY : option JS.number;         (* context.parsed.y, null as None *)
  ctxRaw : string * JS.number            (* context.raw of a timeline point *)
}.

Record config : Type := Config {
  type : chartType;
  labels : list string;
  datasets : list dataset;
  title : string;
  tooltipLabel : option (tooltipContext -> string)
}.

(** A live chart: the identifier the library gave it, the canvas it is
    bound to and what it draws. *)
Record chart : Type := MkChart {
  chartId : nat;
  canvas : path;
  cfg : config
}.

(** The page together with the charting library's registry of live charts,
    oldest first.  The library is not part of the repository: the registry
    keeps what [Chart.getChart], [destroy] and [new Chart] do to it, and
    [new Chart] registers without looking at what is there. *)
Record world : Type := World {
  pg : page;
  registry : list chart;
  nextId : nat
}.

(** [Chart.getChart(canvas)]: the chart registered last on the canvas. *)
Definition getChart (c : path) (w : world) : option chart :=
  last (filter (fun ch => canvas ch = c) (registry w)).

(** [chart.destroy()] takes the chart out of the registry. *)
Definition destroy (ch : chart) (w : world) : world :=
  World (pg w) (filter (fun ch' => chartId ch' ≠ chartId ch) (registry w)) (nextId w).

(** [new Chart(canvas, config)] *)
Definition newChart (c : path) (k : config) (w : world) : world :=
  World (pg w) (registry w ++ [MkChart (nextId w) c k])%list (S (nextId w)).

Definition consoleError (msg : string) (w : world) : world :=
  World (emit (ConsoleError msg) (pg w)) (registry w) (nextId w).

Definition hundred : JS.number := JS.Fin 100.

Definition series (vs : list JS.number) : list datum := Value <$> vs.

(** The colour callbacks of the entity and timeline charts. *)
Definition backgroundColorOf (score : JS.number) : string :=
  if JS.geb score Main.threshold then "rgba(76, 175, 80, 0.6)"
  else if JS.leb score Main.negThreshold then "rgba(244, 67, 54, 0.6)"
  else "rgba(158, 158, 158, 0.6)".

Definition borderColorOf (score : JS.number) : string :=
  if JS.geb score Main.threshold then "rgba(76, 175, 80, 1)"
  else if JS.leb score Main.negThreshold then "rgba(244, 67, 54, 1)"
  else "rgba(158, 158, 158, 1)".

Definition pointColorOf (score : JS.number) : string :=
  if JS.geb score Main.threshold then "rgba(76, 175, 80, 1)"
  else if JS.leb score Main.negThreshold then "rgba(244, 67, 54, 1)"
  else "rgba(158, 158, 158, 1)".

(** The sentiment word of the timeline tooltip. *)
Definition timelineSentiment (y : JS.number) : string :=
  if JS.geb y Main.threshold then "Positive"
  else if JS.leb y Main.negThreshold then "Negative"
  else "Neutral".

(** [a || ''] on a label that may be undefined. *)
Definition orEmpty (o : option string) : string := default "" o.

Section Render.

(** Number::toString on large magnitudes (see [JS.toFixed]) and
    [new Date(x).toLocaleTimeString()] depend on the host. *)
Variable bigToString : Q -> string.
Variable toLocaleTimeString : string -> string.

(** Tooltip label of the trend chart. *)
Definition trendTooltipLabel (context : tooltipContext) : string :=
  let label := orEmpty (ctxDatasetLabel context) in
  let label := if decide (label = "") then label else label ++ ": " in
  match ctxParsedY context with
  | Some y => label ++ JS.toFixed bigToString 1 (JS.mul y hundred) ++ "%"
  | None => label
  end.

(** Tooltip label of the distribution chart. *)
Definition pieTooltipLabel (context : tooltipContext) : string :=
  let label := orEmpty (ctxLabel context) in
  let label := if decide (label = "") then label else label ++ ": " in
  match ctxParsed context with
  | Some v => label ++ JS.toFixed bigToString 1 v ++ "%"
  | None => label
  end.

(** Tooltip label of the timeline chart. *)
Definition timelineTooltipLabel (context : tooltipContext) : string :=
  let point := ctxRaw context in
  let sentiment := timelineSentiment (snd point) in
  sentiment ++ " (" ++ JS.toFixed bigToString 2 (snd point) ++ ") at "
            ++ toLocaleTimeString (fst point).

Definition createSentimentTrendChart (canvasId : string) (dates : list string)
    (positive negative neutral : list JS.number) (w : world) : world :=
  match getElementById (dom (pg w)) canvasId with
  | None => consoleError ("Canvas element " ++ canvasId ++ " not found") w
  | Some canvas =>
      let w := match getChart canvas w with
               | Some existingChart => destroy existingChart w
               | None => w
               end in
      newChart canvas
        (Config Line dates
           [ Dataset (Some "Positive") (series positive)
               (One "rgba(76, 175, 80, 0.2)") (Some (One "rgba(76, 175, 80, 1)"));
             Dataset (Some "Negative") (series negative)
               (One "rgba(244, 67, 54, 0.2)") (Some (One "rgba(244, 67, 54, 1)"));
             Dataset (Some "Neutral") (series neutral)
               (One "rgba(158, 158, 158, 0.2)") (Some (One "rgba(158, 158, 158, 1)")) ]
           "Sentiment Trends Over Time"
           (Some trendTooltipLabel)) w
  end.

Definition createSentimentPieChart (canvasId : string)
    (positive negative neutral : JS.number) (w : world) : world :=
  match getElementById (dom (pg w)) canvasId with
  | None => consoleError ("Canvas element " ++ canvasId ++ " not found") w
  | Some canvas =>
      let w := match getChart canvas w with
               | Some existingChart => destroy existingChart w
               | None => w
               end in
      newChart canvas
        (Config Doughnut ["Positive"; "Negative"; "Neutral"]
           [ Dataset None (series [positive; negative; neutral])
               (Each ["rgba(76, 175, 80, 0.8)"; "rgba(244, 67, 54, 0.8)";
                      "rgba(158, 158, 158, 0.8)"])
               (Some (Each ["rgba(76, 175, 80, 1)"; "rgba(244, 67, 54, 1)";
                            "rgba(158, 158, 158, 1)"])) ]
           "Sentiment Distribution"
           (Some pieTooltipLabel)) w
  end.

Definition createEntitySentimentChart (canvasId : string) (labels : list string)
    (scores : list JS.number) (w : world) : world :=
  match getElementById (dom (pg w)) canvasId with
  | None => consoleError ("Canvas element " ++ canvasId ++ " not found") w
  | Some canvas =>
      let w := match getChart canvas w with
               | Some existingChart => destroy existingChart w
               | None => w
               end in
      let backgroundColors := backgroundColorOf <$> scores in
      let borderColors := borderColorOf <$> scores in
      newChart canvas
        (Config Bar labels
           [ Dataset (Some "Sentiment Score") (series scores)
               (Each backgroundColors) (Some (Each borderColors)) ]
           "Entity Sentiment Analysis"
           None) w
  end.

Definition createCommentTimelineChart (canvasId : string) (timestamps : list string)
    (scores : list JS.number) (w : world) : world :=
  match getElementById (dom (pg w)) canvasId with
  | None => consoleError ("Canvas element " ++ canvasId ++ " not found") w
  | Some canvas =>
      let w := match getChart canvas w with
               | Some existingChart => destroy existingChart w
               | None => w
               end in
      let pointColors := pointColorOf <$> scores in
      newChart canvas
        (Config Scatter []
           [ Dataset (Some "Comment Sentiment")
               (imap (fun i time => Point time (scores !! i)) timestamps)
               (Each pointColors) None ]
           "Comment Sentiment Timeline"
           (Some timelineTooltipLabel)) w
  end.

(** A call of one of the four render functions. *)
Inductive renderCall : Type :=
| TrendChart (canvasId : string) (dates : list string) (positive negative neutral : list JS.number)
| PieChart (canvasId : string) (positive negative neutral : JS.number)
| EntityChart (canvasId : string) (labels : list string) (scores : list JS.number)
| TimelineChart (canvasId : string) (timestamps : list string) (scores : list JS.number).

Definition callCanvasId (c : renderCall) : string :=
  match c with
  | TrendChart i _ _ _ _ | PieChart i _ _ _ | EntityChart i _ _ | TimelineChart i _ _ => i
  end.

Definition render (c : renderCall) (w : world) : world :=
  match c with
  | TrendChart i dates pos neg neu => createSentimentTrendChart i dates pos neg neu w
  | PieChart i pos neg neu => createSentimentPieChart i pos neg neu w
  | EntityChart i labels scores => createEntitySentimentChart i labels scores w
  | TimelineChart i ts scores => createCommentTimelineChart i ts scores w
  end.

(** A sequence of render calls, the first call first. *)
Definition renderAll (cs : list renderCall) (w : world) : world :=
  foldl (fun w c => render c w) w cs.

End Render.

(** How many live charts are bound to a canvas. *)
Definition chartsOn (c : path) (w : world) : nat :=
  length (filter (fun ch => canvas ch = c) (registry w)).

End Chart.

(* ================================================================== *)
(** * spinner.js: button spinners *)
(* ================================================================== *)

Module Spinner.

(** A button as these two functions see it: its inner markup (what
    [innerHTML] reads), its attributes and its [disabled] flag. *)
Record button : Type := Button {
  innerHTML : string;
  attributes : gmap string string;
  disabled : bool
}.

(** The elements of the document that have an id, by id. *)
Abbreviation document := (gmap string button) (only parsing).

Definition dquote : string := String (ascii_of_nat 34) "".

(** The template assigned to [innerHTML]: a span of class btn-spinner and
    the text. *)
Definition spinnerMarkup : string :=
  "<span class=" ++ dquote ++ "btn-spinner" ++ dquote ++ "></span> Analyzing...".

Section Host.

(** What [innerHTML] of the element reads once a markup has been assigned
    to it: the serialisation of the nodes that the HTML parser makes of the
    markup inside that element.  It depends on the host and on the element,
    and need not be the markup assigned. *)
Variable readBack : string -> string.

(** [addButtonSpinner(buttonId, disable = true)] *)
Definition addButtonSpinner (buttonId : string) (disable : bool) (doc : document) : document :=
  match doc !! buttonId with
  | Some button =>
      let button := Button (innerHTML button)
                           (<["data-original-text" := innerHTML button]> (attributes button))
                           (disabled button) in
      let button := Button (readBack spinnerMarkup) (attributes button) (disabled button) in
      let button := if disable
                    then Button (innerHTML button) (attributes button) true
                    else button in
      <[buttonId := button]> doc
  | None => doc
  end.

(** [removeButtonSpinner(buttonId, enable = true)] *)
Definition removeButtonSpinner (buttonId : string) (enable : bool) (doc : document) : document :=
  match doc !! buttonId with
  | Some button =>
      let originalText := attributes button !! "data-original-text" in
      let button := match originalText with
                    | Some t => if decide (t = "") then button
                                else Button (readBack t) (attributes button) (disabled button)
                    | None => button
                    end in
      let button := if enable
                    then Button (innerHTML button) (attributes button) false
                    else button in
      <[buttonId := button]> doc
  | None => doc
  end.

End Host.

End Spinner.

(* ================================================================== *)
(** * The main script: number formatting *)
(* ================================================================== *)

Module Format.
Import JS.

Section FormatNumber.

Variable bigToString : Q -> string.

(** [formatNumber(num)]: a string with a suffix, or the number itself. *)
Definition formatNumber (num : number) : string + number :=
  if geb num (Fin 1000000) then
    inl (toFixed bigToString 1 (div num (Fin 1000000)) ++ "m")
  else if geb num (Fin 1000) then
    inl (toFixed bigToString 1 (div num (Fin 1000)) ++ "k")
  else inr num.

End FormatNumber.

End Format.

(* ================================================================== *)
(** * The main script: relative dates *)
(* ================================================================== *)

Module RelativeDate.

(** A time value is a whole number of milliseconds, or NaN ([None]) for an
    invalid date.  The time values of valid dates and of the clock are
    below 2^53 in magnitude, where the subtraction is exact and
    [Math.floor] of a quotient by 1000, 60 or 24 is the integer quotient
    rounded down. *)
Abbreviation time := (option Z) (only parsing).

(** [Math.floor(x / k)] *)
Definition floorDiv (x : time) (k : Z) : time := (fun v => (v / k)%Z) <$> x.

(** [x < k]: false on NaN. *)
Definition below (x : time) (k : Z) : bool :=
  match x with
  | Some v => (v <? k)%Z
  | None => false
  end.

(** [x !== 1 ? 's' : ''] *)
Definition plural (x : time) : string :=
  if decide (x = Some 1%Z) then "" else "s".

Section FormatRelativeDate.

(** What the host makes of the date: [new Date(dateString)] as a time value
    and [date.toLocaleDateString()]. *)
Variable parseDate : string -> time.
Variable toLocaleDateString : time -> string.

(** [formatRelativeDate(dateString)], when the clock reads [now]. *)
Definition formatRelativeDate (now : Z) (dateString : string) : string :=
  let date := parseDate dateString in
  let diffMs := (fun t => (now - t)%Z) <$> date in
  let diffSeconds := floorDiv diffMs 1000 in
  let diffMinutes := floorDiv diffSeconds 60 in
  let diffHours := floorDiv diffMinutes 60 in
  let diffDays := floorDiv diffHours 24 in
  if below diffSeconds 60 then "just now"
  else if below diffMinutes 60 then
    JS.intToString diffMinutes ++ " minute" ++ plural diffMinutes ++ " ago"
  else if below diffHours 24 then
    JS.intToString diffHours ++ " hour" ++ plural diffHours ++ " ago"
  else if below diffDays 30 then
    JS.intToString diffDays ++ " day" ++ plural diffDays ++ " ago"
  else toLocaleDateString date.

End FormatRelativeDate.

End RelativeDate.

(* ================================================================== *)
(** * The main script: form submissions *)
(* ================================================================== *)

Module Forms.
Import Dom Page.

(** A selector given by a test on the element, for compound selectors such
    as [input[name="q"]]. *)
Definition testAt (d : node) (test : element -> bool) (p : path) : bool :=
  match elemAt d p with
  | Some e => test e
  | None => false
  end.

Definition queryBy (d : node) (p : path) (test : element -> bool) : option path :=
  head (filter (fun q => testAt d test q = true) (descendants d p)).

(** [input[name="q"]] *)
Definition inputNamedQ (e : element) : bool :=
  bool_decide (tagName e = "input") && bool_decide (getAttribute "name" e = Some "q").

(** [input.value] *)
Definition valueAt (d : node) (p : path) : string :=
  match elemAt d p with
  | Some e => value e
  | None => ""
  end.

(** The submit listener that [initFormSubmissions] puts on [#search-form];
    [this] is the form. *)
Definition searchFormSubmit (pg : page) (this : path) : page :=
  let d := dom pg in
  match queryBy d this inputNamedQ with
  | None => emit PreventDefault pg
  | Some searchInput =>
      if decide (JS.trim (valueAt d searchInput) = "") then emit PreventDefault pg
      else Overlay.showSpinner "Searching..." pg
  end.

End Forms.

(* ================================================================== *)
(** * spinner.js: creating the overlay *)
(* ================================================================== *)

Module OverlayInit.
Import Dom Page Main.

(** The nodes that the [spinnerHTML] template parses to. *)
Definition spinnerHTML : list node :=
  [ indent 12;
    plain "div" ["spinner-overlay"]
      [ indent 16;
        plain "div" ["spinner-container"]
          [ indent 20;
            Elem (Element "img" ["spinner-gif"]
                    {[ "src" := "/static/images/loading.gif"; "alt" := "Loading..." ]} ∅ "") [];
            indent 20;
            plain "div" ["spinner-message"] [Text "Loading market data..."];
            indent 16 ];
        indent 12 ];
    indent 8 ].

(** [el.insertAdjacentHTML('beforeend', ..)]: the parsed nodes become the
    last children. *)
Definition insertBeforeEnd (new : list node) (n : node) : node :=
  match n with
  | Elem e ks => Elem e (ks ++ new)
  | Text s => Text s
  end.

(** The first step of the DOMContentLoaded listener: the overlay is created
    unless the document has one. *)
Definition createOverlay (pg : page) : page :=
  match docQuerySelector (dom pg) (SelClass "spinner-overlay") with
  | Some _ => pg
  | None => withDom (insertBeforeEnd spinnerHTML (dom pg)) pg
  end.

End OverlayInit.

(* ================================================================== *)
(** * spinner.js: fetch and swap *)
(* ================================================================== *)

Module Ajax.
Import Dom Page Overlay.

(** A string or null in a condition: null and the empty string count as
    false. *)
Definition truthy (a : option string) : bool :=
  match a with
  | Some s => negb (String.eqb s "")
  | None => false
  end.

(** [a || b] *)
Definition orOption (a b : option string) : option string := if truthy a then a else b.

Definition orElse (a : option string) (b : string) : string := default b (orOption a (Some b)).

(** A call of [fetch], with the target that its continuation closes
    over. *)
Record request : Type := Request {
  url : string;
  target : string
}.

(** A callback that [setTimeout] has queued: hide the error container. *)
Inductive timer : Type :=
| HideErrorAfter (ms : Z) (container : path).

(** The page, the requests made (most recent first), the callbacks queued
    and the alerts raised. *)
Record browser : Type := Browser {
  current : page;
  fetched : list request;
  timeouts : list timer;
  alerts : list string
}.

Definition onPage (f : page -> page) (b : browser) : browser :=
  Browser (f (current b)) (fetched b) (timeouts b) (alerts b).

(** [showError(message)] *)
Definition showError (message : string) (b : browser) : browser :=
  let pg := current b in
  match getElementById (dom pg) "error-container" with
  | Some errorContainer =>
      let d := setTextContent errorContainer message (dom pg) in
      let d := updElem errorContainer (setStyle "display" "block") d in
      Browser (withDom d pg) (fetched b) (HideErrorAfter 5000 errorContainer :: timeouts b)
              (alerts b)
  | None => Browser pg (fetched b) (timeouts b) (message :: alerts b)
  end.

(** The callback that [showError] queues, when it runs. *)
Definition hideError (errorContainer : path) (b : browser) : browser :=
  onPage (fun pg => withDom (updElem errorContainer (setStyle "display" "none") (dom pg)) pg) b.

(** [el.innerHTML = ..], given the nodes that the markup parses to. *)
Definition setInnerHTML (p : path) (kids : list node) (d : node) : node :=
  update p (fun n => match n with
                     | Elem e _ => Elem e kids
                     | Text s => Text s
                     end) d.

Section Host.

(** The HTML parser; [document.querySelector] on a selector given as text,
    [None] when it returns null or raises, both of which end in the catch
    handler; and how the console writes the exception raised then. *)
Variable parseHTML : string -> list node.
Variable querySelectorText : node -> string -> option path.
Variable lookupError : string -> string.

(** The click listener put on every [[data-ajax="true"]]. *)
Definition ajaxClick (b : browser) (this : path) : browser :=
  let pg := emit PreventDefault (current b) in
  let attribute a := e ← elemAt (dom pg) this; getAttribute a e in
  let url := orOption (attribute "href") (attribute "data-url") in
  let target := attribute "data-target" in
  let message := orElse (attribute "data-spinner-message") "Loading data..." in
  if truthy url && truthy target then
    Browser (showSpinner message pg)
            (Request (default "" url) (default "" target) :: fetched b)
            (timeouts b) (alerts b)
  else Browser pg (fetched b) (timeouts b) (alerts b).

(** The catch handler. *)
Definition fetchFailed (error : string) (b : browser) : browser :=
  let b := onPage (emit (ConsoleError ("Fetch error: " ++ error))) b in
  let b := onPage hideSpinner b in
  showError "Failed to load data. Please try again." b.

(** The handler of the response text, and the catch handler behind it. *)
Definition fetchLoaded (r : request) (html : string) (b : browser) : browser :=
  match querySelectorText (dom (current b)) (target r) with
  | Some t =>
      let b := onPage (fun pg => withDom (setInnerHTML t (parseHTML html) (dom pg)) pg) b in
      onPage hideSpinner b
  | None => fetchFailed (lookupError (target r)) b
  end.

End Host.

End Ajax.

(* ================================================================== *)
(** * Part two: the vocabulary of the statements *)
(* ================================================================== *)

(** ** Vocabulary: decimal numerals *)

Module JSProps.

(** The value of a decimal numeral read after the digits that made [a]. *)
Fixpoint uval (d : Decimal.uint) (a : Z) : Z :=
  match d with
  | Decimal.Nil => a
  | Decimal.D0 d => uval d (10 * a)
  | Decimal.D1 d => uval d (10 * a + 1)
  | Decimal.D2 d => uval d (10 * a + 2)
  | Decimal.D3 d => uval d (10 * a + 3)
  | Decimal.D4 d => uval d (10 * a + 4)
  | Decimal.D5 d => uval d (10 * a + 5)
  | Decimal.D6 d => uval d (10 * a + 6)
  | Decimal.D7 d => uval d (10 * a + 7)
  | Decimal.D8 d => uval d (10 * a + 8)
  | Decimal.D9 d => uval d (10 * a + 9)
  end.

(** The numeral [x] followed by the numeral [y]. *)
Fixpoint followedBy (x y : Decimal.uint) : Decimal.uint :=
  match x with
  | Decimal.Nil => y
  | Decimal.D0 x => Decimal.D0 (followedBy x y)
  | Decimal.D1 x => Decimal.D1 (followedBy x y)
  | Decimal.D2 x => Decimal.D2 (followedBy x y)
  | Decimal.D3 x => Decimal.D3 (followedBy x y)
  | Decimal.D4 x => Decimal.D4 (followedBy x y)
  | Decimal.D5 x => Decimal.D5 (followedBy x y)
  | Decimal.D6 x => Decimal.D6 (followedBy x y)
  | Decimal.D7 x => Decimal.D7 (followedBy x y)
  | Decimal.D8 x => Decimal.D8 (followedBy x y)
  | Decimal.D9 x => Decimal.D9 (followedBy x y)
  end.

(** The UTF-8 form of a character below U+10000. *)
Definition utf8 (cp : N) : string :=
  let byte (n : N) := ascii_of_N n in
  if (cp <? 128)%N then String (byte cp) ""
  else if (cp <? 2048)%N
  then String (byte (192 + cp / 64)%N) (String (byte (128 + cp mod 64)%N) "")
  else String (byte (224 + cp / 4096)%N)
         (String (byte (128 + (cp / 64) mod 64)%N) (String (byte (128 + cp mod 64)%N) "")).

(** The white space characters of the language: tab, line feed, vertical
    tab, form feed, carriage return, space, no-break space, the other space
    separators of Unicode, line and paragraph separator, and U+FEFF. *)
Definition whiteSpace : list N :=
  [ 9; 10; 11; 12; 13; 32; 160; 5760;
    8192; 8193; 8194; 8195; 8196; 8197; 8198; 8199; 8200; 8201; 8202;
    8232; 8233; 8239; 8287; 12288; 65279 ]%N.

(** [blank s]: the string is made of white space only. *)
Definition blank (s : string) : Prop :=
  exists cps : list N, Forall (fun cp => cp ∈ whiteSpace) cps /\
                       s = String.concat "" (utf8 <$> cps).

(** The code point that one, two or three bytes encode. *)
Definition decoded1 (c : ascii) : N := N_of_ascii c.
Definition decoded2 (c c2 : ascii) : N := ((N_of_ascii c - 192) * 64 + (N_of_ascii c2 - 128))%N.
Definition decoded3 (c c2 c3 : ascii) : N :=
  ((N_of_ascii c - 224) * 4096 + (N_of_ascii c2 - 128) * 64 + (N_of_ascii c3 - 128))%N.

End JSProps.

(** ** Vocabulary: the document tree *)

Module DomProps.
Import Dom Page.

(** The paths of the elements below a run of children, the first of which
    has index [i]. *)
Fixpoint kidPaths (i : nat) (ks : list node) : list path :=
  match ks with
  | [] => []
  | k :: ks' => (map (cons i) (elemPaths k) ++ kidPaths (S i) ks')%list
  end.

(** The element paths of the subtree at [q]. *)
Definition subPaths (d : node) (q : path) : list path :=
  match get d q with
  | Some n => elemPaths n
  | None => []
  end.

Definition rootElem (n : node) : option element :=
  match n with
  | Elem e _ => Some e
  | Text _ => None
  end.

(** [mentions c sel]: the selector tests the class [c]. *)
Fixpoint mentions (c : string) (sel : selector) : bool :=
  match sel with
  | SelClass c' => bool_decide (c' = c)
  | SelTag _ | SelId _ => false
  | SelOr s1 s2 => mentions c s1 || mentions c s2
  end.

(** [e'] is [e] up to the class [c] and the inline style. *)
Definition sameBut (c : string) (e e' : element) : Prop :=
  tagName e' = tagName e /\ attrs e' = attrs e /\ value e' = value e /\
  forall c', c' ≠ c -> contains c' e' = contains c' e.

(** [d'] has the elements of [d] at the same paths, each up to the class
    [c] and the inline style; texts may differ. *)
Definition inert (c : string) (d d' : node) : Prop :=
  (forall q, subPaths d' q = subPaths d q) /\
  (forall q, option_Forall2 (sameBut c) (elemAt d q) (elemAt d' q)).

(** The number of elements of a tree that a selector matches. *)
Fixpoint countSel (sel : selector) (n : node) : nat :=
  match n with
  | Text _ => 0
  | Elem e ks => (if matches sel e then 1 else 0) + sum_list (map (countSel sel) ks)
  end.

(** What [after] does to the parent: the new node goes right after the
    child of index [i]. *)
Definition insKid (i : nat) (new : node) (n : node) : node :=
  match n with
  | Elem e ks => Elem e (take (S i) ks ++ new :: drop (S i) ks)%list
  | Text s => Text s
  end.

End DomProps.

(** ** Vocabulary: sentiment bands *)

Module SentimentProps.
Import JS.

(** A classifier [f] puts a finite score in the band named [pos] exactly
    from 0.05 up, in [neg] exactly from -0.05 down, in [neu] exactly
    strictly between the two. *)
Definition banded (f : number -> string) (pos neg neu : string) : Prop :=
  forall q : Q,
    (f (Fin q) = pos <-> (lit_0_05 <= q)%Q) /\
    (f (Fin q) = neg <-> (q <= - lit_0_05)%Q) /\
    (f (Fin q) = neu <-> (- lit_0_05 < q /\ q < lit_0_05)%Q).

End SentimentProps.

(** ** Vocabulary: charts *)

Module ChartProps.
Import Dom Page Chart.

(** The prefix both percentage callbacks put before the value: the label
    and a colon, or nothing for a missing or empty label. *)
Definition labelPrefix (label : option string) : string :=
  match label with
  | Some l => if decide (l = "") then "" else l ++ ": "
  | None => ""
  end.

(** What a render call does to an existing canvas before it draws. *)
Definition destroyExisting (c : path) (w : world) : world :=
  match getChart c w with
  | Some existingChart => destroy existingChart w
  | None => w
  end.

Definition notFound (canvasId : string) : string :=
  "Canvas element " ++ canvasId ++ " not found".

Definition oneChartPerCanvas (w : world) : Prop :=
  forall c, (chartsOn c w <= 1)%nat.

End ChartProps.

(** ** Vocabulary: button spinners *)

Module SpinnerProps.
Import Spinner.

Definition snapshotKey : string := "data-original-text".

(** [n] rounds of add then remove, with the default flags. *)
Definition rounds (readBack : string -> string) (id : string) (n : nat) (doc : document) :
    document :=
  Nat.iter n (fun d => removeButtonSpinner readBack id true (addButtonSpinner readBack id true d))
           doc.

(** A host that reads every markup back as it was assigned. *)
Definition verbatim (markup : string) : string := markup.

End SpinnerProps.

(** ** Vocabulary: query strings *)

Module UrlProps.
Import Url.

(** [lacks c s]: the byte [c] does not occur in [s]. *)
Fixpoint lacks (c : ascii) (s : string) : bool :=
  match s with
  | EmptyString => true
  | String c' s' => negb (Ascii.eqb c' c) && lacks c s'
  end.

Definition pairString (nv : string * string) : string :=
  urlencode (fst nv) ++ String "=" (urlencode (snd nv)).

Abbreviation named k := (fun nv : string * string => String.eqb (fst nv) k = true).
Abbreviation others k := (fun nv : string * string => negb (String.eqb (fst nv) k) = true).

(** The strings that are the UTF-8 form of a string: every character is
    encoded as the Unicode standard asks, in one to four bytes. *)
Inductive wellFormed : string -> Prop :=
| wf_nil : wellFormed ""
| wf_one b0 s :
    (nat_of_ascii b0 <=? 127)%nat = true -> wellFormed s -> wellFormed (String b0 s)
| wf_two b0 b1 s :
    inRange 194 223 b0 = true -> inRange 128 191 b1 = true ->
    wellFormed s -> wellFormed (String b0 (String b1 s))
| wf_three b0 b1 b2 s :
    inRange 224 239 b0 = true ->
    inRange (if (nat_of_ascii b0 =? 224)%nat then 160 else 128)
            (if (nat_of_ascii b0 =? 237)%nat then 159 else 191) b1 = true ->
    inRange 128 191 b2 = true ->
    wellFormed s -> wellFormed (String b0 (String b1 (String b2 s)))
| wf_four b0 b1 b2 b3 s :
    inRange 240 244 b0 = true ->
    inRange (if (nat_of_ascii b0 =? 240)%nat then 144 else 128)
            (if (nat_of_ascii b0 =? 244)%nat then 143 else 191) b1 = true ->
    inRange 128 191 b2 = true -> inRange 128 191 b3 = true ->
    wellFormed s -> wellFormed (String b0 (String b1 (String b2 (String b3 s)))).

(** Pairs of such strings. *)
Definition wellFormedPairs (l : params) : Prop :=
  Forall (fun nv => wellFormed (fst nv) /\ wellFormed (snd nv)) l.

End UrlProps.

(** ** Vocabulary: vote buttons *)

Module VoteProps.
Import Dom Page Main.

(** The sibling button the handler looks up for the button at [this]. *)
Definition siblingOf (d : node) (parentEl this : path) : option path :=
  if hasClass d this "upvote"
  then querySelector d parentEl (SelClass "downvote")
  else querySelector d parentEl (SelClass "upvote").

(** The four deltas: un-voting takes the vote back, voting against an
    active sibling counts twice, voting alone counts once. *)
Definition voteDelta (isUpvote wasActive siblingActive : bool) : Z :=
  if wasActive then (if isUpvote then -1 else 1)
  else if siblingActive then (if isUpvote then 2 else -2)
  else (if isUpvote then 1 else -1).

Definition siblingActive (d : node) (sib : option path) : bool :=
  match sib with
  | Some s => hasClass d s "active"
  | None => false
  end.

(** What a click does to the class lists. *)
Definition classStep (d : node) (this : path) (sib : option path) : node :=
  if hasClass d this "active" then updElem this (classRemove "active") d
  else
    let d1 := updElem this (classAdd "active") d in
    if siblingActive d1 sib
    then match sib with Some s => updElem s (classRemove "active") d1 | None => d1 end
    else d1.

(** A vote-button pair of the container [pe]: the upvote button [pu] and
    the downvote button [pd] are the buttons the handler finds from each
    other, and the counter, if there is one, holds only text. *)
Record votePair (d : node) (pe pu pd : path) : Prop := VotePair {
  vp_up_parent : closest d pu postOrComment = Some pe;
  vp_down_parent : closest d pd postOrComment = Some pe;
  vp_up : querySelector d pe (SelClass "upvote") = Some pu;
  vp_down : querySelector d pe (SelClass "downvote") = Some pd;
  vp_down_not_up : hasClass d pd "upvote" = false;
  vp_counter : forall vc, querySelector d pe (SelClass "vote-count") = Some vc ->
                          descendants d vc = []
}.

Definition atMostOneActive (d : node) (pu pd : path) : Prop :=
  hasClass d pu "active" && hasClass d pd "active" = false.

(** A sequence of clicks, the first click first. *)
Definition voteClicks (big : Q -> string) (pg : page) (clicks : list path) : page :=
  foldl (voteButtonClick big) pg clicks.

(** The whole numbers that a Number holds exactly and writes with all
    their digits. *)
Definition heldExactly (n : Z) : Prop := (- 2 ^ 53 <= n <= 2 ^ 53)%Z.

End VoteProps.

(** ** Vocabulary: text expansion *)

Module ExpandProps.
Import Dom Page Main.

(** The label and the fade display that the handler sets for a class
    state. *)
Definition labelFor (expanded : bool) : string :=
  if expanded then "Show less" else "Read more".

Definition fadeDisplayFor (expanded : bool) : string :=
  if expanded then "none" else "block".

(** The hypotheses under which a click is followed: the button is an
    element that holds only text, inside a post with a text container. *)
Record expandable (d : node) (this parentEl textEl : path) : Prop := Expandable {
  ex_this : is_Some (elemAt d this);
  ex_leaf : descendants d this = [];
  ex_post : closest d this (SelClass "post") = Some parentEl;
  ex_text : querySelector d parentEl (SelClass "post-text") = Some textEl
}.

End ExpandProps.

(** ** Vocabulary: the reply action *)

Module ReplyProps.
Import Dom Page Main.

Definition replyForms (d : node) (c : path) : list path :=
  querySelectorAll d c (SelClass "reply-form").

(** [n] clicks on the action at [this]; an exception ends the sequence. *)
Definition replyClicks (n : nat) (pg : page) (this : path) : outcome :=
  Nat.iter n (fun o => match o with
                       | Returns pg' => commentActionClick pg' this
                       | Throws err pg' => Throws err pg'
                       end) (Returns pg).

(** The display a visible form takes is [none], a hidden one [block]. *)
Definition toggledDisplay (d : node) (form : path) : string :=
  if bool_decide (styleAt d form "display" = "none") then "block" else "none".

(** A reply action of the comment [c] before its first use: the comment has
    no reply form and the action sits in a [.comment-actions] element [a]
    inside the comment. *)
Record replyReady (d : node) (this c a : path) : Prop := ReplyReady {
  rr_comment : closest d this (SelClass "comment") = Some c;
  rr_action : datasetAt d this "action" = Some "reply";
  rr_none : replyForms d c = [];
  rr_actions : closest d this (SelClass "comment-actions") = Some a;
  rr_inside : exists r, r ≠ [] /\ a = (c ++ r)%list
}.

(** The same action once the form at [form] is the comment's only one. *)
Record replyOpen (d : node) (this c form : path) : Prop := ReplyOpen {
  ro_comment : closest d this (SelClass "comment") = Some c;
  ro_action : datasetAt d this "action" = Some "reply";
  ro_form : replyForms d c = [form]
}.

End ReplyProps.

(** ** Vocabulary: example documents *)

Module Examples.
Import Dom Page Spinner.

Definition el (tag : string) (classes : list string) (attributes : gmap string string) : element :=
  Element tag classes attributes ∅ "".

Definition pageOf (d : node) (query : string) : page :=
  MkPage d "/feed" query ("https://example.org/feed" ++ query) true [].

(** A post with its vote buttons and its counter at 10. *)
Definition votePost : node :=
  Elem (el "body" [] ∅)
    [ Elem (el "div" ["post"] {[ "data-id" := "42" ]})
        [ Elem (el "a" ["vote-button"; "upvote"] ∅) [];
          Elem (el "span" ["vote-count"] ∅) [Text "10"];
          Elem (el "a" ["vote-button"; "downvote"] ∅) [] ] ].

Definition upButton : path := [0; 0]%nat.
Definition counter : path := [0; 1]%nat.
Definition downButton : path := [0; 2]%nat.

(** The same post with its counter at 2^53. *)
Definition hugePost : node :=
  Elem (el "body" [] ∅)
    [ Elem (el "div" ["post"] {[ "data-id" := "42" ]})
        [ Elem (el "a" ["vote-button"; "upvote"] ∅) [];
          Elem (el "span" ["vote-count"] ∅) [Text "9007199254740992"];
          Elem (el "a" ["vote-button"; "downvote"] ∅) [] ] ].

(** A post that holds a comment, with buttons and a counter of its own,
    before the buttons and the counter of the post. *)
Definition postWithComment : node :=
  Elem (el "body" [] ∅)
    [ Elem (el "div" ["post"] {[ "data-id" := "42" ]})
        [ Elem (el "div" ["comment"] {[ "data-id" := "7" ]})
            [ Elem (el "a" ["vote-button"; "upvote"] ∅) [];
              Elem (el "span" ["vote-count"] ∅) [Text "3"];
              Elem (el "a" ["vote-button"; "downvote"] ∅) [] ];
          Elem (el "a" ["vote-button"; "upvote"] ∅) [];
          Elem (el "span" ["vote-count"] ∅) [Text "10"];
          Elem (el "a" ["vote-button"; "downvote"] ∅) [] ] ].

Definition postUp : path := [0; 1]%nat.
Definition postDown : path := [0; 3]%nat.

(** A save action outside any post, and a reply action outside any
    comment. *)
Definition strayActions : node :=
  Elem (el "body" [] ∅)
    [ Elem (el "a" ["post-action"] {[ "data-action" := "save" ]}) [Text "Save"];
      Elem (el "a" ["comment-action"] {[ "data-action" := "reply" ]}) [Text "Reply"] ].

(** A reply action in a comment that has no [.comment-actions] element. *)
Definition bareReply : node :=
  Elem (el "body" [] ∅)
    [ Elem (el "div" ["comment"] {[ "data-id" := "7" ]})
        [ Elem (el "a" ["comment-action"] {[ "data-action" := "reply" ]}) [Text "Reply"] ] ].

(** A feed with a sort filter. *)
Definition feed : node :=
  Elem (el "body" [] ∅)
    [ Elem (Element "select" ["filter-select"] {[ "name" := "sort" ]} ∅ "top") [] ].

(** A dashboard with one canvas. *)
Definition dashboard : node :=
  Elem (el "body" [] ∅)
    [ Elem (el "canvas" [] {[ "id" := "trend" ]}) [] ].

Definition emptyWorld : Chart.world := Chart.World (pageOf dashboard "") [] 0.

(** A post as the server renders it: no inline style on the fade. *)
Definition longPost : node :=
  Elem (el "body" [] ∅)
    [ Elem (el "div" ["post"] ∅)
        [ Elem (el "div" ["post-text"] ∅) [Text "Markets rallied"];
          Elem (el "div" ["post-text-fade"] ∅) [];
          Elem (el "a" ["expand-button"] ∅) [Text "Read more"] ] ].

Definition longPostPage : page := MkPage longPost "/" "" "https://example.org/" true [].

(** A comment as the server renders it. *)
Definition thread : node :=
  Elem (el "body" [] ∅)
    [ Elem (el "div" ["comment"] {[ "data-id" := "7" ]})
        [ Elem (el "p" [] ∅) [Text "Bullish."];
          Elem (el "div" ["comment-actions"] ∅)
            [ Elem (el "a" ["comment-action"] {[ "data-action" := "reply" ]}) [Text "Reply"] ] ] ].

Definition threadPage : page := MkPage thread "/" "" "https://example.org/" true [].

(** A comment with two answers, each a comment of its own inside it. *)
Definition nestedThread : node :=
  Elem (el "body" [] ∅)
    [ Elem (el "div" ["comment"] {[ "data-id" := "1" ]})
        [ Elem (el "div" ["comment-actions"] ∅)
            [ Elem (el "a" ["comment-action"] {[ "data-action" := "reply" ]}) [Text "Reply"] ];
          Elem (el "div" ["comment"] {[ "data-id" := "2" ]})
            [ Elem (el "div" ["comment-actions"] ∅)
                [ Elem (el "a" ["comment-action"] {[ "data-action" := "reply" ]})
                    [Text "Reply"] ] ];
          Elem (el "div" ["comment"] {[ "data-id" := "3" ]})
            [ Elem (el "div" ["comment-actions"] ∅)
                [ Elem (el "a" ["comment-action"] {[ "data-action" := "reply" ]})
                    [Text "Reply"] ] ] ] ].

Definition nestedPage : page := MkPage nestedThread "/" "" "https://example.org/" true [].

(** The reply actions of the outer comment and of its two answers. *)
Definition outerReply : path := [0; 0; 0]%nat.
Definition firstAnswerReply : path := [0; 1; 0; 0]%nat.
Definition secondAnswerReply : path := [0; 2; 0; 0]%nat.

Definition goButton : button := Button "Go" ∅ false.

(** A button whose content is a pre element with a line break before its
    text, and a host that drops such a line break when the markup is
    assigned and leaves every other markup as it is. *)
Definition preButton : button := Button ("<pre>" ++ String "010" "Go</pre>") ∅ false.

Definition dropLineBreak (markup : string) : string :=
  match markup with
  | String "<" (String "p" (String "r" (String "e" (String ">" (String "010" rest))))) =>
      "<pre>" ++ rest
  | _ => markup
  end.

End Examples.

(** ** Vocabulary: the vote a pair shows *)

Module VoteCountProps.
Import Dom Page Main.

(** The vote the pair shows: +1 with the upvote button active, -1 with the
    downvote button active. *)
Definition ownVote (d : node) (pu pd : path) : Z :=
  (Z.b2z (hasClass d pu "active") - Z.b2z (hasClass d pd "active"))%Z.

(** Neither path leads to the other: the two name disjoint subtrees. *)
Definition apart (p q : path) : Prop := ~ p `prefix_of` q /\ ~ q `prefix_of` p.

(** Two posts, each with its buttons and its counter. *)
Definition twoPosts : node :=
  Elem (Element "body" [] ∅ ∅ "")
    [ Elem (Element "div" ["post"] {[ "data-id" := "1" ]} ∅ "")
        [ Elem (Element "a" ["vote-button"; "upvote"] ∅ ∅ "") [];
          Elem (Element "span" ["vote-count"] ∅ ∅ "") [Text "10"];
          Elem (Element "a" ["vote-button"; "downvote"] ∅ ∅ "") [] ];
      Elem (Element "div" ["post"] {[ "data-id" := "2" ]} ∅ "")
        [ Elem (Element "a" ["vote-button"; "upvote"; "active"] ∅ ∅ "") [];
          Elem (Element "span" ["vote-count"] ∅ ∅ "") [Text "7"];
          Elem (Element "a" ["vote-button"; "downvote"] ∅ ∅ "") [] ] ].

(** A post whose counter shows a word until somebody votes. *)
Definition unscoredPost : node :=
  Elem (Element "body" [] ∅ ∅ "")
    [ Elem (Element "div" ["post"] {[ "data-id" := "43" ]} ∅ "")
        [ Elem (Element "a" ["vote-button"; "upvote"] ∅ ∅ "") [];
          Elem (Element "span" ["vote-count"] ∅ ∅ "") [Text "Vote"];
          Elem (Element "a" ["vote-button"; "downvote"] ∅ ∅ "") [] ] ].

End VoteCountProps.

(** ** Vocabulary: an open reply form *)

Module ReplyCancelProps.
Import Dom Page Main Examples.

(** The example thread after a first click on its reply action. *)
Definition threadOpen : page :=
  match commentActionClick threadPage [0; 1; 0]%nat with
  | Returns pg => pg
  | Throws _ pg => pg
  end.

End ReplyCancelProps.

(** ** Vocabulary: the save action *)

Module SaveProps.
Import Dom Page Main.

(** What the save action shows for a state. *)
Definition iconClasses (saved : bool) : list string :=
  [if saved then "fas" else "far"; "fa-bookmark"].

Definition saveLabel (saved : bool) : string := if saved then "Saved" else "Save".

Definition saveLog (postId : option string) (saved : bool) : string :=
  "Post " ++ orUndefined postId ++ " " ++ (if saved then "saved" else "unsaved").

(** A post with a save action that has an icon and a label. *)
Definition savePost : node :=
  Elem (Element "body" [] ∅ ∅ "")
    [ Elem (Element "div" ["post"] {[ "data-id" := "42" ]} ∅ "")
        [ Elem (Element "a" ["post-action"] {[ "data-action" := "save" ]} ∅ "")
            [ Elem (Element "i" ["far"; "fa-bookmark"; "mr-1"] ∅ ∅ "") [];
              Elem (Element "span" [] ∅ ∅ "") [Text "Save"] ] ] ].

Definition savePage : page := MkPage savePost "/" "" "https://example.org/" true [].

(** The same action with the icon inside the label. *)
Definition savePostIconInLabel : node :=
  Elem (Element "body" [] ∅ ∅ "")
    [ Elem (Element "div" ["post"] {[ "data-id" := "42" ]} ∅ "")
        [ Elem (Element "a" ["post-action"] {[ "data-action" := "save" ]} ∅ "")
            [ Elem (Element "span" [] ∅ ∅ "")
                [ Elem (Element "i" ["far"; "fa-bookmark"; "mr-1"] ∅ ∅ "") [];
                  Text "Save" ] ] ] ].

End SaveProps.

(** ** Vocabulary: form submissions *)

Module FormsProps.
Import Dom Page Forms JSProps.

(** The search form at [this] has nothing to search for: no input named q,
    or one whose value is white space only. *)
Definition nothingToSearch (d : node) (this : path) : Prop :=
  match queryBy d this inputNamedQ with
  | None => True
  | Some searchInput => blank (valueAt d searchInput)
  end.

(** A search form with a query typed in, blanks around it. *)
Definition searchPage (query : string) : page :=
  MkPage (Elem (Element "body" [] ∅ ∅ "")
            [ Elem (Element "form" [] {[ "id" := "search-form" ]} ∅ "")
                [ Elem (Element "input" [] {[ "name" := "q" ]} ∅ query) [] ] ])
         "/" "" "https://example.org/" true [].

End FormsProps.

(** ** Vocabulary: relative dates *)

Module RelativeDateProps.
Import RelativeDate.

(** [n] units ago, the unit in the plural unless [n] is one. *)
Definition ago (n : Z) (unit : string) : string :=
  JS.digits n ++ " " ++ unit ++ (if (n =? 1)%Z then "" else "s") ++ " ago".

Definition minute : Z := 60000.
Definition hour : Z := 3600000.
Definition day : Z := 86400000.

End RelativeDateProps.

(** ** Vocabulary: formatted numbers *)

Module FormatProps.
Import JS.

(** [k] tenths, written with one decimal place. *)
Definition tenths (k : Z) : string := digits (k / 10) ++ "." ++ digits (k mod 10).

End FormatProps.

(** ** Vocabulary: the overlay *)

Module OverlayProps.
Import Dom Page Main.

Definition overlaySel : selector := SelClass "spinner-overlay".
Definition messageSel : selector := SelClass "spinner-message".

(** No overlay that [querySelector] finds is active and the body scrolls. *)
Definition spinnerOff (d : node) : Prop :=
  (forall o, docQuerySelector d overlaySel = Some o -> hasClass d o "active" = false) /\
  styleAt d [] "overflow" = "".

(** A page without an overlay, and its body. *)
Definition plainBody : node :=
  Elem (Element "body" [] ∅ ∅ "") [Elem (Element "h1" [] ∅ ∅ "") [Text "Markets"]].

Definition plainPage : page := MkPage plainBody "/" "" "https://example.org/" true [].

End OverlayProps.

(** ** Vocabulary: fetch and swap *)

Module AjaxProps.
Import Dom Page Main OverlayProps Ajax.

Definition failureMessage : string := "Failed to load data. Please try again.".

(** [o] is a node inside the element at [t], at any depth. *)
Definition inside (t o : path) : Prop := exists i rest, o = (t ++ i :: rest)%list.

(** A page with an active overlay, an error container and a link that
    loads quotes into a panel. *)
Definition loadingBody : node :=
  Elem (Element "body" [] ∅ {[ "overflow" := "hidden" ]} "")
    [ Elem (Element "a" [] {[ "href" := "/quotes"; "data-ajax" := "true";
                              "data-target" := "#panel" ]} ∅ "") [Text "Quotes"];
      Elem (Element "div" [] {[ "id" := "panel" ]} ∅ "") [Text "..."];
      Elem (Element "div" [] {[ "id" := "error-container" ]} ∅ "") [];
      Elem (Element "div" ["spinner-overlay"; "active"] ∅ ∅ "")
        [ Elem (Element "div" ["spinner-message"] ∅ ∅ "") [Text "Loading data..."] ] ].

Definition loading : browser :=
  Browser (MkPage loadingBody "/" "" "https://example.org/" true [])
          [Request "/quotes" "#panel"] [] [].

(** A host that parses every markup to one text node and resolves
    [#panel] only. *)
Definition textOnly (html : string) : list node := [Text html].

Definition panelOnly (d : node) (selector : string) : option path :=
  if decide (selector = "#panel") then getElementById d "panel" else None.

End AjaxProps.

(** ** Vocabulary: the chart registry *)

Module ChartRegistryProps.
Import Dom Page Chart.

(** The registry as the library keeps it: no two live charts share an
    identifier, and every identifier in use is below the next one. *)
Definition freshIds (w : world) : Prop :=
  NoDup (chartId <$> registry w) /\
  forall ch, ch ∈ registry w -> (chartId ch < nextId w)%nat.

(** The live charts of a canvas, oldest first. *)
Definition chartsOf (c : path) (w : world) : list chart :=
  filter (fun ch => canvas ch = c) (registry w).

(** The chart type that a render call asks for. *)
Definition callType (call : renderCall) : chartType :=
  match call with
  | TrendChart _ _ _ _ _ => Line
  | PieChart _ _ _ _ => Doughnut
  | EntityChart _ _ _ => Bar
  | TimelineChart _ _ _ => Scatter
  end.

End ChartRegistryProps.

(** ** Vocabulary: the snapshot of a button *)

Module SpinnerSnapshotProps.
Import Spinner.

(** Somebody else writes the inner markup of a button. *)
Definition setInnerHTML (readBack : string -> string) (id markup : string) (doc : document) :
    document :=
  match doc !! id with
  | Some b => <[id := Button (readBack markup) (attributes b) (disabled b)]> doc
  | None => doc
  end.

End SpinnerSnapshotProps.

(* ================================================================== *)
(** * Part three: facts *)
(* ================================================================== *)

(** ** Facts: rounding to binary64 *)

Module Binary64Facts.
Import JS.
Local Open Scope Q_scope.

Lemma roundHalfEven_near (q : Q) :
  inject_Z (roundHalfEven q) - (1 # 2) <= q /\ q <= inject_Z (roundHalfEven q) + (1 # 2).
Proof.
  unfold roundHalfEven. pose proof (Qfloor_le q) as Hlo. pose proof (Qlt_floor q) as Hhi.
  rewrite inject_Z_plus in Hhi. change (inject_Z 1) with 1 in Hhi.
  destruct (Qcompare_spec (q - inject_Z (Qfloor q)) (1 # 2)) as [H|H|H].
  - destruct (Z.even (Qfloor q)); rewrite ?inject_Z_plus; change (inject_Z 1) with 1; lra.
  - lra.
  - rewrite inject_Z_plus. change (inject_Z 1) with 1. lra.
Qed.

Lemma two_pos (k : Z) : 0 < 2 ^ k.
Proof. apply Qpower_0_lt. reflexivity. Qed.

Lemma two_add (n m : Z) : 2 ^ (n + m) == 2 ^ n * 2 ^ m.
Proof. apply Qpower_plus. discriminate. Qed.

Lemma two_of_Z (k : Z) : (0 <= k)%Z -> inject_Z (2 ^ k) == 2 ^ k.
Proof. intros Hk. rewrite (Zpower_Qpower 2 k Hk). reflexivity. Qed.

(** The exponent found is not too large. *)
Lemma ilog2_le (q : Q) : 0 < q -> 2 ^ ilog2 q <= q.
Proof.
  intros Hq. unfold ilog2. destruct q as [a b]. simpl Qnum. simpl Qden.
  assert (0 < a)%Z as Ha by (unfold Qlt in Hq; simpl in Hq; lia).
  set (la := Z.log2 a). set (lb := Z.log2 (Z.pos b)).
  destruct (Qle_bool (2 ^ (la - lb)) (a # b)) eqn:E; [apply Qle_bool_iff, E|].
  destruct (Z.log2_spec a Ha) as [Hla _]. fold la in Hla.
  destruct (Z.log2_spec (Z.pos b) eq_refl) as [_ Hlb]. fold lb in Hlb.
  assert (0 <= la)%Z as Hla0 by apply Z.log2_nonneg.
  assert (0 <= lb)%Z as Hlb0 by apply Z.log2_nonneg.
  rewrite (Qmake_Qdiv a b). apply Qle_shift_div_l; [reflexivity|].
  apply Qle_trans with (2 ^ (la - lb - 1) * 2 ^ (lb + 1)).
  - apply Qmult_le_l; [apply two_pos|].
    rewrite <- two_of_Z by lia. rewrite <- Zle_Qle. unfold Z.succ in Hlb. lia.
  - rewrite <- two_add. replace (la - lb - 1 + (lb + 1))%Z with la by lia.
    rewrite <- two_of_Z by lia. rewrite <- Zle_Qle. exact Hla.
Qed.

Lemma ilog2_bound (q : Q) (E : Z) : 0 < q -> q < 2 ^ (E + 1) -> (ilog2 q <= E)%Z.
Proof.
  intros Hq Hlt. pose proof (ilog2_le q Hq) as Hle.
  assert (2 ^ ilog2 q < 2 ^ (E + 1)) as H by (eapply Qle_lt_trans; eassumption).
  apply Qpower_lt_compat_l_inv in H; [lia | reflexivity].
Qed.

(** Rounding moves a positive value below [2^(E+1)] by at most half of the
    step [2^(E-52)]. *)
Lemma binary64_near (q : Q) (E : Z) :
  0 < q -> q < 2 ^ (E + 1) -> (-1022 <= E <= 1000)%Z ->
  exists r, binary64 q = Fin r /\ q - 2 ^ (E - 53) <= r /\ r <= q + 2 ^ (E - 53).
Proof.
  intros Hq Hlt HE.
  assert (binary64 q = roundPositive q) as ->.
  { unfold binary64. destruct q as [[|a|a] b]; try reflexivity; unfold Qlt in Hq; simpl in Hq; lia. }
  unfold roundPositive.
  set (e := Z.max (ilog2 q) (-1022)).
  assert (e <= E)%Z as He by (pose proof (ilog2_bound q E Hq Hlt); lia).
  set (m := roundHalfEven (q * 2 ^ (52 - e))).
  destruct (roundHalfEven_near (q * 2 ^ (52 - e))) as [Hlo Hhi]. fold m in Hlo, Hhi.
  set (X := 2 ^ (52 - e)) in *. set (Y := 2 ^ (e - 52)).
  assert (0 < Y) as HY by apply two_pos.
  assert (X * Y == 1) as HXY.
  { unfold X, Y. rewrite <- two_add. replace (52 - e + (e - 52))%Z with 0%Z by lia. reflexivity. }
  assert (Y * (1 # 2) == 2 ^ (e - 53)) as Hhalf.
  { unfold Y. replace (e - 52)%Z with (e - 53 + 1)%Z by lia. rewrite two_add.
    change (2 ^ 1) with 2. field. }
  assert (2 ^ (e - 53) <= 2 ^ (E - 53)) as Hmono
      by (apply Qpower_le_compat_l; [lia | discriminate]).
  assert (q - 2 ^ (E - 53) <= inject_Z m * Y /\ inject_Z m * Y <= q + 2 ^ (E - 53)) as [H1 H2].
  { assert (q == q * X * Y) as Hq' by (rewrite <- Qmult_assoc, HXY; ring).
    assert ((inject_Z m - (1 # 2)) * Y <= q * X * Y) as A1 by (apply Qmult_le_compat_r; lra).
    assert (q * X * Y <= (inject_Z m + (1 # 2)) * Y) as A2 by (apply Qmult_le_compat_r; lra).
    lra. }
  set (r := Qred (inject_Z m * Y)).
  assert (r == inject_Z m * Y) as Hr by apply Qred_correct.
  assert (Qle_bool (2 ^ 1024) r = false) as ->.
  { destruct (Qle_bool (2 ^ 1024) r) eqn:C; [|reflexivity].
    apply Qle_bool_iff in C. exfalso.
    assert (2 ^ (E - 53) <= 2 ^ (E + 1)) as B1 by (apply Qpower_le_compat_l; [lia | discriminate]).
    assert (2 ^ (E + 1) * 2 == 2 ^ (E + 2)) as B2.
    { replace (E + 2)%Z with (E + 1 + 1)%Z by lia. rewrite (two_add (E + 1) 1). reflexivity. }
    assert (2 ^ (E + 2) <= 2 ^ 1024) as B3 by (apply Qpower_le_compat_l; [lia | discriminate]).
    lra. }
  exists r. split; [reflexivity | split; lra].
Qed.

(** ** Whole numbers and their quotients *)

Lemma roundHalfEven_Z (q : Q) (z : Z) : q == inject_Z z -> roundHalfEven q = z.
Proof.
  intros H. unfold roundHalfEven. rewrite (Qfloor_comp q (inject_Z z) H), Qfloor_Z.
  destruct (Qcompare_spec (q - inject_Z z) (1 # 2)) as [C|C|C]; [lra | reflexivity | lra].
Qed.

Lemma Qred_whole (z : Z) : Qred (inject_Z z) = inject_Z z.
Proof.
  unfold Qred, inject_Z.
  pose proof (Z.ggcd_gcd z 1) as Hg. pose proof (Z.ggcd_correct_divisors z 1) as Hd.
  destruct (Z.ggcd z 1) as [g [a b]]. simpl in Hg, Hd. rewrite Z.gcd_1_r in Hg. subst g.
  destruct Hd as [Ha Hb].
  assert (a = z) as -> by lia. assert (b = 1%Z) as -> by lia. reflexivity.
Qed.

(** A whole number up to 2^53 is a binary64 value. *)
Lemma roundPositive_exact (q : Q) (z : Z) :
  0 < q -> q == inject_Z z -> q <= 2 ^ 53 ->
  roundPositive q = Fin (inject_Z z).
Proof.
  intros Hq Hz Hle. unfold roundPositive.
  set (e := Z.max (ilog2 q) (-1022)).
  assert (q < 2 ^ (53 + 1)) as Hlt.
  { assert (2 ^ 53 < 2 ^ (53 + 1)) as B by reflexivity. lra. }
  assert (e <= 53)%Z as He by (pose proof (ilog2_bound q 53 Hq Hlt); lia).
  set (X := 2 ^ (52 - e)). set (Y := 2 ^ (e - 52)).
  assert (X * Y == 1) as HXY.
  { unfold X, Y. rewrite <- two_add. replace (52 - e + (e - 52))%Z with 0%Z by lia. reflexivity. }
  assert (exists k : Z, q * X == inject_Z k) as [k Hint].
  { destruct (Z_le_gt_dec e 52) as [H52|H52].
    - exists (z * 2 ^ (52 - e))%Z. unfold X.
      rewrite inject_Z_mult, two_of_Z by lia. rewrite Hz. reflexivity.
    - assert (e = 53%Z) as He53 by lia.
      assert (ilog2 q = 53%Z) as Hi by lia.
      pose proof (ilog2_le q Hq) as Hge. rewrite Hi in Hge.
      exists (2 ^ 52)%Z. unfold X. rewrite He53.
      assert (q == 2 ^ 53) as -> by lra. reflexivity. }
  rewrite (roundHalfEven_Z _ _ Hint).
  assert (inject_Z k * Y == inject_Z z) as Hr.
  { rewrite <- Hint, <- Qmult_assoc, HXY, Hz. ring. }
  rewrite (Qred_complete _ _ Hr), Qred_whole.
  assert (Qle_bool (2 ^ 1024) (inject_Z z) = false) as ->; [|reflexivity].
  destruct (Qle_bool (2 ^ 1024) (inject_Z z)) eqn:C; [|reflexivity].
  apply Qle_bool_iff in C. exfalso. rewrite <- Hz in C.
  assert (2 ^ 53 < 2 ^ 1024) as B by reflexivity. lra.
Qed.

Lemma positive_num (q : Q) : 0 < q -> exists p, Qnum q = Z.pos p.
Proof.
  destruct q as [[|a|a] b]; unfold Qlt; simpl; intros H; try lia. eauto.
Qed.

Lemma negative_num (q : Q) : q < 0 -> exists p, Qnum q = Z.neg p /\ 0 < - q.
Proof.
  intros H. split with (match Qnum q with Z.neg p => p | _ => 1%positive end).
  split; [|lra]. destruct q as [[|a|a] b]; unfold Qlt in H; simpl in *; (lia || reflexivity).
Qed.

Lemma roundHalfEven_nonneg (q : Q) : 0 <= q -> (0 <= roundHalfEven q)%Z.
Proof.
  intros Hq. assert (0 <= Qfloor q)%Z as Hf by (change 0%Z with (Qfloor 0); apply Qfloor_resp_le, Hq).
  unfold roundHalfEven. destruct (q - inject_Z (Qfloor q) ?= 1 # 2); [destruct (Z.even _) | |]; lia.
Qed.

(** The rounding of a positive value is not negative. *)
Lemma binary64_nonneg (q r : Q) : 0 < q -> binary64 q = Fin r -> 0 <= r.
Proof.
  intros Hq. destruct (positive_num q Hq) as (p & Hp). unfold binary64. rewrite Hp.
  unfold roundPositive. set (e := Z.max (ilog2 q) (-1022)).
  destruct (Qle_bool _ _); [discriminate|]. intros [= <-]. rewrite Qred_correct.
  apply Qmult_le_0_compat.
  - change 0 with (inject_Z 0). rewrite <- Zle_Qle. apply roundHalfEven_nonneg.
    apply Qmult_le_0_compat; [lra | apply Qlt_le_weak, two_pos].
  - apply Qlt_le_weak, two_pos.
Qed.

(** Rounding moves a value other than zero that lies between [-2^(E+1)]
    and [2^(E+1)] by at most [2^(E-53)]. *)
Lemma binary64_near_signed (x : Q) (E : Z) :
  ~ x == 0 -> - 2 ^ (E + 1) < x -> x < 2 ^ (E + 1) -> (-1022 <= E <= 1000)%Z ->
  exists r, binary64 x = Fin r /\ x - 2 ^ (E - 53) <= r /\ r <= x + 2 ^ (E - 53).
Proof.
  intros H0 Hlo Hhi HE. destruct (Q_dec x 0) as [[Hneg|Hpos]|Hz]; [| |contradiction].
  - destruct (negative_num x Hneg) as (p & Hp & Hpos).
    destruct (binary64_near (- x) E Hpos ltac:(lra) HE) as (r & Hr & H1 & H2).
    destruct (positive_num _ Hpos) as (p' & Hp').
    unfold binary64 in Hr. rewrite Hp' in Hr.
    unfold binary64. rewrite Hp, Hr. exists (- r). split; [reflexivity|]. lra.
  - apply binary64_near; assumption.
Qed.

Lemma opp_inject_opp (z : Z) : - inject_Z (- z) = inject_Z z.
Proof. unfold Qopp, inject_Z. simpl. rewrite Z.opp_involutive. reflexivity. Qed.

(** ... and leaves a whole number up to 2^53 in magnitude as it is. *)
Lemma binary64_exact (x : Q) (z : Z) :
  x == inject_Z z -> - 2 ^ 53 <= x -> x <= 2 ^ 53 ->
  binary64 x = Fin (inject_Z z).
Proof.
  intros Hz Hlo Hhi. destruct (Q_dec x 0) as [[Hneg|Hpos]|Hzero].
  - destruct (negative_num x Hneg) as (p & Hp & Hpos).
    assert (- x == inject_Z (- z)) as Hz' by (rewrite inject_Z_opp, Hz; reflexivity).
    unfold binary64. rewrite Hp.
    rewrite (roundPositive_exact (- x) (- z) Hpos Hz' ltac:(lra)). simpl.
    rewrite opp_inject_opp. reflexivity.
  - destruct (positive_num x Hpos) as (p & Hp).
    unfold binary64. rewrite Hp. apply roundPositive_exact; assumption.
  - assert (Qnum x = 0%Z) as Hn.
    { unfold Qeq in Hzero. simpl in Hzero. lia. }
    assert (z = 0%Z) as ->.
    { rewrite Hzero in Hz. unfold Qeq in Hz. simpl in Hz. lia. }
    unfold binary64. rewrite Hn. reflexivity.
Qed.

Lemma whole_in_range (z : Z) :
  (- 2 ^ 53 <= z <= 2 ^ 53)%Z -> - 2 ^ 53 <= inject_Z z /\ inject_Z z <= 2 ^ 53.
Proof.
  intros [H1 H2]. change (2 ^ 53) with (inject_Z (2 ^ 53)).
  rewrite <- inject_Z_opp, <- !Zle_Qle. split; assumption.
Qed.

Lemma binary64_whole (z : Z) :
  (- 2 ^ 53 <= z <= 2 ^ 53)%Z -> binary64 (inject_Z z) = Fin (inject_Z z).
Proof.
  intros Hz. destruct (whole_in_range z Hz). apply binary64_exact; [reflexivity | assumption ..].
Qed.

(** A sum of whole numbers that is at most 2^53 in magnitude is exact. *)
Lemma add_whole (a b : Z) :
  (- 2 ^ 53 <= a + b <= 2 ^ 53)%Z ->
  add (Fin (inject_Z a)) (Fin (inject_Z b)) = Fin (inject_Z (a + b)).
Proof.
  intros H. destruct (whole_in_range _ H) as [H1 H2]. simpl.
  apply binary64_exact; rewrite <- inject_Z_plus; [reflexivity | assumption ..].
Qed.

(** Such a number is written with all its digits. *)
Lemma toString_whole (big : Q -> string) (z : Z) :
  (- 2 ^ 53 <= z <= 2 ^ 53)%Z -> toString big (Fin (inject_Z z)) = intToString (Some z).
Proof.
  intros H. unfold toString. rewrite Qfloor_Z.
  assert (Qeq_bool (inject_Z z) (inject_Z z) = true) as -> by (apply Qeq_bool_iff; reflexivity).
  assert ((Z.abs z <=? 2 ^ 53)%Z = true) as -> by (apply Z.leb_le; lia).
  reflexivity.
Qed.

(** [Math.floor(n / d)] on whole numbers is the integer quotient rounded
    down, when the quotient lies between [-2^(E+1)] and [2^(E+1)] and the
    rounding step at that size is small against [1 / d]. *)
Lemma floor_of_quotient (n d E : Z) :
  (0 < d)%Z -> (0 <= E <= 52)%Z ->
  (- (d * 2 ^ (E + 1)) < n < d * 2 ^ (E + 1))%Z ->
  inject_Z d * 2 ^ (E - 53) < 1 ->
  exists r, div (Fin (inject_Z n)) (Fin (inject_Z d)) = Fin r /\ Qfloor r = (n / d)%Z.
Proof.
  intros Hd HE Hn Hstep.
  set (D := inject_Z d) in *. set (nQ := inject_Z n).
  assert (0 < D) as HD by (unfold D; rewrite <- (Zlt_Qlt 0); lia).
  assert (~ D == 0) as HD0 by (intros C; rewrite C in HD; discriminate HD).
  unfold div. replace (Qeq_bool D 0) with false.
  2:{ symmetry. destruct (Qeq_bool D 0) eqn:C; [|reflexivity].
      apply Qeq_bool_iff in C. contradiction. }
  set (x := nQ / D).
  assert (x * D == nQ) as HxD by (unfold x; field; exact HD0).
  pose proof (Z.div_mod n d ltac:(lia)) as Hdm.
  pose proof (Z.mod_pos_bound n d Hd) as Hm.
  set (q := (n / d)%Z) in *. set (m := (n mod d)%Z) in *.
  assert (nQ == D * inject_Z q + inject_Z m) as HnQ.
  { unfold nQ, D. rewrite <- inject_Z_mult, <- inject_Z_plus, <- Hdm. reflexivity. }
  assert (inject_Z (d * 2 ^ (E + 1)) == D * 2 ^ (E + 1)) as Hpow.
  { rewrite inject_Z_mult, two_of_Z by lia. reflexivity. }
  assert (- (D * 2 ^ (E + 1)) < nQ /\ nQ < D * 2 ^ (E + 1)) as [Hlo Hhi].
  { rewrite <- Hpow, <- inject_Z_opp. unfold nQ. rewrite <- !Zlt_Qlt. lia. }
  assert (- 2 ^ (E + 1) < x /\ x < 2 ^ (E + 1)) as [Hxlo Hxhi].
  { split.
    - apply (Qmult_lt_r _ _ D HD). rewrite HxD. lra.
    - apply (Qmult_lt_r _ _ D HD). rewrite HxD. lra. }
  assert (2 ^ (E + 1) <= 2 ^ 53) as Hcap by (apply Qpower_le_compat_l; [lia | discriminate]).
  destruct (Z.eq_dec m 0%Z) as [Hm0|Hm0].
  - assert (x == inject_Z q) as Hxq.
    { apply (Qmult_inj_r _ _ D HD0). rewrite HxD, HnQ, Hm0. ring. }
    exists (inject_Z q). split; [|apply Qfloor_Z].
    apply (binary64_exact x q Hxq); lra.
  - assert (~ x == 0) as Hx0.
    { intros C. rewrite C in HxD. assert (nQ == 0) as Hn0 by (rewrite <- HxD; ring).
      assert (n = 0%Z) as Hz by (unfold nQ, Qeq in Hn0; simpl in Hn0; lia).
      apply Hm0. unfold m. rewrite Hz. apply Z.mod_0_l. lia. }
    destruct (binary64_near_signed x E Hx0 Hxlo Hxhi ltac:(lia)) as (r & Hr & H1 & H2).
    exists r. split; [exact Hr|].
    set (eps := 2 ^ (E - 53)) in *.
    assert (0 < eps) as Heps by apply two_pos.
    assert ((x - eps) * D <= r * D) as A1 by (apply Qmult_le_compat_r; lra).
    assert (r * D <= (x + eps) * D) as A2 by (apply Qmult_le_compat_r; lra).
    assert ((x - eps) * D == nQ - D * eps) as B1 by (rewrite <- HxD; ring).
    assert ((x + eps) * D == nQ + D * eps) as B2 by (rewrite <- HxD; ring).
    assert (1 <= inject_Z m /\ inject_Z m <= D - 1) as [Hm1 Hm2].
    { unfold D. change 1 with (inject_Z 1). unfold Qminus.
      rewrite <- inject_Z_opp, <- inject_Z_plus, <- !Zle_Qle. lia. }
    assert (inject_Z q * D < r * D) as C1 by lra.
    assert (r * D < (inject_Z q + 1) * D) as C2.
    { assert ((inject_Z q + 1) * D == D * inject_Z q + D) as K by ring. lra. }
    apply Qmult_lt_r in C1; [|exact HD]. apply Qmult_lt_r in C2; [|exact HD].
    pose proof (Qfloor_le r) as F1. pose proof (Qlt_floor r) as F2.
    assert (inject_Z (Qfloor r) < inject_Z (q + 1)) as G1
        by (rewrite inject_Z_plus; change (inject_Z 1) with 1; lra).
    assert (inject_Z q < inject_Z (Qfloor r + 1)) as G2 by lra.
    rewrite <- Zlt_Qlt in G1, G2. lia.
Qed.

(** The values that the main script's literals denote are the rounded
    decimals. *)
Lemma literals_rounded :
  (exists r, binary64 (5 # 100) = Fin r /\ r == lit_0_05) /\
  (exists r, binary64 (49 # 1000) = Fin r /\ r == lit_0_049).
Proof. split; eexists; (split; [vm_compute; reflexivity | reflexivity]). Qed.

End Binary64Facts.

(** ** Facts: numbers and strings *)

Module JSFacts.
Import JS JSProps Binary64Facts.

Lemma uval_pos (d : Decimal.uint) (p : positive) :
  uval d (Zpos p) = Zpos (Pos.of_uint_acc d p).
Proof.
  revert p. induction d as [|d IH|d IH|d IH|d IH|d IH|d IH|d IH|d IH|d IH|d IH];
    intros p; simpl; [reflexivity | rewrite <- IH; f_equal; lia ..].
Qed.

Lemma uval_of_uint (d : Decimal.uint) : uval d 0 = Z.of_N (N.of_uint d).
Proof.
  induction d as [|d IH|d IH|d IH|d IH|d IH|d IH|d IH|d IH|d IH|d IH];
    simpl; [reflexivity | exact IH | apply uval_pos ..].
Qed.

Lemma uval_to_uint (n : N) : uval (N.to_uint n) 0 = Z.of_N n.
Proof. rewrite uval_of_uint, DecimalN.Unsigned.of_to. reflexivity. Qed.

Lemma uval_followedBy (x y : Decimal.uint) (a : Z) :
  uval (followedBy x y) a = uval y (uval x a).
Proof.
  revert a. induction x as [|x IH|x IH|x IH|x IH|x IH|x IH|x IH|x IH|x IH|x IH];
    intros a; simpl; [reflexivity | apply IH ..].
Qed.

Lemma string_followedBy (x y : Decimal.uint) :
  NilEmpty.string_of_uint (followedBy x y)
  = NilEmpty.string_of_uint x ++ NilEmpty.string_of_uint y.
Proof.
  induction x as [|x IH|x IH|x IH|x IH|x IH|x IH|x IH|x IH|x IH|x IH];
    simpl; [reflexivity | rewrite IH; reflexivity ..].
Qed.

Lemma to_uint_nonnil (n : N) : N.to_uint n <> Decimal.Nil.
Proof. destruct n; [discriminate | apply DecimalPos.Unsigned.to_uint_nonnil]. Qed.

Lemma digits_string (n : Z) :
  digits n = NilEmpty.string_of_uint (N.to_uint (Z.to_N n)).
Proof.
  unfold digits, NilZero.string_of_uint.
  pose proof (to_uint_nonnil (Z.to_N n)) as H.
  destruct (N.to_uint (Z.to_N n)); [contradiction | reflexivity ..].
Qed.

(** Reading the digits of a numeral gives its value. *)
Lemma readDigits_uint (d : Decimal.uint) (a : Z) :
  readDigits 10 (NilEmpty.string_of_uint d) (Some a) = Some (uval d a).
Proof.
  revert a. induction d as [|d IH|d IH|d IH|d IH|d IH|d IH|d IH|d IH|d IH|d IH];
    intros a; [reflexivity | ..];
    (cbn [NilEmpty.string_of_uint readDigits];
     match goal with
     | |- context [digitValue ?c] =>
         let v := eval vm_compute in (digitValue c) in change (digitValue c) with v
     end;
     cbn beta iota; change (_ <? 10)%Z with true; cbn beta iota;
     rewrite IH; cbn [uval]; f_equal; f_equal; lia).
Qed.

Lemma readDigits_start (d : Decimal.uint) :
  d <> Decimal.Nil ->
  readDigits 10 (NilEmpty.string_of_uint d) None
  = readDigits 10 (NilEmpty.string_of_uint d) (Some 0%Z).
Proof. destruct d; [contradiction | reflexivity ..]. Qed.

(** [parseInt] on a decimal numeral, with or without a minus sign, reads
    the digits in radix 10. *)
Lemma parseInt_numeral (d : Decimal.uint) :
  d <> Decimal.Nil ->
  parseInt (NilEmpty.string_of_uint d) = binary64 (inject_Z (uval d 0)) /\
  parseInt (String "-" (NilEmpty.string_of_uint d)) = binary64 (inject_Z (- uval d 0)).
Proof.
  intros Hd. pose proof (readDigits_uint d 0) as Hr.
  rewrite <- (readDigits_start d Hd) in Hr.
  destruct d as [|d|d|d|d|d|d|d|d|d|d]; [contradiction | ..];
    (destruct d as [|d|d|d|d|d|d|d|d|d|d];
     (split; unfold parseInt; cbn [NilEmpty.string_of_uint trimStart] in *;
      match goal with
      | |- context [isByteSpace ?c] => change (isByteSpace c) with false
      end;
      cbv beta iota; rewrite Hr; do 2 f_equal; lia)).
Qed.

Lemma digits_uval (n : Z) :
  (0 <= n)%Z -> uval (N.to_uint (Z.to_N n)) 0 = n.
Proof. intros Hn. rewrite uval_to_uint. lia. Qed.

(** The digits of a whole number read as the Number nearest to it. *)
Lemma parseInt_digits (z : Z) : parseInt (intToString (Some z)) = binary64 (inject_Z z).
Proof.
  unfold intToString. destruct (z <? 0)%Z eqn:E.
  - apply Z.ltb_lt in E. rewrite digits_string.
    change ("-" ++ ?s) with (String "-" s).
    rewrite (proj2 (parseInt_numeral _ (to_uint_nonnil _))), digits_uval by lia.
    do 2 f_equal. lia.
  - apply Z.ltb_ge in E. rewrite digits_string.
    rewrite (proj1 (parseInt_numeral _ (to_uint_nonnil _))), digits_uval by lia.
    reflexivity.
Qed.

(** The text written for a count up to 2^53 in magnitude reads back as that
    count. *)
Lemma parseInt_intToString (z : Z) :
  (- 2 ^ 53 <= z <= 2 ^ 53)%Z -> parseInt (intToString (Some z)) = Fin (inject_Z z).
Proof. intros Hz. rewrite parseInt_digits. apply binary64_whole, Hz. Qed.

(** ** The digits of ten times a number plus a digit *)

(** What holds of the ten digits holds below ten. *)
Lemma each_digit (P : Z -> Prop) :
  P 0%Z -> P 1%Z -> P 2%Z -> P 3%Z -> P 4%Z -> P 5%Z -> P 6%Z -> P 7%Z -> P 8%Z -> P 9%Z ->
  forall b : Z, (0 <= b < 10)%Z -> P b.
Proof.
  intros H0 H1 H2 H3 H4 H5 H6 H7 H8 H9 b Hb.
  assert (Forall P (seqZ 0 10)) as H
    by (unfold seqZ; simpl; repeat (constructor; [assumption|]); constructor).
  apply (proj1 (Forall_forall _ _) H), elem_of_seqZ. lia.
Qed.

Ltac by_digit b := pattern b; apply each_digit; [cbv beta ..|].

Lemma uval_digit (b a : Z) :
  (0 <= b < 10)%Z -> uval (N.to_uint (Z.to_N b)) a = (10 * a + b)%Z.
Proof. intros Hb. by_digit b; [cbn; lia .. | exact Hb]. Qed.

Lemma digits_digit (b : Z) :
  (0 <= b < 10)%Z -> String.length (digits b) = 1%nat.
Proof. intros Hb. by_digit b; [reflexivity .. | exact Hb]. Qed.

(** The numeral of a positive number is not changed by what follows it:
    it starts with a digit other than zero. *)
Lemma unorm_followedBy (p : positive) (y : Decimal.uint) :
  Decimal.unorm (followedBy (Pos.to_uint p) y) = followedBy (Pos.to_uint p) y.
Proof.
  pose proof (DecimalN.Unsigned.to_of (Pos.to_uint p)) as Hn.
  change (N.of_uint (Pos.to_uint p)) with (Pos.of_uint (Pos.to_uint p)) in Hn.
  rewrite DecimalPos.Unsigned.of_to in Hn. simpl in Hn.
  pose proof (DecimalPos.Unsigned.to_uint_nonzero p) as Hz.
  pose proof (DecimalPos.Unsigned.to_uint_nonnil p) as Hnil.
  destruct (Pos.to_uint p) as [|x|x|x|x|x|x|x|x|x|x]; try reflexivity; [contradiction|].
  exfalso. rewrite DecimalFacts.unorm_D0 in Hn. unfold Decimal.unorm in Hn.
  pose proof (DecimalFacts.nzhead_nonzero x x) as Hh.
  destruct (Decimal.nzhead x); try congruence.
Qed.

Lemma to_uint_split (n : Z) :
  (10 <= n)%Z ->
  N.to_uint (Z.to_N n)
  = followedBy (N.to_uint (Z.to_N (n / 10))) (N.to_uint (Z.to_N (n mod 10))).
Proof.
  intros Hn.
  set (x := N.to_uint (Z.to_N (n / 10))). set (y := N.to_uint (Z.to_N (n mod 10))).
  assert (N.of_uint (followedBy x y) = Z.to_N n) as Hof.
  { apply N2Z.inj. rewrite <- uval_of_uint, uval_followedBy. unfold x, y.
    rewrite digits_uval by (apply Z.div_pos; lia).
    rewrite uval_digit by (apply Z.mod_pos_bound; lia).
    rewrite Z2N.id by lia. pose proof (Z.div_mod n 10). lia. }
  rewrite <- Hof, DecimalN.Unsigned.to_of. unfold x.
  assert (0 < n / 10)%Z as Hpos by (apply Z.div_str_pos; lia).
  destruct (Z.to_N (n / 10)) as [|p] eqn:E; [lia|].
  apply unorm_followedBy.
Qed.

(** The digits of a number of at least two digits: those of its tenth,
    then its last digit. *)
Lemma digits_split (n : Z) :
  (10 <= n)%Z -> digits n = digits (n / 10) ++ digits (n mod 10).
Proof.
  intros Hn. rewrite !digits_string, (to_uint_split n Hn). apply string_followedBy.
Qed.

Lemma digits_nonempty (n : Z) : (1 <= String.length (digits n))%nat.
Proof.
  rewrite digits_string. pose proof (to_uint_nonnil (Z.to_N n)) as H.
  destruct (N.to_uint (Z.to_N n)); [contradiction | simpl; lia ..].
Qed.

(** ** Cutting a string where two parts meet *)

Lemma append_nil (b : string) : "" ++ b = b.
Proof. reflexivity. Qed.

Lemma append_cons (x : ascii) (a b : string) : String x a ++ b = String x (a ++ b).
Proof. reflexivity. Qed.

Lemma append_assoc (a b c : string) : (a ++ b) ++ c = a ++ (b ++ c).
Proof.
  induction a as [|x a IH]; [reflexivity|].
  rewrite !append_cons, IH. reflexivity.
Qed.

Lemma length_append (a b : string) :
  String.length (a ++ b) = (String.length a + String.length b)%nat.
Proof. induction a as [|c a IH]; [reflexivity|]. rewrite append_cons. simpl. now rewrite IH. Qed.

Lemma substring_whole (b : string) : substring 0 (String.length b) b = b.
Proof. induction b as [|c b IH]; [reflexivity|]. simpl. now rewrite IH. Qed.

Lemma substring_front (a b : string) : substring 0 (String.length a) (a ++ b) = a.
Proof.
  induction a as [|c a IH]; [destruct b; reflexivity|].
  rewrite append_cons. simpl. now rewrite IH.
Qed.

Lemma substring_back (a b : string) :
  substring (String.length a) (String.length b) (a ++ b) = b.
Proof.
  induction a as [|c a IH]; [apply substring_whole|].
  rewrite append_cons. simpl. exact IH.
Qed.

(** ** toFixed(1) below 10^21

    The integer nearest to ten times the number, with a point before its
    last digit. *)

Lemma nearest_nonneg (q : Q) :
  Qle_bool 0 q = true -> (0 <= Qfloor (q * inject_Z 10 + (1 # 2)))%Z.
Proof.
  intros H. apply Qle_bool_iff in H.
  change 0%Z with (Qfloor 0). apply Qfloor_resp_le.
  assert (0 <= q * inject_Z 10)%Q as H1 by (apply Qmult_le_0_compat; [exact H | discriminate]).
  assert (0 <= 1 # 2)%Q as H2 by discriminate.
  pose proof (Qplus_le_compat _ _ _ _ H1 H2) as H3. now rewrite Qplus_0_l in H3.
Qed.

Lemma point_before_last_digit (n : Z) :
  (0 <= n)%Z ->
  let m0 := digits n in
  let m := if (String.length m0 <=? 1)%nat
           then zeros (1 + 1 - String.length m0) ++ m0 else m0 in
  let k := String.length m in
  substring 0 (k - 1) m ++ "." ++ substring (k - 1) 1 m
  = digits (n / 10) ++ "." ++ digits (n mod 10).
Proof.
  intros Hn. destruct (Z_lt_le_dec n 10) as [Hlt | Hge].
  - by_digit n; [reflexivity .. | lia].
  - cbv zeta. rewrite (digits_split n Hge).
    set (a := digits (n / 10)). set (b := digits (n mod 10)).
    assert (String.length b = 1%nat) as Hb by (apply digits_digit, Z.mod_pos_bound; lia).
    pose proof (digits_nonempty (n / 10)) as Ha. fold a in Ha.
    rewrite length_append, Hb.
    replace (String.length a + 1 <=? 1)%nat with false by (symmetry; apply Nat.leb_gt; lia).
    cbv iota. rewrite length_append, Hb.
    replace (String.length a + 1 - 1)%nat with (String.length a) by lia.
    rewrite substring_front. rewrite <- Hb at 1. now rewrite substring_back.
Qed.

Lemma toFixed_one (big : Q -> string) (q : Q) :
  Qle_bool 0 q = true -> Qle_bool (inject_Z (10 ^ 21)) q = false ->
  let n := Qfloor (q * inject_Z 10 + (1 # 2)) in
  toFixed big 1 (Fin q) = digits (n / 10) ++ "." ++ digits (n mod 10).
Proof.
  intros H0 H21 n. unfold toFixed. rewrite H0, H21.
  change (10 ^ Z.of_nat 1)%Z with 10%Z. fold n.
  rewrite append_nil. apply point_before_last_digit, nearest_nonneg, H0.
Qed.

(** ** White space *)

Ltac each_byte c := destruct c as [[] [] [] [] [] [] [] []].

Lemma whiteSpace_elem (cp : N) : bool_decide (cp ∈ whiteSpace) = true -> cp ∈ whiteSpace.
Proof. apply bool_decide_eq_true_1. Qed.

(** The character that one, two or three bytes encode. *)

Ltac skipped cp rest :=
  right; exists cp, rest; split; [apply whiteSpace_elem; vm_compute; reflexivity | split; reflexivity].

Lemma trimStart_step (s : string) :
  trimStart s = s \/
  exists cp rest, cp ∈ whiteSpace /\ s = utf8 cp ++ rest /\ trimStart s = trimStart rest.
Proof.
  destruct s as [|c s1]; [left; reflexivity|].
  each_byte c; try (left; reflexivity);
    try match goal with |- trimStart (String ?a ?r) = _ \/ _ => skipped (decoded1 a) r end;
    (destruct s1 as [|c2 s2]; [left; reflexivity|]);
    each_byte c2; try (left; reflexivity);
    try match goal with |- trimStart (String ?a (String ?b ?r)) = _ \/ _ => skipped (decoded2 a b) r end;
    (destruct s2 as [|c3 s3]; [left; reflexivity|]);
    each_byte c3; try (left; reflexivity);
    match goal with
    | |- trimStart (String ?a (String ?b (String ?x ?r))) = _ \/ _ => skipped (decoded3 a b x) r
    end.
Qed.

Lemma trimStart_utf8 (cp : N) (rest : string) :
  cp ∈ whiteSpace -> trimStart (utf8 cp ++ rest) = trimStart rest.
Proof.
  unfold whiteSpace. intros H.
  repeat (apply elem_of_cons in H as [->|H]; [reflexivity|]). inversion H.
Qed.

Lemma utf8_length (cp : N) (rest : string) :
  (String.length rest < String.length (utf8 cp ++ rest))%nat.
Proof.
  unfold utf8. cbv zeta.
  destruct (cp <? 128)%N; [|destruct (cp <? 2048)%N];
    rewrite ?append_cons, append_nil; simpl; lia.
Qed.

Lemma append_empty (a : string) : a ++ "" = a.
Proof. induction a as [|c a IH]; [reflexivity|]. rewrite append_cons, IH. reflexivity. Qed.

Lemma concat_cons (a : string) (l : list string) :
  String.concat "" (a :: l) = a ++ String.concat "" l.
Proof. destruct l; simpl; [rewrite append_empty|]; reflexivity. Qed.

Lemma blank_nil : blank "".
Proof. exists []. split; [constructor | reflexivity]. Qed.

Lemma blank_cons (cp : N) (rest : string) :
  cp ∈ whiteSpace -> blank rest -> blank (utf8 cp ++ rest).
Proof.
  intros Hcp (cps & Hall & ->). exists (cp :: cps). split; [constructor; assumption|].
  rewrite fmap_cons. symmetry. apply concat_cons.
Qed.

(** Trimming from the start leaves nothing exactly of the blank strings. *)
Lemma trimStart_blank (s : string) : trimStart s = "" <-> blank s.
Proof.
  split.
  - assert (forall n s, (String.length s <= n)%nat -> trimStart s = "" -> blank s) as H.
    { induction n as [|n IH]; intros s0 Hn Ht.
      - destruct s0; [apply blank_nil | simpl in Hn; lia].
      - destruct (trimStart_step s0) as [Hs | (cp & rest & Hcp & -> & Hs)].
        + rewrite Hs in Ht. subst s0. apply blank_nil.
        + apply blank_cons; [exact Hcp|]. apply IH.
          * pose proof (utf8_length cp rest). lia.
          * rewrite <- Hs. exact Ht. }
    apply (H (String.length s)). lia.
  - intros (cps & Hall & ->). induction Hall as [|cp cps Hcp _ IH]; [reflexivity|].
    rewrite fmap_cons, concat_cons, (trimStart_utf8 cp _ Hcp). exact IH.
Qed.

(** What is left has no white space at its start. *)
Lemma trimStart_fixed (s : string) : trimStart (trimStart s) = trimStart s.
Proof.
  assert (forall n s, (String.length s <= n)%nat -> trimStart (trimStart s) = trimStart s) as H.
  { induction n as [|n IH]; intros s0 Hn.
    - destruct s0; [reflexivity | simpl in Hn; lia].
    - destruct (trimStart_step s0) as [Hs | (cp & rest & Hcp & -> & Hs)].
      + rewrite !Hs. reflexivity.
      + rewrite Hs. apply IH. pose proof (utf8_length cp rest). lia. }
  apply (H (String.length s)). lia.
Qed.

Lemma trimEnd_empty (s : string) : trimEnd s = "" <-> trimStart s = "".
Proof.
  destruct s as [|c s]; [split; reflexivity|]. cbn [trimEnd].
  destruct (trimStart (String c s)); [split; reflexivity | split; discriminate].
Qed.

(** Trimming leaves nothing exactly of the blank strings. *)
Lemma trim_empty (s : string) : trim s = "" <-> blank s.
Proof. unfold trim. rewrite trimEnd_empty, trimStart_fixed. apply trimStart_blank. Qed.

(** [parseInt] skips white space of every kind before the number. *)
Lemma parseInt_blank (w s : string) : blank w -> parseInt (w ++ s) = parseInt s.
Proof.
  intros (cps & Hall & ->).
  assert (trimStart (String.concat "" (utf8 <$> cps) ++ s) = trimStart s) as H.
  { induction Hall as [|cp cps Hcp _ IH]; [reflexivity|].
    rewrite fmap_cons, concat_cons, append_assoc, (trimStart_utf8 cp _ Hcp). exact IH. }
  unfold parseInt. rewrite H. reflexivity.
Qed.

(** A no-break space before the number is skipped, and so is a line
    separator. *)
Lemma parseInt_examples :
  parseInt (utf8 160 ++ "12") = Fin 12 /\
  parseInt (utf8 8232 ++ " -7 up") = Fin (-7) /\
  parseInt "12px" = Fin 12 /\
  parseInt "0x1F" = Fin 31 /\
  parseInt "1e3" = Fin 1 /\
  parseInt "" = NaN /\
  parseInt "9007199254740993" = Fin 9007199254740992.
Proof. repeat split; vm_compute; reflexivity. Qed.

End JSFacts.

(** ** Facts: sentiment bands *)

Module SentimentFacts.
Import JS SentimentProps.

Lemma geb_threshold (q : Q) : geb (Fin q) Main.threshold = true <-> (lit_0_05 <= q)%Q.
Proof. unfold Main.threshold; simpl. apply Qle_bool_iff. Qed.

Lemma leb_negThreshold (q : Q) : leb (Fin q) Main.negThreshold = true <-> (q <= - lit_0_05)%Q.
Proof. unfold Main.negThreshold, leb; simpl. apply Qle_bool_iff. Qed.

Lemma bands_exclusive (q : Q) : (lit_0_05 <= q)%Q -> (q <= - lit_0_05)%Q -> False.
Proof.
  intros H1 H2. pose proof (Qle_trans _ _ _ H1 H2) as H.
  unfold lit_0_05, Qle in H; simpl in H. lia.
Qed.

(** Any function written as the two comparisons in sequence is banded. *)
Lemma cascade_banded (f : number -> string) (pos neg neu : string) :
  pos <> neg -> pos <> neu -> neg <> neu ->
  (forall s, f s = if geb s Main.threshold then pos
                   else if leb s Main.negThreshold then neg else neu) ->
  banded f pos neg neu.
Proof.
  intros Hpn Hpu Hnu Hf q. rewrite Hf.
  pose proof (geb_threshold q) as Hg. pose proof (leb_negThreshold q) as Hl.
  pose proof (bands_exclusive q) as Hx.
  destruct (geb (Fin q) Main.threshold) eqn:Eg;
    [| destruct (leb (Fin q) Main.negThreshold) eqn:El ].
  - assert (lit_0_05 <= q)%Q as Hq by (apply Hg; reflexivity).
    split; [tauto | split]; split; try congruence.
    + intros H. exfalso. exact (Hx Hq H).
    + intros [_ H]. exfalso. exact (Qlt_not_le _ _ H Hq).
  - assert (q <= - lit_0_05)%Q as Hq by (apply Hl; reflexivity).
    split; [| split; [tauto |]]; split; try congruence.
    + intros H. apply Hg in H. discriminate.
    + intros [H _]. exfalso. exact (Qlt_not_le _ _ H Hq).
  - split; [| split]; split; try congruence.
    + intros H. apply Hg in H. discriminate.
    + intros H. apply Hl in H. discriminate.
    + intros _. split; apply Qnot_le_lt; intros H.
      * apply Hl in H. discriminate.
      * apply Hg in H. discriminate.
Qed.

(** C4.  On every finite score the two helpers of the main script and the
    colour and tooltip callbacks of chart.js agree on the bands: positive
    exactly when the score is at least 0.05, negative exactly when it is at
    most -0.05, neutral exactly when it lies strictly between; 0.05 itself is
    positive, -0.05 negative and 0.049 neutral. *)
Theorem sentiment_bands :
  banded Main.getSentimentClass "sentiment-positive" "sentiment-negative" "sentiment-neutral" /\
  banded Main.getSentimentText "Positive" "Negative" "Neutral" /\
  banded Chart.backgroundColorOf
         "rgba(76, 175, 80, 0.6)" "rgba(244, 67, 54, 0.6)" "rgba(158, 158, 158, 0.6)" /\
  banded Chart.borderColorOf
         "rgba(76, 175, 80, 1)" "rgba(244, 67, 54, 1)" "rgba(158, 158, 158, 1)" /\
  banded Chart.pointColorOf
         "rgba(76, 175, 80, 1)" "rgba(244, 67, 54, 1)" "rgba(158, 158, 158, 1)" /\
  banded Chart.timelineSentiment "Positive" "Negative" "Neutral" /\
  (Main.getSentimentClass (Fin lit_0_05) = "sentiment-positive" /\
   Main.getSentimentText (Fin lit_0_05) = "Positive") /\
  (Main.getSentimentClass (Fin (- lit_0_05)) = "sentiment-negative" /\
   Main.getSentimentText (Fin (- lit_0_05)) = "Negative") /\
  (Main.getSentimentClass (Fin lit_0_049) = "sentiment-neutral" /\
   Main.getSentimentText (Fin lit_0_049) = "Neutral").
Proof.
  do 6 (split; [apply cascade_banded; [discriminate .. | reflexivity] |]).
  repeat split; reflexivity.
Qed.

(** Outside the scores: NaN compares false with everything and so falls in
    the last branch. *)
Lemma sentiment_of_NaN :
  Main.getSentimentClass NaN = "sentiment-neutral" /\ Main.getSentimentText NaN = "Neutral".
Proof. split; reflexivity. Qed.

End SentimentFacts.

(** ** Facts: chart.js *)

Module ChartFacts.
Import Dom Page Chart ChartProps Examples Binary64Facts.

Lemma render_missing big tls (call : renderCall) (w : world) :
  getElementById (dom (pg w)) (callCanvasId call) = None ->
  render big tls call w = consoleError (notFound (callCanvasId call)) w.
Proof.
  intros H. destruct call; simpl in *;
    unfold createSentimentTrendChart, createSentimentPieChart,
           createEntitySentimentChart, createCommentTimelineChart;
    rewrite H; reflexivity.
Qed.

Lemma render_found big tls (call : renderCall) (w : world) (c : path) :
  getElementById (dom (pg w)) (callCanvasId call) = Some c ->
  exists k, render big tls call w = newChart c k (destroyExisting c w).
Proof.
  intros H. destruct call; simpl in *;
    unfold createSentimentTrendChart, createSentimentPieChart,
           createEntitySentimentChart, createCommentTimelineChart;
    rewrite H; eexists; reflexivity.
Qed.

Lemma chartsOn_newChart (c c' : path) (k : config) (w : world) :
  chartsOn c' (newChart c k w) = (chartsOn c' w + (if decide (c = c') then 1 else 0))%nat.
Proof.
  unfold chartsOn, newChart; simpl. rewrite filter_app, length_app. f_equal.
  rewrite filter_cons; simpl. destruct (decide (c = c')); reflexivity.
Qed.

Lemma chartsOn_destroy_le (c : path) (ex : chart) (w : world) :
  (chartsOn c (destroy ex w) <= chartsOn c w)%nat.
Proof.
  unfold chartsOn, destroy; simpl.
  induction (registry w) as [|ch reg IH]; [reflexivity|].
  rewrite !filter_cons.
  destruct (decide (chartId ch ≠ chartId ex)), (decide (canvas ch = c));
    rewrite ?filter_cons; repeat case_decide; simpl; try tauto; lia.
Qed.

Lemma getChart_in (c : path) (w : world) (ex : chart) :
  getChart c w = Some ex -> ex ∈ registry w /\ canvas ex = c.
Proof.
  unfold getChart. intros H. apply last_Some_elem_of in H.
  apply list_elem_of_filter in H. tauto.
Qed.

Lemma getChart_None (c : path) (w : world) :
  getChart c w = None -> chartsOn c w = 0%nat.
Proof.
  unfold getChart, chartsOn. intros H. apply last_None in H. rewrite H. reflexivity.
Qed.

(** Destroying a chart that is in the registry takes at least that chart
    off its canvas. *)
Lemma chartsOn_destroy_lt (ex : chart) (w : world) :
  ex ∈ registry w ->
  (chartsOn (canvas ex) (destroy ex w) < chartsOn (canvas ex) w)%nat.
Proof.
  unfold chartsOn, destroy; simpl.
  induction (registry w) as [|ch reg IH]; intros Hin.
  - inversion Hin.
  - pose proof (chartsOn_destroy_le (canvas ex) ex (World (pg w) reg (nextId w))) as Hle.
    unfold chartsOn, destroy in Hle; simpl in Hle.
    apply elem_of_cons in Hin as [<- | Hin].
    + rewrite !filter_cons. repeat case_decide; simpl; try congruence; lia.
    + specialize (IH Hin). rewrite !filter_cons.
      repeat case_decide; rewrite ?filter_cons; repeat case_decide; simpl; try tauto; lia.
Qed.

Lemma chartsOn_destroyExisting_le (c c' : path) (w : world) :
  (chartsOn c' (destroyExisting c w) <= chartsOn c' w)%nat.
Proof.
  unfold destroyExisting. destruct (getChart c w); [apply chartsOn_destroy_le | reflexivity].
Qed.

Lemma chartsOn_destroyExisting (c : path) (w : world) :
  (chartsOn c w <= 1)%nat -> chartsOn c (destroyExisting c w) = 0%nat.
Proof.
  unfold destroyExisting. intros H. destruct (getChart c w) as [ex|] eqn:E.
  - apply getChart_in in E as [Hin <-].
    pose proof (chartsOn_destroy_lt ex w Hin). lia.
  - apply getChart_None; assumption.
Qed.

Lemma render_preserves big tls (call : renderCall) (w : world) :
  oneChartPerCanvas w -> oneChartPerCanvas (render big tls call w).
Proof.
  intros Hw c'.
  destruct (getElementById (dom (pg w)) (callCanvasId call)) as [c|] eqn:E.
  - destruct (render_found big tls call w c E) as [k ->].
    rewrite chartsOn_newChart. case_decide as Hc.
    + subst c'. rewrite chartsOn_destroyExisting; [lia | apply Hw].
    + pose proof (chartsOn_destroyExisting_le c c' w). specialize (Hw c'). lia.
  - rewrite (render_missing big tls call w E). apply Hw.
Qed.

Lemma renderAll_preserves big tls (calls : list renderCall) (w : world) :
  oneChartPerCanvas w -> oneChartPerCanvas (renderAll big tls calls w).
Proof.
  revert w. induction calls as [|call calls IH]; intros w Hw; [exact Hw|].
  simpl. apply IH, render_preserves, Hw.
Qed.

(** C7.  From a registry with at most one chart on each canvas, every one of
    the four render functions called on an existing canvas first destroys
    the chart found on it and then constructs the new one, which leaves
    exactly one chart on that canvas and none added elsewhere; called on a
    missing canvas it logs the error and changes neither the registry nor
    the document; and after any sequence of render calls each canvas still
    has at most one chart. *)
Theorem render_one_chart_per_canvas big tls (w : world) :
  oneChartPerCanvas w ->
  (forall call c,
      getElementById (dom (pg w)) (callCanvasId call) = Some c ->
      (exists k, render big tls call w = newChart c k (destroyExisting c w)) /\
      chartsOn c (destroyExisting c w) = 0%nat /\
      chartsOn c (render big tls call w) = 1%nat /\
      (forall c', c' ≠ c -> (chartsOn c' (render big tls call w) <= chartsOn c' w)%nat)) /\
  (forall call,
      getElementById (dom (pg w)) (callCanvasId call) = None ->
      registry (render big tls call w) = registry w /\
      dom (pg (render big tls call w)) = dom (pg w) /\
      trace (pg (render big tls call w))
        = ConsoleError (notFound (callCanvasId call)) :: trace (pg w)) /\
  (forall calls, oneChartPerCanvas (renderAll big tls calls w)).
Proof.
  intros Hw. split; [| split].
  - intros call c E. destruct (render_found big tls call w c E) as [k Hk].
    split; [exists k; exact Hk |]. split; [apply chartsOn_destroyExisting, Hw |].
    rewrite Hk. split.
    + rewrite chartsOn_newChart, chartsOn_destroyExisting by apply Hw.
      case_decide; [reflexivity | congruence].
    + intros c' Hc. rewrite chartsOn_newChart. case_decide; [congruence|].
      pose proof (chartsOn_destroyExisting_le c c' w). lia.
  - intros call E. rewrite (render_missing big tls call w E). repeat split.
  - intros calls. apply renderAll_preserves, Hw.
Qed.

(** C9, as amended.  The tooltip label of the trend chart is the series
    label, a colon, and the value multiplied by 100 and fixed to one decimal
    place, followed by a percent sign; the tooltip label of the distribution
    chart formats the value it is given, already a percentage, to one
    decimal place without multiplying it.  On the trend chart the product is
    a Number: for a finite value [q > 0] with [100 q < 2^(E+1)] it is the
    binary64 value [r] nearest to [100 q], no further from it than
    [2^(E-53)], and up to [2^69] the label shows the integer [n] nearest to
    [10 r] (the larger one on a tie) with a point before its last digit;
    zero is shown as 0.0%. *)
Theorem tooltip_percent_labels big (label other : option string)
    (v : JS.number) (p : option JS.number) (raw : string * JS.number) :
  trendTooltipLabel big (TooltipContext label other p (Some v) raw)
    = labelPrefix label ++ JS.toFixed big 1 (JS.mul v hundred) ++ "%" /\
  pieTooltipLabel big (TooltipContext other label (Some v) p raw)
    = labelPrefix label ++ JS.toFixed big 1 v ++ "%" /\
  (forall (q : Q) (E : Z),
     v = JS.Fin q -> (0 < q)%Q -> (q * 100 < 2 ^ (E + 1))%Q -> (-1022 <= E <= 68)%Z ->
     exists r : Q,
       JS.mul v hundred = JS.Fin r /\
       (q * 100 - 2 ^ (E - 53) <= r /\ r <= q * 100 + 2 ^ (E - 53))%Q /\
       let n := Qfloor (r * inject_Z 10 + (1 # 2)) in
       (inject_Z n <= r * inject_Z 10 + (1 # 2) < inject_Z (n + 1))%Q /\
       trendTooltipLabel big (TooltipContext label other p (Some v) raw)
         = labelPrefix label ++ JS.digits (n / 10) ++ "." ++ JS.digits (n mod 10) ++ "%") /\
  (forall q : Q,
     v = JS.Fin q -> (q == 0)%Q ->
     trendTooltipLabel big (TooltipContext label other p (Some v) raw)
       = labelPrefix label ++ "0.0%").
Proof.
  assert (trendTooltipLabel big (TooltipContext label other p (Some v) raw)
          = labelPrefix label ++ JS.toFixed big 1 (JS.mul v hundred) ++ "%") as Htrend.
  { unfold trendTooltipLabel, labelPrefix, orEmpty; simpl.
    destruct label as [l|]; simpl; [destruct (decide (l = "")) as [->|]|]; reflexivity. }
  split; [exact Htrend|]. split; [|split].
  - unfold pieTooltipLabel, labelPrefix, orEmpty; simpl.
    destruct label as [l|]; simpl; [destruct (decide (l = "")) as [->|]|]; reflexivity.
  - intros q E -> H0 HE1 HE.
    assert (0 < q * 100)%Q as Hpos by (apply Qmult_lt_0_compat; [exact H0 | reflexivity]).
    destruct (binary64_near (q * 100) E Hpos HE1 ltac:(lia)) as (r & Hr & Hlo & Hhi).
    pose proof (binary64_nonneg _ _ Hpos Hr) as Hr0.
    assert (r < inject_Z (10 ^ 21))%Q as Hr21.
    { assert (2 ^ (E - 53) <= 2 ^ 15)%Q as A by (apply Qpower_le_compat_l; [lia | discriminate]).
      assert (2 ^ (E + 1) <= 2 ^ 69)%Q as B by (apply Qpower_le_compat_l; [lia | discriminate]).
      assert (2 ^ 69 + 2 ^ 15 < inject_Z (10 ^ 21))%Q as C by reflexivity.
      lra. }
    exists r. split; [exact Hr|]. split; [split; assumption|]. cbv zeta.
    split; [split; [apply Qfloor_le | apply Qlt_floor]|].
    rewrite Htrend. unfold hundred. cbn [JS.mul]. rewrite Hr.
    rewrite (JSFacts.toFixed_one big r).
    + now rewrite JSFacts.append_assoc.
    + apply Qle_bool_iff, Hr0.
    + destruct (Qle_bool (inject_Z (10 ^ 21)) r) eqn:C; [|reflexivity].
      apply Qle_bool_iff in C. exfalso. exact (Qle_not_lt _ _ C Hr21).
  - intros q -> Hq. rewrite Htrend. unfold hundred. cbn [JS.mul].
    assert (Qnum (q * 100) = 0%Z) as Hn.
    { unfold Qeq in Hq. simpl in *. lia. }
    unfold JS.binary64. rewrite Hn. reflexivity.
Qed.

(** C9 as stated fails on the distribution chart: a slice of value 0.5 is
    labelled 0.5%, not 50.0%. *)
Lemma pie_tooltip_not_scaled :
  pieTooltipLabel (fun _ => "") (TooltipContext None (Some "Positive") (Some (JS.Fin (1 # 2))) None ("", JS.NaN))
    = "Positive: 0.5%" /\
  labelPrefix (Some "Positive") ++ JS.toFixed (fun _ => "") 1 (JS.mul (JS.Fin (1 # 2)) hundred) ++ "%"
    = "Positive: 50.0%" /\
  ~ (forall big label other v p raw,
        pieTooltipLabel big (TooltipContext other label (Some v) p raw)
          = labelPrefix label ++ JS.toFixed big 1 (JS.mul v hundred) ++ "%").
Proof.
  split; [reflexivity | split; [vm_compute; reflexivity |]].
  intros H.
  specialize (H (fun _ => "") (Some "Positive") None (JS.Fin (1 # 2)) None ("", JS.NaN)).
  vm_compute in H. discriminate H.
Qed.

(** A trend value of 0.5 is labelled 50.0%. *)
Lemma tooltip_percent_labels_witness :
  (0 < 1 # 2)%Q /\ ((1 # 2) * 100 < 2 ^ (5 + 1))%Q /\
  trendTooltipLabel (fun _ => "")
    (TooltipContext (Some "Positive") None None (Some (JS.Fin (1 # 2))) ("", JS.NaN))
    = "Positive: 50.0%".
Proof.
  assert (0 < 1 # 2)%Q as H0 by reflexivity.
  assert ((1 # 2) * 100 < 2 ^ (5 + 1))%Q as HE by reflexivity.
  split; [exact H0|]. split; [exact HE|].
  destruct (proj1 (proj2 (proj2 (tooltip_percent_labels (fun _ => "") (Some "Positive") None
                                   (JS.Fin (1 # 2)) None ("", JS.NaN))))
                  (1 # 2) 5%Z eq_refl H0 HE ltac:(lia)) as (r & Hr & _ & _ & Hl).
  vm_compute in Hr. injection Hr as <-. exact Hl.
Defined.

(** The product is rounded before it is fixed: the Number that the literal
    0.0075 denotes lies below 0.0075, and a hundred times it, which lies
    below 0.75, is the Number 0.75; so the label is 0.8%, not 0.7%. *)
Lemma trend_tooltip_rounds_product :
  let v := 1080863910568919 # 144115188075855872 in
  JS.binary64 (75 # 10000) = JS.Fin v /\
  (v * 100 < 3 # 4)%Q /\
  JS.mul (JS.Fin v) hundred = JS.Fin (3 # 4) /\
  trendTooltipLabel (fun _ => "") (TooltipContext None None None (Some (JS.Fin v)) ("", JS.NaN))
    = "0.8%".
Proof. cbv zeta. split; [vm_compute; reflexivity|]. repeat split; vm_compute; reflexivity. Qed.

Lemma render_one_chart_per_canvas_witness :
  oneChartPerCanvas emptyWorld /\
  forall calls, oneChartPerCanvas (renderAll (fun _ => "") (fun t => t) calls emptyWorld).
Proof.
  assert (oneChartPerCanvas emptyWorld) as H by (intros c; vm_compute; lia).
  split; [exact H|].
  exact (proj2 (proj2 (render_one_chart_per_canvas (fun _ => "") (fun t => t) emptyWorld H))).
Defined.

(** Drawing twice on the same canvas leaves the second chart only. *)
Lemma render_twice :
  let w := renderAll (fun _ => "") (fun t => t)
             [PieChart "trend" (JS.Fin 50) (JS.Fin 30) (JS.Fin 20);
              EntityChart "trend" ["AAPL"] [JS.Fin (1 # 2)]] emptyWorld in
  (chartId <$> registry w) = [1%nat] /\ (type ∘ cfg <$> registry w) = [Bar].
Proof. split; reflexivity. Qed.

End ChartFacts.

(** ** Facts: button spinners *)

Module SpinnerFacts.
Import Spinner SpinnerProps Examples.

Lemma spinnerMarkup_nonempty : spinnerMarkup ≠ "".
Proof. discriminate. Qed.

Section Host.

Variable readBack : string -> string.

Lemma add_lookup (id : string) (disable : bool) (doc : document) (b : button) :
  doc !! id = Some b ->
  addButtonSpinner readBack id disable doc !! id
    = Some (Button (readBack spinnerMarkup) (<[snapshotKey := innerHTML b]> (attributes b))
                   (if disable then true else disabled b)).
Proof.
  intros H. unfold addButtonSpinner. rewrite H, lookup_insert_eq.
  destruct disable; reflexivity.
Qed.

Lemma remove_lookup (id : string) (enable : bool) (doc : document) (b : button) (t : string) :
  doc !! id = Some b ->
  attributes b !! snapshotKey = Some t ->
  t ≠ "" ->
  removeButtonSpinner readBack id enable doc !! id
    = Some (Button (readBack t) (attributes b) (if enable then false else disabled b)).
Proof.
  intros H Ht Hne. unfold removeButtonSpinner. rewrite H, lookup_insert_eq.
  fold snapshotKey. rewrite Ht. destruct (decide (t = "")); [contradiction|].
  destruct enable; reflexivity.
Qed.

(** One add followed by one remove: the button holds what its old markup
    reads back as. *)
Lemma add_remove_lookup (id : string) (disable : bool) (doc : document) (b : button) :
  doc !! id = Some b ->
  innerHTML b ≠ "" ->
  removeButtonSpinner readBack id true (addButtonSpinner readBack id disable doc) !! id
    = Some (Button (readBack (innerHTML b)) (<[snapshotKey := innerHTML b]> (attributes b)) false).
Proof.
  intros H Hne.
  rewrite (remove_lookup id true _ _ (innerHTML b) (add_lookup id disable doc b H));
    [reflexivity | apply lookup_insert_eq | exact Hne].
Qed.

Lemma rounds_markup (id : string) (n : nat) (doc : document) (b : button) :
  doc !! id = Some b ->
  innerHTML b ≠ "" ->
  readBack (innerHTML b) = innerHTML b ->
  innerHTML <$> (rounds readBack id n doc !! id) = Some (innerHTML b).
Proof.
  intros H Hne Hback. induction n as [|n IH]; simpl.
  - rewrite H. reflexivity.
  - destruct (rounds readBack id n doc !! id) as [b'|] eqn:E; [|discriminate].
    simpl in IH. injection IH as IH.
    rewrite (add_remove_lookup id true _ b' E) by congruence.
    simpl. congruence.
Qed.

(** C10, as amended.  For a button of the document whose inner markup is
    not empty and reads back as it is when it is assigned, as the spinner
    template does, one addButtonSpinner followed by removeButtonSpinner gives
    the original inner markup back and leaves the button enabled, whatever
    it was before; so do any number of such rounds.  Two adds in a row put
    the spinner markup in the snapshot, and the remove that follows leaves
    the spinner markup in the button. *)
Theorem button_spinner_round_trip (doc : document) (id : string) (b : button) :
  doc !! id = Some b ->
  innerHTML b ≠ "" ->
  readBack (innerHTML b) = innerHTML b ->
  readBack spinnerMarkup = spinnerMarkup ->
  (forall disable,
      removeButtonSpinner readBack id true (addButtonSpinner readBack id disable doc) !! id
        = Some (Button (innerHTML b) (<[snapshotKey := innerHTML b]> (attributes b)) false)) /\
  (forall n, innerHTML <$> (rounds readBack id n doc !! id) = Some (innerHTML b)) /\
  (forall d1 d2,
      (fun b' => attributes b' !! snapshotKey)
        <$> (addButtonSpinner readBack id d2 (addButtonSpinner readBack id d1 doc) !! id)
        = Some (Some spinnerMarkup)) /\
  (forall d1 d2 enable,
      innerHTML <$> (removeButtonSpinner readBack id enable
                       (addButtonSpinner readBack id d2 (addButtonSpinner readBack id d1 doc)) !! id)
        = Some spinnerMarkup).
Proof.
  intros H Hne Hback Hspin. split; [| split; [| split]].
  - intros disable. rewrite (add_remove_lookup id disable doc b H Hne), Hback. reflexivity.
  - intros n. apply rounds_markup; assumption.
  - intros d1 d2. erewrite add_lookup by (apply add_lookup, H). simpl.
    rewrite lookup_insert_eq, Hspin. reflexivity.
  - intros d1 d2 enable.
    rewrite (remove_lookup id enable _ _ spinnerMarkup
               (add_lookup id d2 _ _ (add_lookup id d1 doc b H)));
      [simpl; rewrite Hspin; reflexivity
      | simpl; rewrite lookup_insert_eq, Hspin; reflexivity
      | apply spinnerMarkup_nonempty].
Qed.

End Host.

Lemma button_spinner_round_trip_witness :
  ({[ "go" := goButton ]} : document) !! "go" = Some goButton /\
  innerHTML goButton ≠ "" /\
  forall n, innerHTML <$> (rounds verbatim "go" n {[ "go" := goButton ]} !! "go") = Some "Go".
Proof.
  assert (({[ "go" := goButton ]} : document) !! "go" = Some goButton) as H
      by (apply lookup_singleton_eq).
  assert (innerHTML goButton ≠ "") as Hne by discriminate.
  split; [exact H | split; [exact Hne |]].
  exact (proj1 (proj2 (button_spinner_round_trip verbatim _ "go" goButton H Hne eq_refl eq_refl))).
Defined.

(** C10 as stated fails on the enabled state: a button that was disabled
    before the spinner was added comes back enabled, whatever the host makes
    of the markup.  It also fails on the markup of a button whose content
    reads back differently when it is assigned: with a host that drops a
    line break after the start tag of a pre element, as the parser does, the
    line break is gone after add and remove. *)
Lemma disabled_button_comes_back_enabled :
  (forall readBack : string -> string,
     let doc : document := {[ "go" := Button "Go" ∅ true ]} in
     let doc' := removeButtonSpinner readBack "go" true (addButtonSpinner readBack "go" true doc) in
     disabled <$> (doc !! "go") = Some true /\
     disabled <$> (doc' !! "go") = Some false) /\
  (let doc : document := {[ "go" := preButton ]} in
   let doc' := removeButtonSpinner dropLineBreak "go" true
                 (addButtonSpinner dropLineBreak "go" true doc) in
   innerHTML <$> (doc' !! "go") = Some "<pre>Go</pre>" /\
   innerHTML <$> (doc' !! "go") ≠ innerHTML <$> (doc !! "go")) /\
  ~ (forall (readBack : string -> string) (doc : document) id b,
        doc !! id = Some b ->
        exists b', removeButtonSpinner readBack id true (addButtonSpinner readBack id true doc) !! id
                   = Some b' /\
                   innerHTML b' = innerHTML b /\ disabled b' = disabled b).
Proof.
  assert (forall b0, ({[ "go" := b0 ]} : document) !! "go" = Some b0) as H
      by (intros; apply lookup_singleton_eq).
  split; [|split].
  - intros readBack. cbv zeta.
    rewrite (add_remove_lookup readBack "go" true _ _ (H _)) by discriminate.
    rewrite H. split; reflexivity.
  - cbv zeta. rewrite (add_remove_lookup dropLineBreak "go" true _ _ (H _)) by discriminate.
    rewrite H. split; [reflexivity | discriminate].
  - intros C. destruct (C verbatim _ "go" _ (H (Button "Go" ∅ true))) as (b' & Hb & _ & Hd).
    rewrite (add_remove_lookup verbatim "go" true _ _ (H _)) in Hb by discriminate.
    injection Hb as <-. discriminate Hd.
Qed.

(** A button without inner markup keeps the spinner: the empty snapshot is
    taken for a missing one. *)
Lemma empty_button_keeps_spinner (readBack : string -> string) :
  let doc : document := {[ "go" := Button "" ∅ false ]} in
  innerHTML <$> (removeButtonSpinner readBack "go" true (addButtonSpinner readBack "go" true doc)
                   !! "go")
    = Some (readBack spinnerMarkup).
Proof.
  cbv zeta. unfold removeButtonSpinner.
  erewrite add_lookup by apply lookup_singleton_eq.
  rewrite lookup_insert_eq. simpl. rewrite lookup_insert_eq. reflexivity.
Qed.

End SpinnerFacts.

(** ** Facts: the query string *)

Module UrlFacts.
Import Url UrlProps JSFacts.

Lemma urlencode_cons_lacks (sep c : ascii) (s : string) :
  sep = "&"%char \/ sep = "="%char ->
  lacks sep (urlencode s) = true -> lacks sep (urlencode (String c s)) = true.
Proof. intros [-> | ->] H; each_byte c; simpl; exact H. Qed.

(** The serializer writes neither [&] nor [=]. *)
Lemma urlencode_lacks (sep : ascii) (s : string) :
  sep = "&"%char \/ sep = "="%char -> lacks sep (urlencode s) = true.
Proof.
  intros Hsep. induction s as [|c s IH]; [reflexivity|].
  apply urlencode_cons_lacks; assumption.
Qed.

Lemma decode_encode_cons (c : ascii) (s : string) :
  percentDecode (plusToSpace (urlencode (String c s)))
  = String c (percentDecode (plusToSpace (urlencode s))).
Proof. each_byte c; reflexivity. Qed.

(** Decoding undoes encoding. *)
Lemma decode_encode (s : string) : percentDecode (plusToSpace (urlencode s)) = s.
Proof.
  induction s as [|c s IH]; [reflexivity|].
  rewrite decode_encode_cons, IH. reflexivity.
Qed.

Lemma lacks_app (c : ascii) (a b : string) :
  lacks c (a ++ b) = lacks c a && lacks c b.
Proof.
  induction a as [|x a IH]; [reflexivity|].
  rewrite append_cons. simpl. rewrite IH. apply andb_assoc.
Qed.

Lemma splitOn_lacks (sep : ascii) (a : string) :
  lacks sep a = true -> splitOn sep a = [a].
Proof.
  induction a as [|c a IH]; simpl; [reflexivity|].
  intros H. apply andb_true_iff in H as [Hc Ha].
  apply negb_true_iff in Hc. rewrite Hc, (IH Ha). reflexivity.
Qed.

Lemma splitOn_app (sep : ascii) (a rest : string) :
  lacks sep a = true ->
  splitOn sep (a ++ String sep rest) = a :: splitOn sep rest.
Proof.
  induction a as [|c a IH]; intros H.
  - rewrite append_nil. simpl. rewrite Ascii.eqb_refl. reflexivity.
  - rewrite append_cons. simpl in *. apply andb_true_iff in H as [Hc Ha].
    apply negb_true_iff in Hc. rewrite Hc, (IH Ha). reflexivity.
Qed.

Lemma cutAtEquals_app (n v : string) :
  lacks "=" n = true -> cutAtEquals (n ++ String "=" v) = (n, v).
Proof.
  induction n as [|c n IH]; intros H; [reflexivity|].
  rewrite append_cons. simpl in *. apply andb_true_iff in H as [Hc Hn].
  apply negb_true_iff in Hc. rewrite Hc, (IH Hn). reflexivity.
Qed.

Lemma pairString_lacks (nv : string * string) : lacks "&" (pairString nv) = true.
Proof.
  unfold pairString. rewrite lacks_app. simpl.
  rewrite !urlencode_lacks by (left; reflexivity). reflexivity.
Qed.

Lemma pairString_nonempty (nv : string * string) : String.eqb (pairString nv) "" = false.
Proof.
  unfold pairString. destruct (urlencode (fst nv)); reflexivity.
Qed.

(** ** UTF-8 *)

Lemma inRange_spec (lo hi : nat) (c : ascii) :
  inRange lo hi c = true <-> (lo <= nat_of_ascii c <= hi)%nat.
Proof. unfold inRange. rewrite andb_true_iff, !Nat.leb_le. reflexivity. Qed.

Lemma inRange_false (lo hi lo' hi' : nat) (c : ascii) :
  inRange lo hi c = true -> (hi < lo' \/ hi' < lo)%nat -> inRange lo' hi' c = false.
Proof.
  intros H Hd. apply inRange_spec in H.
  destruct (inRange lo' hi' c) eqn:E; [|reflexivity]. apply inRange_spec in E. lia.
Qed.

(** Decoding leaves the UTF-8 form of a string as it is. *)
Lemma utf8Decode_wellFormed (s : string) : wellFormed s -> utf8Decode s = s.
Proof.
  induction 1 as [|b0 s H0 _ IH|b0 b1 s H0 H1 _ IH|b0 b1 b2 s H0 H1 H2 _ IH
                  |b0 b1 b2 b3 s H0 H1 H2 H3 _ IH]; cbn [utf8Decode]; cbv zeta.
  - reflexivity.
  - rewrite H0, IH. reflexivity.
  - assert ((nat_of_ascii b0 <=? 127)%nat = false) as ->
        by (apply inRange_spec in H0; apply Nat.leb_gt; lia).
    rewrite H0, H1, IH. reflexivity.
  - assert ((nat_of_ascii b0 <=? 127)%nat = false) as ->
        by (apply inRange_spec in H0; apply Nat.leb_gt; lia).
    rewrite (inRange_false _ _ 194 223 _ H0) by lia.
    rewrite H0, H1, H2, IH. reflexivity.
  - assert ((nat_of_ascii b0 <=? 127)%nat = false) as ->
        by (apply inRange_spec in H0; apply Nat.leb_gt; lia).
    rewrite (inRange_false _ _ 194 223 _ H0) by lia.
    rewrite (inRange_false _ _ 224 239 _ H0) by lia.
    rewrite H0, H1, H2, H3, IH. reflexivity.
Qed.

Lemma wellFormed_replacement (s : string) : wellFormed s -> wellFormed (replacement ++ s).
Proof. intros H. apply wf_three; [reflexivity .. | exact H]. Qed.

Ltac decoded IH :=
  repeat first
    [ apply wf_nil
    | solve [apply IH; simpl in *; lia]
    | apply wellFormed_replacement
    | match goal with
      | |- wellFormed (if ?c then _ else _) => destruct c eqn:?
      | |- wellFormed (match ?x with EmptyString => _ | String _ _ => _ end) => destruct x
      | |- wellFormed replacement => apply (wellFormed_replacement "")
      end
    | (apply wf_four; [assumption .. |])
    | (apply wf_three; [assumption .. |])
    | (apply wf_two; [assumption .. |])
    | (apply wf_one; [assumption |]) ].

(** What the decoder gives is the UTF-8 form of a string. *)
Lemma wellFormed_utf8Decode (s : string) : wellFormed (utf8Decode s).
Proof.
  assert (forall n s, (String.length s <= n)%nat -> wellFormed (utf8Decode s)) as H.
  { induction n as [|n IH]; intros s0 Hn.
    - destruct s0; [apply wf_nil | simpl in Hn; lia].
    - destruct s0 as [|b0 s1]; [apply wf_nil|]. cbn [utf8Decode]. cbv zeta.
      decoded IH. }
  apply (H (String.length s)). lia.
Qed.

Lemma utf8Decode_idempotent (s : string) : utf8Decode (utf8Decode s) = utf8Decode s.
Proof. apply utf8Decode_wellFormed, wellFormed_utf8Decode. Qed.

(** ** Reading back what was written *)

Lemma parse_pairString (nv : string * string) :
  wellFormed (fst nv) -> wellFormed (snd nv) ->
  (let '(n, v) := cutAtEquals (pairString nv) in
   [(utf8Decode (percentDecode (plusToSpace n)),
     utf8Decode (percentDecode (plusToSpace v)))]) = [nv].
Proof.
  intros Hn Hv.
  unfold pairString. rewrite cutAtEquals_app by (apply urlencode_lacks; right; reflexivity).
  rewrite !decode_encode, !utf8Decode_wellFormed by assumption. destruct nv; reflexivity.
Qed.

Lemma toString_cons (nv : string * string) (l : params) :
  toString (nv :: l)
  = match l with
    | [] => pairString nv
    | _ => pairString nv ++ String "&" (toString l)
    end.
Proof.
  destruct nv as [n v], l as [|nv' l]; unfold pairString; simpl; [reflexivity|].
  rewrite append_assoc. reflexivity.
Qed.

(** Parsing what [toString] wrote gives the pairs back. *)
Lemma parse_toString (l : params) : wellFormedPairs l -> parseUrlencoded (toString l) = l.
Proof.
  induction 1 as [|nv l [Hn Hv] _ IH]; [reflexivity|].
  rewrite toString_cons. unfold parseUrlencoded in *. destruct l as [|nv' l].
  - rewrite splitOn_lacks by apply pairString_lacks. simpl.
    rewrite pairString_nonempty, parse_pairString by assumption. reflexivity.
  - rewrite splitOn_app by apply pairString_lacks.
    change (flat_map ?f (?x :: ?xs)) with (f x ++ flat_map f xs)%list.
    rewrite IH, pairString_nonempty, parse_pairString by assumption. reflexivity.
Qed.

(** The parser gives pairs of strings. *)
Lemma parseUrlencoded_wellFormed (input : string) : wellFormedPairs (parseUrlencoded input).
Proof.
  unfold parseUrlencoded, wellFormedPairs.
  induction (splitOn "&" input) as [|sq sqs IH]; [constructor|].
  change (flat_map ?f (?x :: ?xs)) with (f x ++ flat_map f xs)%list.
  apply Forall_app. split; [|exact IH].
  destruct (String.eqb sq ""); [constructor|].
  destruct (cutAtEquals sq) as [n v]. constructor; [|constructor].
  split; apply wellFormed_utf8Decode.
Qed.

Lemma setPair_wellFormed (k v : string) (l : params) :
  wellFormed k -> wellFormed v -> wellFormedPairs l -> wellFormedPairs (setPair k v l).
Proof.
  intros Hk Hv. induction 1 as [|[n x] l [Hn Hx] Hl IH]; simpl.
  - constructor; [split; assumption | constructor].
  - destruct (String.eqb n k).
    + constructor; [split; assumption|]. apply Forall_forall. intros y Hy.
      apply list_elem_of_filter in Hy as [_ Hy]. exact (proj1 (Forall_forall _ _) Hl y Hy).
    + constructor; [split; assumption | exact IH].
Qed.

Lemma set_wellFormed (k v : string) (l : params) :
  wellFormedPairs l -> wellFormedPairs (set k v l).
Proof. apply setPair_wellFormed; apply wellFormed_utf8Decode. Qed.

Lemma filter_others_twice (k : string) (l : params) :
  filter (others k) (filter (others k) l) = filter (others k) l.
Proof.
  induction l as [|nv l IH]; [reflexivity|].
  rewrite filter_cons. case_decide as H; [|exact IH].
  rewrite filter_cons. case_decide; [|contradiction]. rewrite IH. reflexivity.
Qed.

Lemma filter_named_others (k : string) (l : params) :
  filter (named k) (filter (others k) l) = [].
Proof.
  induction l as [|nv l IH]; [reflexivity|].
  rewrite filter_cons. case_decide as H; [|exact IH].
  rewrite filter_cons. case_decide as H'; [|exact IH].
  rewrite H' in H. discriminate.
Qed.

(** [set] leaves the pairs of every other name as they were, in order. *)
Lemma set_others (k v : string) (l : params) :
  filter (others k) (setPair k v l) = filter (others k) l.
Proof.
  induction l as [|[n x] l IH]; simpl.
  - rewrite filter_cons; simpl. rewrite String.eqb_refl; reflexivity.
  - destruct (String.eqb n k) eqn:E.
    + rewrite !filter_cons; simpl. rewrite E; simpl. apply filter_others_twice.
    + rewrite !filter_cons; simpl. rewrite E; simpl. rewrite IH. reflexivity.
Qed.

(** After [set], exactly one pair has the name, with the new value. *)
Lemma set_named (k v : string) (l : params) :
  exists n, filter (named k) (setPair k v l) = [(n, v)] /\ String.eqb n k = true.
Proof.
  induction l as [|[n x] l IH]; simpl.
  - exists k. rewrite filter_cons; simpl. rewrite String.eqb_refl. split; reflexivity.
  - destruct (String.eqb n k) eqn:E.
    + exists n. rewrite filter_cons; simpl. rewrite E; simpl.
      rewrite (filter_named_others k l). split; reflexivity.
    + destruct IH as (n' & IH & En). exists n'.
      rewrite filter_cons; simpl. rewrite E; simpl. split; assumption.
Qed.

Lemma getAll_set (k v : string) (l : params) : getAll k (setPair k v l) = [v].
Proof.
  unfold getAll. destruct (set_named k v l) as (n & H & _).
  rewrite H. reflexivity.
Qed.

Lemma named_through_others (k k' : string) (m : params) :
  k' ≠ k -> filter (named k') m = filter (named k') (filter (others k) m).
Proof.
  intros Hne. induction m as [|nv m IH]; [reflexivity|].
  rewrite !filter_cons. case_decide as H1; case_decide as H2;
    rewrite ?filter_cons; repeat case_decide; try congruence.
  exfalso. apply String.eqb_eq in H1.
  apply H2. apply negb_true_iff, String.eqb_neq. congruence.
Qed.

Lemma getAll_set_other (k k' v : string) (l : params) :
  k' ≠ k -> getAll k' (setPair k v l) = getAll k' l.
Proof.
  intros Hne. unfold getAll. f_equal.
  rewrite (named_through_others k k' (setPair k v l)), (named_through_others k k' l) by assumption.
  rewrite set_others. reflexivity.
Qed.

End UrlFacts.

(** ** Facts: the document tree *)

Module DomFacts.
Import Dom Page Main DomProps.

(** Induction on a node with the hypothesis on every child. *)
Lemma node_induction (P : node -> Prop) :
  (forall s, P (Text s)) ->
  (forall e ks, Forall P ks -> P (Elem e ks)) ->
  forall n, P n.
Proof.
  intros HT HE. fix IH 1. intros [s|e ks]; [apply HT|].
  apply HE. induction ks as [|k ks IHks]; constructor; [apply IH | exact IHks].
Qed.

Lemma elemPaths_Elem (e : element) (ks : list node) :
  elemPaths (Elem e ks) = [] :: kidPaths 0 ks.
Proof.
  reflexivity.
Qed.

Lemma get_nil (d : node) : get d [] = Some d.
Proof. reflexivity. Qed.

Lemma get_cons (e : element) (ks : list node) (i : nat) (q : path) :
  get (Elem e ks) (i :: q) = k ← ks !! i; get k q.
Proof. simpl. destruct (ks !! i); reflexivity. Qed.

Lemma get_app (d : node) (p q : path) :
  get d (p ++ q) = n ← get d p; get n q.
Proof.
  revert d. induction p as [|i p IH]; intros d; [reflexivity|].
  destruct d as [s|e ks]; [reflexivity|].
  rewrite <- app_comm_cons, !get_cons. destruct (ks !! i) as [k|]; simpl; [apply IH | reflexivity].
Qed.

Lemma kidPaths_alter (h : node -> node) (i j : nat) (ks : list node) :
  (forall k, ks !! i = Some k -> elemPaths (h k) = elemPaths k) ->
  kidPaths j (alter h i ks) = kidPaths j ks.
Proof.
  revert i j. induction ks as [|k ks IH]; intros i j H; [reflexivity|].
  destruct i as [|i]; simpl.
  - rewrite (H k eq_refl). reflexivity.
  - f_equal. apply (IH i (S j)). intros k' Hk. apply H. exact Hk.
Qed.

Lemma subPaths_nil (d : node) : subPaths d [] = elemPaths d.
Proof. reflexivity. Qed.

Lemma subPaths_cons (e : element) (ks : list node) (i : nat) (q : path) :
  subPaths (Elem e ks) (i :: q)
  = match ks !! i with Some k => subPaths k q | None => [] end.
Proof. unfold subPaths. rewrite get_cons. destruct (ks !! i); reflexivity. Qed.

(** An update that keeps the element paths of every subtree of the node it
    rewrites keeps them in the whole tree. *)
Lemma subPaths_update (f : node -> node) (p : path) (d : node) :
  (forall n, get d p = Some n -> forall r, subPaths (f n) r = subPaths n r) ->
  forall q, subPaths (update p f d) q = subPaths d q.
Proof.
  revert d. induction p as [|i p IH]; intros d H q.
  - apply (H d eq_refl).
  - destruct d as [s|e ks]; [reflexivity|]. simpl update.
    assert (forall k, ks !! i = Some k -> forall r, subPaths (update p f k) r = subPaths k r) as Hk.
    { intros k Hk. apply IH. intros n Hn. apply H. rewrite get_cons, Hk. exact Hn. }
    destruct q as [|j q].
    + rewrite !subPaths_nil, !elemPaths_Elem. f_equal.
      apply kidPaths_alter. intros k Hki. apply (Hk k Hki []).
    + rewrite !subPaths_cons.
      destruct (decide (i = j)) as [<-|Hne].
      * rewrite list_lookup_alter_eq. destruct (ks !! i) as [k|] eqn:E; simpl; [|reflexivity].
        apply (Hk k eq_refl q).
      * rewrite list_lookup_alter_ne by exact Hne. reflexivity.
Qed.

Lemma elemAt_nil (d : node) : elemAt d [] = rootElem d.
Proof. destruct d; reflexivity. Qed.

Lemma elemAt_cons (e : element) (ks : list node) (i : nat) (q : path) :
  elemAt (Elem e ks) (i :: q) = k ← ks !! i; elemAt k q.
Proof. unfold elemAt. rewrite get_cons. destruct (ks !! i); reflexivity. Qed.

Lemma elemAt_Text (s : string) (q : path) : elemAt (Text s) q = None.
Proof. destruct q; reflexivity. Qed.

Lemma elemAt_app (d : node) (p q : path) :
  elemAt d (p ++ q) = n ← get d p; elemAt n q.
Proof. unfold elemAt. rewrite get_app. destruct (get d p); reflexivity. Qed.

Lemma get_update_eq (f : node -> node) (p : path) (d : node) :
  get (update p f d) p = f <$> get d p.
Proof.
  revert d. induction p as [|i p IH]; intros d; [reflexivity|].
  destruct d as [s|e ks]; [reflexivity|]. simpl update. rewrite !get_cons.
  rewrite list_lookup_alter_eq. destruct (ks !! i) as [k|]; simpl; [apply IH | reflexivity].
Qed.

(** The element seen at [q] after an update at [p] that leaves alone the
    elements strictly below [p]. *)
Lemma elemAt_update (f : node -> node) (p : path) (d : node) (q : path) :
  (forall n, get d p = Some n -> forall r, r ≠ [] -> elemAt (f n) r = elemAt n r) ->
  elemAt (update p f d) q
  = if decide (q = p) then n ← get d p; rootElem (f n) else elemAt d q.
Proof.
  revert d q. induction p as [|i p IH]; intros d q H.
  - simpl update. destruct (decide (q = [])) as [->|Hq].
    + simpl. apply elemAt_nil.
    + apply (H d eq_refl q Hq).
  - destruct d as [s|e ks].
    + simpl. rewrite elemAt_Text. case_decide; reflexivity.
    + simpl update. destruct q as [|j q].
      * case_decide; [discriminate | reflexivity].
      * rewrite !elemAt_cons, get_cons.
        destruct (decide (i = j)) as [<-|Hne].
        -- rewrite list_lookup_alter_eq. destruct (ks !! i) as [k|] eqn:E; simpl.
           ++ rewrite IH by (intros n Hn; apply H; rewrite get_cons, E; exact Hn).
              repeat case_decide; congruence.
           ++ case_decide; reflexivity.
        -- rewrite list_lookup_alter_ne by exact Hne.
           case_decide; [congruence | reflexivity].
Qed.

Lemma elemAt_onElem (g : element -> element) (n : node) (r : path) :
  r ≠ [] -> elemAt (onElem g n) r = elemAt n r.
Proof. destruct n as [s|e ks], r as [|i r]; intros Hr; try reflexivity; congruence. Qed.

Lemma elemAt_updElem (p : path) (g : element -> element) (d : node) (q : path) :
  elemAt (updElem p g d) q = if decide (q = p) then g <$> elemAt d q else elemAt d q.
Proof.
  unfold updElem. rewrite elemAt_update by (intros; apply elemAt_onElem; assumption).
  case_decide as Hq; [subst q | reflexivity].
  unfold elemAt. destruct (get d p) as [[s|e ks]|]; reflexivity.
Qed.

Lemma subPaths_onElem (g : element -> element) (n : node) (r : path) :
  subPaths (onElem g n) r = subPaths n r.
Proof. destruct n as [s|e ks], r as [|i r]; reflexivity. Qed.

Lemma subPaths_updElem (p : path) (g : element -> element) (d : node) (q : path) :
  subPaths (updElem p g d) q = subPaths d q.
Proof. apply subPaths_update. intros; apply subPaths_onElem. Qed.

Lemma descendants_subPaths (d : node) (p : path) :
  descendants d p = map (app p) (tail (subPaths d p)).
Proof. unfold descendants, subPaths. destruct (get d p); reflexivity. Qed.

(** ** Lookups depend on the element paths and on what matches *)

Lemma querySelectorAll_ext (d d' : node) (p : path) (sel : selector) :
  (forall q, subPaths d' q = subPaths d q) ->
  (forall q, matchesAt d' sel q = matchesAt d sel q) ->
  querySelectorAll d' p sel = querySelectorAll d p sel.
Proof.
  intros Hs Hm. unfold querySelectorAll. rewrite !descendants_subPaths, Hs.
  apply list_filter_iff. intros q. rewrite Hm. reflexivity.
Qed.

Lemma querySelector_ext (d d' : node) (p : path) (sel : selector) :
  (forall q, subPaths d' q = subPaths d q) ->
  (forall q, matchesAt d' sel q = matchesAt d sel q) ->
  querySelector d' p sel = querySelector d p sel.
Proof. intros Hs Hm. unfold querySelector. rewrite (querySelectorAll_ext d d'); auto. Qed.

Lemma closest_ext (d d' : node) (p : path) (sel : selector) :
  (forall q, matchesAt d' sel q = matchesAt d sel q) ->
  closest d' p sel = closest d p sel.
Proof.
  intros Hm. unfold closest. f_equal. apply list_filter_iff. intros q. rewrite Hm. reflexivity.
Qed.

(** ** What a lookup returns *)

Lemma matchesAt_elem (d : node) (sel : selector) (q : path) :
  matchesAt d sel q = true -> exists e, elemAt d q = Some e /\ matches sel e = true.
Proof. unfold matchesAt. destruct (elemAt d q) as [e|]; [eauto | discriminate]. Qed.

Lemma head_filter_Some {A} (P : A -> Prop) `{forall x, Decision (P x)} (l : list A) (x : A) :
  head (filter P l) = Some x -> x ∈ l /\ P x.
Proof.
  intros Hh. assert (x ∈ filter P l) as Hin.
  { destruct (filter P l) as [|y l']; [discriminate|]. injection Hh as ->. left. }
  apply list_elem_of_filter in Hin. tauto.
Qed.

Lemma head_filter_None {A} (P : A -> Prop) `{forall x, Decision (P x)} (l : list A) :
  head (filter P l) = None -> forall x, x ∈ l -> ~ P x.
Proof.
  intros Hh x Hin HP.
  assert (x ∈ filter P l) as Hf by (apply list_elem_of_filter; tauto).
  destruct (filter P l); [inversion Hf | discriminate].
Qed.

Lemma prefixes_spec (p q : path) : q ∈ prefixes p <-> exists r, p = (q ++ r)%list.
Proof.
  revert q. induction p as [|i p IH]; intros q; simpl.
  - rewrite list_elem_of_singleton. split.
    + intros ->. exists []. reflexivity.
    + intros [r Hr]. symmetry in Hr. apply app_eq_nil in Hr. tauto.
  - rewrite elem_of_cons, list_elem_of_fmap. split.
    + intros [-> | (q' & -> & Hq')]; [exists (i :: p); reflexivity|].
      apply IH in Hq' as [r ->]. exists r. reflexivity.
    + intros [r Hr]. destruct q as [|j q]; [left; reflexivity|].
      right. injection Hr as <- ->. exists q. split; [reflexivity|].
      apply IH. exists r. reflexivity.
Qed.

(** [closest] returns an inclusive ancestor that matches. *)
Lemma closest_Some (d : node) (p : path) (sel : selector) (q : path) :
  closest d p sel = Some q ->
  (exists r, p = (q ++ r)%list) /\ matchesAt d sel q = true.
Proof.
  unfold closest, inclusiveAncestors. intros H. apply head_filter_Some in H as [Hin Hm].
  split; [|exact Hm]. apply prefixes_spec. apply elem_of_reverse. exact Hin.
Qed.

(** [closest] is null only when no inclusive ancestor matches. *)
Lemma closest_None (d : node) (p : path) (sel : selector) (q r : path) :
  closest d p sel = None -> p = (q ++ r)%list -> matchesAt d sel q = false.
Proof.
  unfold closest, inclusiveAncestors. intros H Hp.
  destruct (matchesAt d sel q) eqn:E; [|reflexivity].
  exfalso. apply (head_filter_None _ _ H q); [|exact E].
  apply elem_of_reverse, prefixes_spec. eauto.
Qed.

Lemma kidPaths_nonempty (j : nat) (ks : list node) (q : path) :
  q ∈ kidPaths j ks -> q ≠ [].
Proof.
  revert j. induction ks as [|k ks IH]; intros j; simpl; [inversion 1|].
  rewrite elem_of_app, list_elem_of_fmap. intros [(q' & -> & _) | Hq]; [discriminate | eauto].
Qed.

Lemma subPaths_tail_nonempty (d : node) (p q : path) :
  q ∈ tail (subPaths d p) -> q ≠ [].
Proof.
  unfold subPaths. destruct (get d p) as [[s|e ks]|]; [inversion 1 | | inversion 1].
  rewrite elemPaths_Elem. simpl. apply kidPaths_nonempty.
Qed.

(** [querySelector] returns a matching element strictly below. *)
Lemma querySelector_Some (d : node) (p : path) (sel : selector) (q : path) :
  querySelector d p sel = Some q ->
  (exists r, q = (p ++ r)%list /\ r ≠ []) /\ matchesAt d sel q = true.
Proof.
  unfold querySelector, querySelectorAll. intros H. apply head_filter_Some in H as [Hin Hm].
  split; [|exact Hm]. rewrite descendants_subPaths in Hin.
  apply list_elem_of_fmap in Hin as (r & -> & Hr). exists r. split; [reflexivity|].
  apply (subPaths_tail_nonempty d p r Hr).
Qed.

(** ** Class tokens *)

Lemma contains_spec (c : string) (e : element) : contains c e = true <-> c ∈ classList e.
Proof. unfold contains. apply bool_decide_eq_true. Qed.

Lemma classList_classAdd (c c' : string) (e : element) :
  c' ∈ classList (classAdd c e) <-> c' = c \/ c' ∈ classList e.
Proof.
  unfold classAdd. destruct (contains c e) eqn:E.
  - apply contains_spec in E. split; [tauto | intros [-> | H]; assumption].
  - simpl. rewrite elem_of_app, list_elem_of_singleton. tauto.
Qed.

Lemma classList_classRemove (c c' : string) (e : element) :
  c' ∈ classList (classRemove c e) <-> c' ≠ c /\ c' ∈ classList e.
Proof. unfold classRemove; simpl. rewrite list_elem_of_filter. tauto. Qed.

Lemma contains_classAdd (c c' : string) (e : element) :
  contains c' (classAdd c e) = if decide (c' = c) then true else contains c' e.
Proof.
  apply eq_true_iff_eq. rewrite contains_spec, classList_classAdd.
  case_decide; [tauto|]. rewrite contains_spec. tauto.
Qed.

Lemma contains_classRemove (c c' : string) (e : element) :
  contains c' (classRemove c e) = if decide (c' = c) then false else contains c' e.
Proof.
  apply eq_true_iff_eq. rewrite contains_spec, classList_classRemove.
  case_decide; [split; [tauto | discriminate]|]. rewrite contains_spec. tauto.
Qed.

Lemma contains_classToggle (c c' : string) (e : element) :
  contains c' (classToggle c e) = if decide (c' = c) then negb (contains c e) else contains c' e.
Proof.
  unfold classToggle. destruct (contains c e) eqn:E.
  - rewrite contains_classRemove. case_decide; reflexivity.
  - rewrite contains_classAdd. case_decide; reflexivity.
Qed.

Lemma contains_setStyle (c prop v : string) (e : element) :
  contains c (setStyle prop v e) = contains c e.
Proof. reflexivity. Qed.

(** An element change that keeps the tag, the attributes and every class
    but [c] is not seen by a selector that does not mention [c]. *)
Lemma matches_class_change (c : string) (sel : selector) (e e' : element) :
  mentions c sel = false ->
  tagName e' = tagName e -> attrs e' = attrs e ->
  (forall c', c' ≠ c -> contains c' e' = contains c' e) ->
  matches sel e' = matches sel e.
Proof.
  intros Hm Ht Ha Hc. induction sel as [c'|t|i|s1 IH1 s2 IH2]; simpl in *.
  - apply bool_decide_eq_false in Hm. apply (Hc c' Hm).
  - rewrite Ht. reflexivity.
  - rewrite Ha. reflexivity.
  - apply orb_false_iff in Hm as [H1 H2]. rewrite IH1, IH2 by assumption. reflexivity.
Qed.

Lemma matches_classAdd (c : string) (sel : selector) (e : element) :
  mentions c sel = false -> matches sel (classAdd c e) = matches sel e.
Proof.
  intros Hm. apply (matches_class_change c); try assumption.
  - unfold classAdd. destruct (contains c e); reflexivity.
  - unfold classAdd. destruct (contains c e); reflexivity.
  - intros c' Hc. rewrite contains_classAdd. case_decide; [contradiction | reflexivity].
Qed.

Lemma matches_classRemove (c : string) (sel : selector) (e : element) :
  mentions c sel = false -> matches sel (classRemove c e) = matches sel e.
Proof.
  intros Hm. apply (matches_class_change c); try assumption; try reflexivity.
  intros c' Hc. rewrite contains_classRemove. case_decide; [contradiction | reflexivity].
Qed.

Lemma matches_classToggle (c : string) (sel : selector) (e : element) :
  mentions c sel = false -> matches sel (classToggle c e) = matches sel e.
Proof.
  intros Hm. unfold classToggle.
  destruct (contains c e); [apply matches_classRemove | apply matches_classAdd]; exact Hm.
Qed.

Lemma matches_setStyle (sel : selector) (prop v : string) (e : element) :
  matches sel (setStyle prop v e) = matches sel e.
Proof. induction sel as [| | |s1 IH1 s2 IH2]; simpl; try reflexivity. rewrite IH1, IH2. reflexivity. Qed.

(** A change of element records that selectors do not see is not seen by
    [matchesAt] either. *)
Lemma matchesAt_updElem (p : path) (g : element -> element) (d : node) (sel : selector) (q : path) :
  (forall e, matches sel (g e) = matches sel e) ->
  matchesAt (updElem p g d) sel q = matchesAt d sel q.
Proof.
  intros Hg. unfold matchesAt. rewrite elemAt_updElem.
  case_decide; [|reflexivity]. destruct (elemAt d q); simpl; [apply Hg | reflexivity].
Qed.

(** ** Elements that hold only text *)

Lemma kidPaths_nil (j : nat) (ks : list node) :
  kidPaths j ks = [] -> forall i k, ks !! i = Some k -> exists s, k = Text s.
Proof.
  revert j. induction ks as [|k ks IH]; intros j H i k' Hk; [discriminate|].
  simpl in H. apply app_eq_nil in H as [Hk0 Hks].
  destruct i as [|i]; simpl in Hk.
  - injection Hk as <-. destruct k as [s|e ks']; [eauto | discriminate].
  - apply (IH (S j) Hks i k' Hk).
Qed.

(** An element without descendant elements has only text nodes as
    children. *)
Lemma text_leaf (d : node) (p : path) (e : element) :
  elemAt d p = Some e -> descendants d p = [] ->
  exists ks, get d p = Some (Elem e ks) /\
             forall i k, ks !! i = Some k -> exists s, k = Text s.
Proof.
  unfold elemAt, descendants. destruct (get d p) as [[s|e' ks]|]; try discriminate.
  intros [= ->] H. exists ks. split; [reflexivity|].
  rewrite elemPaths_Elem in H. simpl in H. apply fmap_nil_inv in H.
  apply (kidPaths_nil 0 ks H).
Qed.

Lemma subPaths_Text (s : string) (r : path) : subPaths (Text s) r = [].
Proof. destruct r; reflexivity. Qed.

Lemma subPaths_text_kids (e : element) (ks : list node) (r : path) :
  (forall i k, ks !! i = Some k -> exists s, k = Text s) ->
  subPaths (Elem e ks) r = if decide (r = []) then [[]] else [].
Proof.
  intros H. destruct r as [|i r].
  - rewrite subPaths_nil, elemPaths_Elem. simpl. f_equal.
    assert (forall j, kidPaths j ks = []) as Hk; [|apply Hk].
    induction ks as [|k ks IH]; intros j; [reflexivity|]. simpl.
    destruct (H 0%nat k eq_refl) as [s ->]. simpl.
    apply IH. intros i k' Hk. apply (H (S i) k' Hk).
  - rewrite subPaths_cons. simpl. destruct (ks !! i) as [k|] eqn:E; [|reflexivity].
    destruct (H i k E) as [s ->]. apply subPaths_Text.
Qed.

Lemma elemAt_text_kids (e : element) (ks : list node) (r : path) :
  (forall i k, ks !! i = Some k -> exists s, k = Text s) ->
  r ≠ [] -> elemAt (Elem e ks) r = None.
Proof.
  intros H Hr. destruct r as [|i r]; [congruence|].
  rewrite elemAt_cons. destruct (ks !! i) as [k|] eqn:E; [|reflexivity].
  destruct (H i k E) as [s ->]. simpl. apply elemAt_Text.
Qed.

Lemma text_kids_of_text (s : string) :
  forall i k, (if decide (s = "") then [] else [Text s]) !! i = Some k -> exists s', k = Text s'.
Proof.
  intros i k. case_decide; [discriminate|].
  destruct i as [|i]; simpl; [intros [= <-]; eauto | discriminate].
Qed.

(** Writing the text of an element that holds only text changes no element
    path. *)
Lemma subPaths_setTextContent (p : path) (s : string) (d : node) (e : element) :
  elemAt d p = Some e -> descendants d p = [] ->
  forall q, subPaths (setTextContent p s d) q = subPaths d q.
Proof.
  intros He Hd. destruct (text_leaf d p e He Hd) as (ks & Hg & Hks).
  unfold setTextContent. apply subPaths_update. intros n Hn r.
  rewrite Hg in Hn. injection Hn as <-.
  rewrite !subPaths_text_kids by (assumption || apply text_kids_of_text). reflexivity.
Qed.

(** ... and no element. *)
Lemma elemAt_setTextContent (p : path) (s : string) (d : node) (e : element) :
  elemAt d p = Some e -> descendants d p = [] ->
  forall q, elemAt (setTextContent p s d) q = elemAt d q.
Proof.
  intros He Hd q. destruct (text_leaf d p e He Hd) as (ks & Hg & Hks).
  unfold setTextContent. rewrite elemAt_update.
  - case_decide as Hq; [subst q | reflexivity]. rewrite Hg, He. reflexivity.
  - intros n Hn r Hr. rewrite Hg in Hn. injection Hn as <-.
    rewrite !elemAt_text_kids by (assumption || apply text_kids_of_text). reflexivity.
Qed.

Lemma textContent_Elem (e : element) (ks : list node) :
  textContent (Elem e ks) = String.concat "" (map textContent ks).
Proof. reflexivity. Qed.

(** The text written is the text read back. *)
Lemma textAt_setTextContent (p : path) (s : string) (d : node) (e : element) :
  elemAt d p = Some e -> textAt (setTextContent p s d) p = s.
Proof.
  intros He. unfold textAt, setTextContent. rewrite get_update_eq.
  unfold elemAt in He. destruct (get d p) as [[s'|e' ks]|]; try discriminate.
  simpl. case_decide as Hs; [subst s|]; reflexivity.
Qed.

Lemma textAt_nil (d : node) : textAt d [] = textContent d.
Proof. reflexivity. Qed.

Lemma textAt_cons (e : element) (ks : list node) (i : nat) (q : path) :
  textAt (Elem e ks) (i :: q) = match ks !! i with Some k => textAt k q | None => "" end.
Proof. unfold textAt. rewrite get_cons. destruct (ks !! i); reflexivity. Qed.

Lemma map_alter_same {A B} (o : A -> B) (h : A -> A) (i : nat) (l : list A) :
  (forall k, l !! i = Some k -> o (h k) = o k) ->
  map o (alter h i l) = map o l.
Proof.
  revert i. induction l as [|x l IH]; intros i H; [reflexivity|].
  destruct i as [|i]; simpl.
  - rewrite (H x eq_refl). reflexivity.
  - f_equal. apply IH. intros k Hk. apply (H k Hk).
Qed.

(** An update that keeps the text of every subtree of the node it rewrites
    keeps all texts. *)
Lemma textAt_update (f : node -> node) (p : path) (d : node) :
  (forall n, get d p = Some n -> forall r, textAt (f n) r = textAt n r) ->
  forall q, textAt (update p f d) q = textAt d q.
Proof.
  revert d. induction p as [|i p IH]; intros d H q.
  - apply (H d eq_refl).
  - destruct d as [s|e ks]; [reflexivity|]. simpl update.
    assert (forall k, ks !! i = Some k -> forall r, textAt (update p f k) r = textAt k r) as Hk.
    { intros k Hk. apply IH. intros n Hn. apply H. rewrite get_cons, Hk. exact Hn. }
    destruct q as [|j q].
    + rewrite !textAt_nil, !textContent_Elem. f_equal.
      apply map_alter_same. intros k Hki. apply (Hk k Hki []).
    + rewrite !textAt_cons.
      destruct (decide (i = j)) as [<-|Hne].
      * rewrite list_lookup_alter_eq. destruct (ks !! i) as [k|] eqn:E; simpl; [|reflexivity].
        apply (Hk k eq_refl q).
      * rewrite list_lookup_alter_ne by exact Hne. reflexivity.
Qed.

Lemma textAt_updElem (p : path) (g : element -> element) (d : node) (q : path) :
  textAt (updElem p g d) q = textAt d q.
Proof.
  apply textAt_update. intros n _ r. destruct n as [s|e ks], r as [|i r]; reflexivity.
Qed.

(** ** Documents that differ in one class and in text *)

Lemma sameBut_refl (c : string) (e : element) : sameBut c e e.
Proof. repeat split. Qed.

Lemma sameBut_trans (c : string) (e1 e2 e3 : element) :
  sameBut c e1 e2 -> sameBut c e2 e3 -> sameBut c e1 e3.
Proof.
  intros (Ht & Ha & Hv & Hc) (Ht' & Ha' & Hv' & Hc'). repeat split; try congruence.
  intros c' Hne. rewrite Hc', Hc by assumption. reflexivity.
Qed.

Lemma inert_refl (c : string) (d : node) : inert c d d.
Proof.
  split; [reflexivity|]. intros q. destruct (elemAt d q); constructor. apply sameBut_refl.
Qed.

Lemma inert_trans (c : string) (d1 d2 d3 : node) :
  inert c d1 d2 -> inert c d2 d3 -> inert c d1 d3.
Proof.
  intros [Hs He] [Hs' He']. split.
  - intros q. rewrite Hs', Hs. reflexivity.
  - intros q. specialize (He q). specialize (He' q).
    destruct He as [e1 e2 H12|]; inversion He' as [e2' e3 H23|]; subst; constructor.
    eapply sameBut_trans; eassumption.
Qed.

Lemma inert_updElem (c : string) (p : path) (g : element -> element) (d : node) :
  (forall e, sameBut c e (g e)) -> inert c d (updElem p g d).
Proof.
  intros Hg. split; [apply subPaths_updElem|].
  intros q. rewrite elemAt_updElem. case_decide; destruct (elemAt d q); constructor;
    [apply Hg | apply sameBut_refl].
Qed.

Lemma inert_setTextContent (c : string) (p : path) (s : string) (d : node) (e : element) :
  elemAt d p = Some e -> descendants d p = [] -> inert c d (setTextContent p s d).
Proof.
  intros He Hd. split; [apply (subPaths_setTextContent p s d e He Hd)|].
  intros q. rewrite (elemAt_setTextContent p s d e He Hd).
  destruct (elemAt d q); constructor. apply sameBut_refl.
Qed.

Lemma sameBut_classAdd (c : string) (e : element) : sameBut c e (classAdd c e).
Proof.
  repeat split; try (unfold classAdd; destruct (contains c e); reflexivity).
  intros c' Hne. rewrite contains_classAdd. case_decide; [contradiction | reflexivity].
Qed.

Lemma sameBut_classRemove (c : string) (e : element) : sameBut c e (classRemove c e).
Proof.
  repeat split. intros c' Hne. rewrite contains_classRemove.
  case_decide; [contradiction | reflexivity].
Qed.

Lemma sameBut_classToggle (c : string) (e : element) : sameBut c e (classToggle c e).
Proof.
  unfold classToggle. destruct (contains c e); [apply sameBut_classRemove | apply sameBut_classAdd].
Qed.

Lemma sameBut_setStyle (c prop v : string) (e : element) : sameBut c e (setStyle prop v e).
Proof. repeat split. Qed.

Lemma sameBut_matches (c : string) (sel : selector) (e e' : element) :
  sameBut c e e' -> mentions c sel = false -> matches sel e' = matches sel e.
Proof. intros (Ht & Ha & _ & Hc) Hm. apply (matches_class_change c); assumption. Qed.

Section Inert.

Variables (c : string) (d d' : node).
Hypothesis H : inert c d d'.

Lemma inert_elemAt_Some (q : path) : is_Some (elemAt d' q) <-> is_Some (elemAt d q).
Proof.
  destruct H as [_ He]. specialize (He q).
  destruct He; split; intros [? ?]; try discriminate; eauto.
Qed.

Lemma inert_matchesAt (sel : selector) (q : path) :
  mentions c sel = false -> matchesAt d' sel q = matchesAt d sel q.
Proof.
  intros Hm. destruct H as [_ He]. specialize (He q). unfold matchesAt.
  destruct He as [e e' Hee|]; [|reflexivity]. apply (sameBut_matches c); assumption.
Qed.

Lemma inert_hasClass (q : path) (c' : string) :
  c' ≠ c -> hasClass d' q c' = hasClass d q c'.
Proof.
  intros Hne. destruct H as [_ He]. specialize (He q). unfold hasClass.
  destruct He as [e e' (_ & _ & _ & Hc)|]; [|reflexivity]. apply Hc, Hne.
Qed.

Lemma inert_datasetAt (q : path) (key : string) :
  datasetAt d' q key = datasetAt d q key.
Proof.
  destruct H as [_ He]. specialize (He q). unfold datasetAt.
  destruct He as [e e' (_ & Ha & _)|]; [|reflexivity]. simpl. unfold dataset. rewrite Ha. reflexivity.
Qed.

Lemma inert_descendants (q : path) : descendants d' q = descendants d q.
Proof. destruct H as [Hs _]. rewrite !descendants_subPaths, Hs. reflexivity. Qed.

Lemma inert_closest (p : path) (sel : selector) :
  mentions c sel = false -> closest d' p sel = closest d p sel.
Proof. intros Hm. apply closest_ext. intros q. apply inert_matchesAt, Hm. Qed.

Lemma inert_querySelectorAll (p : path) (sel : selector) :
  mentions c sel = false -> querySelectorAll d' p sel = querySelectorAll d p sel.
Proof.
  intros Hm. apply querySelectorAll_ext; [apply H|]. intros q. apply inert_matchesAt, Hm.
Qed.

Lemma inert_querySelector (p : path) (sel : selector) :
  mentions c sel = false -> querySelector d' p sel = querySelector d p sel.
Proof. intros Hm. unfold querySelector. rewrite inert_querySelectorAll by exact Hm. reflexivity. Qed.

End Inert.

(** ** Classes and styles at a path *)

Lemma hasClass_updElem (p : path) (g : element -> element) (d : node) (q : path) (c : string) :
  hasClass (updElem p g d) q c
  = if decide (q = p)
    then match elemAt d q with Some e => contains c (g e) | None => false end
    else hasClass d q c.
Proof.
  unfold hasClass. rewrite elemAt_updElem. case_decide; [|reflexivity].
  destruct (elemAt d q); reflexivity.
Qed.

Lemma descendants_updElem (p : path) (g : element -> element) (d : node) (q : path) :
  descendants (updElem p g d) q = descendants d q.
Proof. rewrite !descendants_subPaths, subPaths_updElem. reflexivity. Qed.

Lemma elemAt_updElem_Some (p : path) (g : element -> element) (d : node) (q : path) :
  is_Some (elemAt d q) -> is_Some (elemAt (updElem p g d) q).
Proof.
  intros [e He]. rewrite elemAt_updElem, He. case_decide; simpl; eauto.
Qed.

Lemma matchesAt_class (d : node) (c : string) (q : path) :
  matchesAt d (SelClass c) q = hasClass d q c.
Proof. unfold matchesAt, hasClass. destruct (elemAt d q); reflexivity. Qed.

Lemma styleAt_updElem_setStyle (p : path) (prop v : string) (d : node) (e : element) :
  elemAt d p = Some e -> v ≠ "" ->
  styleAt (updElem p (setStyle prop v) d) p prop = v.
Proof.
  intros He Hv. unfold styleAt. rewrite elemAt_updElem, decide_True, He by reflexivity.
  simpl. unfold styleOf, setStyle; simpl. rewrite decide_False by exact Hv.
  rewrite lookup_insert_eq. reflexivity.
Qed.

(** ** Counting the elements that match *)

Lemma matchesAt_nil (e : element) (ks : list node) (sel : selector) :
  matchesAt (Elem e ks) sel [] = matches sel e.
Proof. reflexivity. Qed.

Lemma matchesAt_cons (e : element) (ks : list node) (sel : selector) (i : nat) (q : path) :
  matchesAt (Elem e ks) sel (i :: q)
  = match ks !! i with Some k => matchesAt k sel q | None => false end.
Proof. unfold matchesAt. rewrite elemAt_cons. destruct (ks !! i); reflexivity. Qed.

Lemma matchesAt_app (d : node) (sel : selector) (p q : path) (n : node) :
  get d p = Some n -> matchesAt d sel (p ++ q) = matchesAt n sel q.
Proof. intros H. unfold matchesAt. rewrite elemAt_app, H. reflexivity. Qed.

Lemma length_filter_fmap {A B} (f : A -> B) (P : B -> Prop) `{forall x, Decision (P x)}
    (l : list A) :
  length (filter P (f <$> l)) = length (filter (P ∘ f) l).
Proof.
  induction l as [|x l IH]; [reflexivity|].
  rewrite fmap_cons, !filter_cons. simpl.
  destruct (decide (P (f x))); simpl; rewrite IH; reflexivity.
Qed.

Lemma filter_ext_in {A} (P Q : A -> Prop) `{forall x, Decision (P x)} `{forall x, Decision (Q x)}
    (l : list A) :
  (forall x, x ∈ l -> (P x <-> Q x)) -> filter P l = filter Q l.
Proof.
  induction l as [|x l IH]; intros Hl; [reflexivity|].
  rewrite !filter_cons.
  assert (filter P l = filter Q l) as -> by (apply IH; intros y Hy; apply Hl; right; exact Hy).
  pose proof (Hl x ltac:(left)) as Hx.
  destruct (decide (P x)), (decide (Q x)); tauto || reflexivity.
Qed.

Lemma count_kidPaths (sel : selector) (e : element) (ks pre : list node) :
  Forall (fun k => length (filter (fun q => matchesAt k sel q = true) (elemPaths k))
                   = countSel sel k) ks ->
  length (filter (fun q => matchesAt (Elem e (pre ++ ks)) sel q = true)
                 (kidPaths (length pre) ks))
  = sum_list (map (countSel sel) ks).
Proof.
  intros Hks. revert pre. induction Hks as [|k ks Hk _ IH]; intros pre; [reflexivity|].
  simpl kidPaths. rewrite filter_app, length_app, length_filter_fmap. simpl map. simpl sum_list.
  f_equal.
  - rewrite <- Hk. f_equal. apply list_filter_iff. intros q. simpl.
    rewrite matchesAt_cons, list_lookup_middle by reflexivity. reflexivity.
  - specialize (IH (pre ++ [k])%list).
    rewrite <- app_assoc, length_app, Nat.add_1_r in IH. exact IH.
Qed.

(** The matching paths of a node are counted by [countSel]. *)
Lemma count_elemPaths (sel : selector) (n : node) :
  length (filter (fun q => matchesAt n sel q = true) (elemPaths n)) = countSel sel n.
Proof.
  induction n as [s|e ks IH] using node_induction; [reflexivity|].
  rewrite elemPaths_Elem, filter_cons, matchesAt_nil. simpl countSel.
  pose proof (count_kidPaths sel e ks [] IH) as Hk. simpl in Hk.
  destruct (matches sel e); case_decide; try congruence; simpl; rewrite Hk; reflexivity.
Qed.

(** What [querySelectorAll] finds below an element is what its children
    hold. *)
Lemma count_querySelectorAll (d : node) (c : path) (sel : selector)
    (e : element) (ks : list node) :
  get d c = Some (Elem e ks) ->
  length (querySelectorAll d c sel) = sum_list (map (countSel sel) ks).
Proof.
  intros Hg. unfold querySelectorAll, descendants. rewrite Hg, elemPaths_Elem. simpl tail.
  rewrite length_filter_fmap.
  rewrite <- (count_kidPaths sel e ks []) by (apply Forall_forall; intros; apply count_elemPaths).
  f_equal. apply list_filter_iff. intros q. simpl.
  rewrite (matchesAt_app d sel c q _ Hg). reflexivity.
Qed.

(** ** Inserting a sibling *)

Lemma insertAfter_snoc (b : path) (i : nat) (new d : node) :
  insertAfter (b ++ [i]) new d = update b (insKid i new) d.
Proof.
  unfold insertAfter. rewrite reverse_snoc, reverse_involutive. reflexivity.
Qed.

Lemma nextSibling_snoc (b : path) (i : nat) : nextSibling (b ++ [i]) = Some (b ++ [S i])%list.
Proof. unfold nextSibling. rewrite reverse_snoc, reverse_involutive. reflexivity. Qed.

Lemma get_update_prefix (f : node -> node) (q s : path) (d : node) :
  get (update (q ++ s) f d) q = update s f <$> get d q.
Proof.
  revert d. induction q as [|j q IH]; intros d; [reflexivity|].
  destruct d as [t|e ks]; [reflexivity|].
  rewrite <- app_comm_cons. simpl update. rewrite !get_cons, list_lookup_alter_eq.
  destruct (ks !! j) as [k|]; simpl; [apply IH | reflexivity].
Qed.

Lemma get_update_below (f : node -> node) (b t : path) (d : node) :
  get (update b f d) (b ++ t) = n ← get d b; get (f n) t.
Proof. rewrite get_app, get_update_eq. destruct (get d b); reflexivity. Qed.

Lemma rootElem_update_insKid (i : nat) (new : node) (s : path) (n : node) :
  rootElem (update s (insKid i new) n) = rootElem n.
Proof. destruct s as [|j s], n as [t|e ks]; reflexivity. Qed.

Lemma elemAt_rootElem (d : node) (q : path) : elemAt d q = n ← get d q; rootElem n.
Proof. unfold elemAt. destruct (get d q) as [[t|e ks]|]; reflexivity. Qed.

(** The insertion does not touch the ancestors of the insertion point... *)
Lemma elemAt_insert_above (i : nat) (new : node) (q s : path) (d : node) :
  elemAt (update (q ++ s) (insKid i new) d) q = elemAt d q.
Proof.
  rewrite !elemAt_rootElem, get_update_prefix.
  destruct (get d q) as [n|]; simpl; [|reflexivity].
  apply rootElem_update_insKid.
Qed.

Lemma child_of_elemAt (d : node) (b : path) (i : nat) (x : element) :
  elemAt d (b ++ [i]) = Some x ->
  exists e ks k, get d b = Some (Elem e ks) /\ ks !! i = Some k.
Proof.
  unfold elemAt. rewrite get_app. destruct (get d b) as [[t|e ks]|]; simpl; try discriminate.
  destruct (ks !! i) as [k|] eqn:E; [|discriminate]. eauto.
Qed.

(** ... nor the element it is put after, nor anything below that one. *)
Lemma get_insert_at (i : nat) (new : node) (b t : path) (d : node) (x : element) :
  elemAt d (b ++ [i]) = Some x ->
  get (update b (insKid i new) d) (b ++ i :: t) = get d (b ++ i :: t).
Proof.
  intros Hx. destruct (child_of_elemAt d b i x Hx) as (e & ks & k & Hb & Hk).
  rewrite get_update_below, get_app, Hb. simpl insKid. simpl.
  rewrite lookup_app_l by (rewrite length_take; apply lookup_lt_Some in Hk; lia).
  rewrite lookup_take_lt by lia. reflexivity.
Qed.

(** The new node is the next sibling. *)
Lemma get_insert_new (i : nat) (new : node) (b : path) (d : node) (x : element) :
  elemAt d (b ++ [i]) = Some x ->
  get (update b (insKid i new) d) (b ++ [S i]) = Some new.
Proof.
  intros Hx. destruct (child_of_elemAt d b i x Hx) as (e & ks & k & Hb & Hk).
  rewrite get_update_below, Hb. simpl insKid. simpl.
  apply lookup_lt_Some in Hk.
  rewrite lookup_app_r by (rewrite length_take; lia).
  rewrite length_take. replace (S i - S i `min` length ks)%nat with 0%nat by lia. reflexivity.
Qed.

Lemma sum_list_append (l1 l2 : list nat) : sum_list (l1 ++ l2) = (sum_list l1 + sum_list l2)%nat.
Proof. induction l1 as [|x l1 IH]; simpl; [reflexivity | rewrite IH; lia]. Qed.

Lemma countSel_insKid (sel : selector) (i : nat) (new : node) (e : element) (ks : list node) :
  countSel sel (insKid i new (Elem e ks)) = (countSel sel (Elem e ks) + countSel sel new)%nat.
Proof.
  simpl. rewrite <- (take_drop (S i) ks) at 3.
  rewrite !map_app, !sum_list_append. simpl. lia.
Qed.

Lemma sum_alter {A} (o : A -> nat) (h : A -> A) (j : nat) (l : list A) (k : A) :
  l !! j = Some k ->
  (sum_list (map o (alter h j l)) + o k = sum_list (map o l) + o (h k))%nat.
Proof.
  revert j. induction l as [|x l IH]; intros j Hj; [discriminate|].
  destruct j as [|j]; simpl in *.
  - injection Hj as ->. lia.
  - specialize (IH j Hj). change (list_alter h j l) with (alter h j l). lia.
Qed.

(** Inserting below an element of [n] adds what the new node holds. *)
Lemma countSel_insert (sel : selector) (i : nat) (new : node) (r : path) (n : node) :
  is_Some (elemAt n r) ->
  countSel sel (update r (insKid i new) n) = (countSel sel n + countSel sel new)%nat.
Proof.
  revert n. induction r as [|j r IH]; intros n [x Hx].
  - destruct n as [t|e ks]; [discriminate|]. apply countSel_insKid.
  - destruct n as [t|e ks]; [discriminate|].
    rewrite elemAt_cons in Hx. destruct (ks !! j) as [k|] eqn:E; [|discriminate].
    simpl in Hx. simpl update. simpl countSel.
    pose proof (sum_alter (countSel sel) (update r (insKid i new)) j ks k E) as Hs.
    rewrite (IH k) in Hs by eauto. lia.
Qed.

(** The count below an ancestor [c] of the insertion point grows by what
    the new node holds. *)
Lemma count_querySelectorAll_insert (sel : selector) (i : nat) (new : node)
    (c r : path) (d : node) (x : element) :
  elemAt d (c ++ r) = Some x ->
  length (querySelectorAll (update (c ++ r) (insKid i new) d) c sel)
  = (length (querySelectorAll d c sel) + countSel sel new)%nat.
Proof.
  intros Hx. rewrite elemAt_app in Hx.
  destruct (get d c) as [n|] eqn:Hc; [|discriminate]. simpl in Hx.
  destruct n as [t|e ks]; [rewrite elemAt_Text in Hx; discriminate|].
  pose proof (countSel_insert sel i new r (Elem e ks) (ex_intro _ x Hx)) as Hcount.
  assert (exists ks', update r (insKid i new) (Elem e ks) = Elem e ks') as [ks' Hks']
      by (destruct r; simpl; eauto).
  rewrite (count_querySelectorAll d c sel e ks Hc).
  rewrite (count_querySelectorAll _ c sel e ks')
    by (rewrite get_update_prefix, Hc; simpl; rewrite Hks'; reflexivity).
  rewrite Hks' in Hcount. simpl in Hcount. lia.
Qed.

(** ** Every element is listed in tree order *)

Lemma in_kidPaths (o m : nat) (ks : list node) (k : node) (q : path) :
  ks !! m = Some k -> q ∈ elemPaths k -> ((o + m)%nat :: q) ∈ kidPaths o ks.
Proof.
  revert o m. induction ks as [|k0 ks IH]; intros o m Hk Hq; [discriminate|].
  simpl kidPaths. apply elem_of_app. destruct m as [|m]; simpl in Hk.
  - injection Hk as ->. left. rewrite Nat.add_0_r. apply list_elem_of_fmap. eauto.
  - right. replace (o + S m)%nat with (S o + m)%nat by lia. apply IH; assumption.
Qed.

Lemma in_elemPaths (n : node) (q : path) : is_Some (elemAt n q) -> q ∈ elemPaths n.
Proof.
  revert n. induction q as [|j q IH]; intros n [x Hx].
  - destruct n as [t|e ks]; [discriminate|]. rewrite elemPaths_Elem. left.
  - destruct n as [t|e ks]; [discriminate|]. rewrite elemAt_cons in Hx.
    destruct (ks !! j) as [k|] eqn:E; [|discriminate]. simpl in Hx.
    rewrite elemPaths_Elem. right.
    apply (in_kidPaths 0 j ks k q E). apply IH. eauto.
Qed.

Lemma in_descendants (d : node) (c r : path) :
  is_Some (elemAt d (c ++ r)) -> r ≠ [] -> (c ++ r)%list ∈ descendants d c.
Proof.
  intros [x Hx] Hr. rewrite elemAt_app in Hx. unfold descendants.
  destruct (get d c) as [n|]; [|discriminate]. simpl in Hx.
  apply list_elem_of_fmap. exists r. split; [reflexivity|].
  pose proof (in_elemPaths n r (ex_intro _ x Hx)) as Hin.
  destruct n as [t|e ks]; [inversion Hin|].
  rewrite elemPaths_Elem in *. simpl tail.
  apply elem_of_cons in Hin as [-> | Hin]; [congruence | exact Hin].
Qed.

Lemma closest_ext_prefixes (d d' : node) (p : path) (sel : selector) :
  (forall q, q ∈ prefixes p -> matchesAt d' sel q = matchesAt d sel q) ->
  closest d' p sel = closest d p sel.
Proof.
  intros Hm. unfold closest, inclusiveAncestors. f_equal. apply filter_ext_in.
  intros q Hq. apply (proj1 (elem_of_reverse _ _)) in Hq. rewrite (Hm q Hq). reflexivity.
Qed.

Lemma prefix_split (b : path) (i : nat) (t q : path) :
  q ∈ prefixes (b ++ i :: t) ->
  (exists s, b = (q ++ s)%list) \/ (exists t', q = (b ++ i :: t')%list).
Proof.
  rewrite prefixes_spec. intros [r Hr]. revert q Hr.
  induction b as [|x b IH]; intros q Hr.
  - destruct q as [|y q]; [left; exists []; reflexivity|].
    right. simpl in Hr. injection Hr as <- _. exists q. reflexivity.
  - destruct q as [|y q]; [left; exists (x :: b); reflexivity|].
    simpl in Hr. injection Hr as <- Hr.
    destruct (IH q Hr) as [[s ->] | [t' ->]]; [left; exists s | right; exists t']; reflexivity.
Qed.

(** The insertion is not seen from the element it follows, from anything
    below that element, or from their ancestors. *)
Lemma elemAt_insert_frame (i : nat) (new : node) (b t q : path) (d : node) (x : element) :
  elemAt d (b ++ [i]) = Some x ->
  q ∈ prefixes (b ++ i :: t) ->
  elemAt (update b (insKid i new) d) q = elemAt d q.
Proof.
  intros Hx Hq. destruct (prefix_split b i t q Hq) as [[s ->] | [t' ->]].
  - apply elemAt_insert_above.
  - unfold elemAt. rewrite (get_insert_at i new b t' d x Hx). reflexivity.
Qed.

End DomFacts.

(** ** Facts: vote buttons *)

Module VoteFacts.
Import Dom Page Main DomProps DomFacts VoteProps Examples Binary64Facts.

Section Host.

Variable big : Q -> string.

(** The document after a click that finds its container and its counter. *)
Lemma vote_click_dom (pg : page) (this parentEl voteCountEl : path) :
  closest (dom pg) this postOrComment = Some parentEl ->
  querySelector (dom pg) parentEl (SelClass "vote-count") = Some voteCountEl ->
  let d := dom pg in
  let sib := siblingOf d parentEl this in
  let d1 := updElem this (classAdd "active") d in
  dom (voteButtonClick big pg this)
  = setTextContent voteCountEl
      (JS.toString big
         (addTo (JS.parseInt (textAt d voteCountEl))
                (voteDelta (hasClass d this "upvote") (hasClass d this "active")
                           (siblingActive d1 sib))))
      (classStep d this sib).
Proof.
  intros Hc Hq. cbv zeta. unfold voteButtonClick, classStep, siblingOf, voteDelta, siblingActive.
  simpl dom. rewrite Hc, Hq.
  destruct (hasClass (dom pg) this "active"); [reflexivity|].
  destruct (hasClass (dom pg) this "upvote").
  - destruct (querySelector (dom pg) parentEl (SelClass "downvote")) as [s|]; [|reflexivity].
    destruct (hasClass _ s "active"); reflexivity.
  - destruct (querySelector (dom pg) parentEl (SelClass "upvote")) as [s|]; [|reflexivity].
    destruct (hasClass _ s "active"); reflexivity.
Qed.

(** A click that finds no container or no counter changes nothing. *)
Lemma vote_click_noop (pg : page) (this : path) :
  (closest (dom pg) this postOrComment = None \/
   exists parentEl, closest (dom pg) this postOrComment = Some parentEl /\
                    querySelector (dom pg) parentEl (SelClass "vote-count") = None) ->
  dom (voteButtonClick big pg this) = dom pg.
Proof.
  unfold voteButtonClick. simpl dom. intros [H | (pe & H & Hq)]; rewrite H; [|rewrite Hq]; reflexivity.
Qed.

Lemma classStep_inert (d : node) (this : path) (sib : option path) :
  inert "active" d (classStep d this sib).
Proof.
  unfold classStep. destruct (hasClass d this "active").
  - apply inert_updElem, sameBut_classRemove.
  - assert (inert "active" d (updElem this (classAdd "active") d)) as H1
        by apply inert_updElem, sameBut_classAdd.
    cbv zeta. destruct (siblingActive _ sib); [|exact H1].
    destruct sib as [s|]; [|exact H1].
    eapply inert_trans; [exact H1|]. apply inert_updElem, sameBut_classRemove.
Qed.

(** The [active] flags after a click on a button that is not its own
    sibling. *)
Lemma classStep_flags (d : node) (this : path) (sib : option path) (b : element) :
  elemAt d this = Some b ->
  sib ≠ Some this ->
  siblingActive (updElem this (classAdd "active") d) sib = siblingActive d sib /\
  hasClass (classStep d this sib) this "active" = negb (hasClass d this "active") /\
  (forall s, sib = Some s ->
             hasClass (classStep d this sib) s "active"
             = if hasClass d this "active" then hasClass d s "active" else false).
Proof.
  intros Hb Hsib.
  assert (siblingActive (updElem this (classAdd "active") d) sib = siblingActive d sib) as Hsa.
  { destruct sib as [s|]; [|reflexivity]. simpl. rewrite hasClass_updElem.
    case_decide; [congruence | reflexivity]. }
  split; [exact Hsa|]. unfold classStep. cbv zeta. rewrite Hsa.
  assert (hasClass d this "active" = contains "active" b) as Hact
      by (unfold hasClass; rewrite Hb; reflexivity).
  destruct (hasClass d this "active") eqn:Ea.
  - split.
    + rewrite hasClass_updElem, decide_True, Hb by reflexivity.
      rewrite contains_classRemove, decide_True by reflexivity. reflexivity.
    + intros s ->. rewrite hasClass_updElem. case_decide; [congruence | reflexivity].
  - assert (hasClass (updElem this (classAdd "active") d) this "active" = true) as H1.
    { rewrite hasClass_updElem, decide_True, Hb by reflexivity.
      rewrite contains_classAdd, decide_True by reflexivity. reflexivity. }
    destruct sib as [s|]; simpl.
    + destruct (hasClass d s "active") eqn:Es.
      * split.
        -- rewrite hasClass_updElem. case_decide; [congruence | exact H1].
        -- intros s' [= <-]. rewrite hasClass_updElem, decide_True by reflexivity.
           destruct (elemAt _ s); [|reflexivity].
           rewrite contains_classRemove, decide_True by reflexivity. reflexivity.
      * split; [exact H1|]. intros s' [= <-].
        rewrite hasClass_updElem. case_decide; [congruence | exact Es].
    + split; [exact H1 | discriminate].
Qed.

(** C1, as amended.  A click on a vote button that has a container, whose
    counter holds only text reading as the integer [n], and that is not its
    own sibling, writes [n] plus one of the four deltas, when that sum is
    at most 2^53 in magnitude: un-voting an active button takes its vote
    back (-1 for an upvote, +1 for a downvote) and deactivates it; voting
    while the sibling is active counts twice (+2 or -2), activates the button
    and deactivates the sibling; voting alone counts once (+1 or -1) and
    activates the button.  The counter then reads as the new integer. *)
Theorem vote_click_writes_delta (pg : page) (this parentEl voteCountEl : path)
    (b : element) (n : Z) :
  elemAt (dom pg) this = Some b ->
  closest (dom pg) this postOrComment = Some parentEl ->
  querySelector (dom pg) parentEl (SelClass "vote-count") = Some voteCountEl ->
  descendants (dom pg) voteCountEl = [] ->
  JS.parseInt (textAt (dom pg) voteCountEl) = JS.Fin (inject_Z n) ->
  siblingOf (dom pg) parentEl this ≠ Some this ->
  let d := dom pg in
  let d' := dom (voteButtonClick big pg this) in
  let sib := siblingOf d parentEl this in
  let isUpvote := hasClass d this "upvote" in
  let wasActive := hasClass d this "active" in
  heldExactly (n + voteDelta isUpvote wasActive (siblingActive d sib)) ->
  textAt d' voteCountEl
    = JS.intToString (Some (n + voteDelta isUpvote wasActive (siblingActive d sib))%Z) /\
  JS.parseInt (textAt d' voteCountEl)
    = JS.Fin (inject_Z (n + voteDelta isUpvote wasActive (siblingActive d sib))) /\
  hasClass d' this "active" = negb wasActive /\
  (forall s, sib = Some s ->
             hasClass d' s "active" = if wasActive then hasClass d s "active" else false).
Proof.
  intros Hb Hc Hq Hleaf Hn Hsib. cbv zeta. intros Hex.
  rewrite (vote_click_dom pg this parentEl voteCountEl Hc Hq). cbv zeta.
  destruct (classStep_flags (dom pg) this _ b Hb Hsib) as (Hsa & Hthis & Hs).
  rewrite Hsa, Hn. unfold addTo. rewrite (add_whole _ _ Hex), (toString_whole _ _ Hex).
  pose proof (classStep_inert (dom pg) this (siblingOf (dom pg) parentEl this)) as Hi.
  destruct (querySelector_Some _ _ _ _ Hq) as [_ Hm].
  apply matchesAt_elem in Hm as (cnt & Hcnt & _).
  assert (is_Some (elemAt (classStep (dom pg) this (siblingOf (dom pg) parentEl this))
                          voteCountEl)) as [cnt' Hcnt']
      by (apply (inert_elemAt_Some _ _ _ Hi); eauto).
  assert (descendants (classStep (dom pg) this (siblingOf (dom pg) parentEl this)) voteCountEl = [])
    as Hleaf' by (rewrite (inert_descendants _ _ _ Hi); exact Hleaf).
  split; [apply (textAt_setTextContent _ _ _ cnt' Hcnt')|].
  split; [rewrite (textAt_setTextContent _ _ _ cnt' Hcnt'); apply JSFacts.parseInt_intToString, Hex|].
  unfold hasClass at 1.
  rewrite (elemAt_setTextContent _ _ _ cnt' Hcnt' Hleaf'). fold (hasClass (classStep (dom pg) this (siblingOf (dom pg) parentEl this)) this "active").
  split; [exact Hthis|].
  intros s Hs'. unfold hasClass at 1.
  rewrite (elemAt_setTextContent _ _ _ cnt' Hcnt' Hleaf').
  apply (Hs s Hs').
Qed.

Lemma votePair_inert (d d' : node) (pe pu pd : path) :
  inert "active" d d' -> votePair d pe pu pd -> votePair d' pe pu pd.
Proof.
  intros Hi [H1 H2 H3 H4 H5 H6]. split.
  - rewrite (inert_closest _ _ _ Hi) by reflexivity. exact H1.
  - rewrite (inert_closest _ _ _ Hi) by reflexivity. exact H2.
  - rewrite (inert_querySelector _ _ _ Hi) by reflexivity. exact H3.
  - rewrite (inert_querySelector _ _ _ Hi) by reflexivity. exact H4.
  - rewrite (inert_hasClass _ _ _ Hi) by discriminate. exact H5.
  - intros vc. rewrite (inert_querySelector _ _ _ Hi) by reflexivity.
    rewrite (inert_descendants _ _ _ Hi). apply H6.
Qed.

(** One click on a button of the pair. *)
Lemma vote_click_pair (pg : page) (pe pu pd this : path) :
  votePair (dom pg) pe pu pd ->
  this = pu \/ this = pd ->
  atMostOneActive (dom pg) pu pd ->
  votePair (dom (voteButtonClick big pg this)) pe pu pd /\
  atMostOneActive (dom (voteButtonClick big pg this)) pu pd.
Proof.
  intros Hp Hthis Hone. pose proof Hp as [H1 H2 H3 H4 H5 H6].
  assert (closest (dom pg) this postOrComment = Some pe) as Hc
      by (destruct Hthis; subst; assumption).
  destruct (querySelector (dom pg) pe (SelClass "vote-count")) as [vc|] eqn:Hq.
  2:{ rewrite vote_click_noop by (right; eauto). split; assumption. }
  pose proof (querySelector_Some _ _ _ _ H3) as [_ Hmu].
  pose proof (querySelector_Some _ _ _ _ H4) as [_ Hmd].
  pose proof (querySelector_Some _ _ _ _ Hq) as [_ Hmc].
  rewrite matchesAt_class in Hmu.
  assert (pu ≠ pd) as Hne by (intros ->; congruence).
  assert (siblingOf (dom pg) pe this = Some (if decide (this = pu) then pd else pu)) as Hsib.
  { unfold siblingOf. destruct Hthis; subst this.
    - rewrite Hmu, decide_True by reflexivity. exact H4.
    - rewrite H5, decide_False by congruence. exact H3. }
  assert (exists b, elemAt (dom pg) this = Some b) as [b Hb].
  { destruct Hthis; subst this.
    - apply matchesAt_elem in Hmd. unfold hasClass in Hmu.
      destruct (elemAt (dom pg) pu); [eauto | discriminate].
    - apply matchesAt_elem in Hmd as (e & He & _). eauto. }
  apply matchesAt_elem in Hmc as (cnt & Hcnt & _).
  pose proof (classStep_inert (dom pg) this (siblingOf (dom pg) pe this)) as Hi.
  assert (is_Some (elemAt (classStep (dom pg) this (siblingOf (dom pg) pe this)) vc))
    as [cnt' Hcnt'] by (apply (inert_elemAt_Some _ _ _ Hi); eauto).
  assert (descendants (classStep (dom pg) this (siblingOf (dom pg) pe this)) vc = [])
    as Hleaf' by (rewrite (inert_descendants _ _ _ Hi); apply H6; reflexivity).
  rewrite (vote_click_dom pg this pe vc Hc Hq). cbv zeta. split.
  - apply (votePair_inert (dom pg)); [|exact Hp].
    eapply inert_trans; [exact Hi|]. apply (inert_setTextContent _ _ _ _ cnt' Hcnt' Hleaf').
  - assert (siblingOf (dom pg) pe this ≠ Some this) as Hself.
    { rewrite Hsib. case_decide; congruence. }
    destruct (classStep_flags (dom pg) this _ b Hb Hself) as (_ & Ha & Hs).
    specialize (Hs _ Hsib).
    unfold atMostOneActive, hasClass.
    rewrite !(elemAt_setTextContent _ _ _ cnt' Hcnt' Hleaf').
    fold (hasClass (classStep (dom pg) this (siblingOf (dom pg) pe this)) pu "active").
    fold (hasClass (classStep (dom pg) this (siblingOf (dom pg) pe this)) pd "active").
    destruct Hthis; subst this.
    + rewrite decide_True in Hs by reflexivity. rewrite Ha, Hs.
      destruct (hasClass (dom pg) pu "active"), (hasClass (dom pg) pd "active"); reflexivity.
    + rewrite decide_False in Hs by congruence. rewrite Ha, Hs.
      destruct (hasClass (dom pg) pu "active"), (hasClass (dom pg) pd "active"); reflexivity.
Qed.

(** C2, as amended.  For a vote-button pair whose buttons are the first
    upvote and the first downvote button inside their container, and that
    starts with at most one of the two active, after any finite sequence of
    clicks on either button at most one of the two is active. *)
Theorem vote_clicks_keep_at_most_one_active (pg : page) (pe pu pd : path)
    (clicks : list path) :
  votePair (dom pg) pe pu pd ->
  atMostOneActive (dom pg) pu pd ->
  Forall (fun this => this = pu \/ this = pd) clicks ->
  atMostOneActive (dom (voteClicks big pg clicks)) pu pd.
Proof.
  intros Hp Hone Hclicks. revert pg Hp Hone.
  induction Hclicks as [|this clicks Hthis _ IH]; intros pg Hp Hone; [exact Hone|].
  destruct (vote_click_pair pg pe pu pd this Hp Hthis Hone) as [Hp' Hone'].
  apply (IH (voteButtonClick big pg this) Hp' Hone').
Qed.

End Host.

Lemma votePost_pair : votePair votePost [0]%nat upButton downButton.
Proof. split; try reflexivity. intros vc [= <-]. reflexivity. Qed.

Lemma vote_click_writes_delta_witness :
  elemAt votePost upButton = Some (el "a" ["vote-button"; "upvote"] ∅) /\
  closest votePost upButton postOrComment = Some [0]%nat /\
  querySelector votePost [0]%nat (SelClass "vote-count") = Some counter /\
  descendants votePost counter = [] /\
  JS.parseInt (textAt votePost counter) = JS.Fin (inject_Z 10) /\
  siblingOf votePost [0]%nat upButton ≠ Some upButton /\
  heldExactly (10 + 1) /\
  textAt (dom (voteButtonClick (fun _ => "") (pageOf votePost "") upButton)) counter = "11" /\
  hasClass (dom (voteButtonClick (fun _ => "") (pageOf votePost "") upButton)) upButton "active"
  = true.
Proof.
  assert (siblingOf votePost [0]%nat upButton ≠ Some upButton) as Hsib by discriminate.
  assert (JS.parseInt (textAt votePost counter) = JS.Fin (inject_Z 10)) as Hn
      by (vm_compute; reflexivity).
  assert (heldExactly (10 + 1)) as Hex by (unfold heldExactly; lia).
  pose proof (vote_click_writes_delta (fun _ => "") (pageOf votePost "") upButton [0]%nat counter
                (el "a" ["vote-button"; "upvote"] ∅) 10
                eq_refl eq_refl eq_refl eq_refl Hn Hsib Hex) as (Ht & _ & Ha & _).
  split; [reflexivity|]. split; [reflexivity|]. split; [reflexivity|]. split; [reflexivity|].
  split; [exact Hn|]. split; [exact Hsib|]. split; [exact Hex|]. split; [exact Ht | exact Ha].
Defined.

(** C1 as stated fails where a Number has no room for the new count: a
    counter at 2^53 still reads 2^53 after an upvote, because 2^53 + 1 is
    no binary64 value and the sum is rounded to the nearest one. *)
Lemma vote_count_stuck_at_2_53 :
  let pg := pageOf hugePost "" in
  JS.parseInt (textAt hugePost counter) = JS.Fin (inject_Z (2 ^ 53)) /\
  hasClass hugePost upButton "active" = false /\
  hasClass hugePost downButton "active" = false /\
  (forall big, textAt (dom (voteButtonClick big pg upButton)) counter = "9007199254740992") /\
  JS.intToString (Some (2 ^ 53 + 1)%Z) = "9007199254740993" /\
  ~ (forall big (pg : page) (this parentEl voteCountEl : path) (n : Z),
       closest (dom pg) this postOrComment = Some parentEl ->
       querySelector (dom pg) parentEl (SelClass "vote-count") = Some voteCountEl ->
       JS.parseInt (textAt (dom pg) voteCountEl) = JS.Fin (inject_Z n) ->
       hasClass (dom pg) this "upvote" = true ->
       hasClass (dom pg) this "active" = false ->
       siblingActive (dom pg) (siblingOf (dom pg) parentEl this) = false ->
       textAt (dom (voteButtonClick big pg this)) voteCountEl = JS.intToString (Some (n + 1)%Z)).
Proof.
  cbv zeta.
  assert (JS.parseInt (textAt hugePost counter) = JS.Fin (inject_Z (2 ^ 53))) as Hn
      by (vm_compute; reflexivity).
  assert (forall big, textAt (dom (voteButtonClick big (pageOf hugePost "") upButton)) counter
                      = "9007199254740992") as Hstuck by (intros big; vm_compute; reflexivity).
  split; [exact Hn|]. split; [reflexivity|]. split; [reflexivity|]. split; [exact Hstuck|].
  split; [vm_compute; reflexivity|].
  intros C.
  specialize (C (fun _ => "") (pageOf hugePost "") upButton [0]%nat counter (2 ^ 53)%Z
                eq_refl eq_refl Hn eq_refl eq_refl eq_refl).
  rewrite Hstuck in C. vm_compute in C. discriminate C.
Qed.

Lemma vote_clicks_keep_at_most_one_active_witness :
  votePair (dom (pageOf votePost "")) [0]%nat upButton downButton /\
  atMostOneActive (dom (pageOf votePost "")) upButton downButton /\
  atMostOneActive (dom (voteClicks (fun _ => "") (pageOf votePost "")
                          [upButton; downButton; downButton]))
                  upButton downButton.
Proof.
  split; [exact votePost_pair|]. split; [reflexivity|].
  apply (vote_clicks_keep_at_most_one_active _ _ [0]%nat).
  - exact votePost_pair.
  - reflexivity.
  - repeat (constructor; [first [left; reflexivity | right; reflexivity]|]). constructor.
Defined.

(** C2 as stated fails on a post whose own buttons come after a comment
    nested in it: the handler looks for the other button from the post down
    and finds the comment's, so a downvote and then an upvote on the post
    leave both buttons of the post active, and it is the counter of the
    comment that moves. *)
Lemma nested_comment_both_active :
  let pg := pageOf postWithComment "" in
  let pg' := voteClicks (fun _ => "") pg [postDown; postUp] in
  closest postWithComment postUp postOrComment = Some [0]%nat /\
  closest postWithComment postDown postOrComment = Some [0]%nat /\
  atMostOneActive (dom pg) postUp postDown /\
  hasClass (dom pg') postUp "active" = true /\
  hasClass (dom pg') postDown "active" = true /\
  textAt (dom (voteClicks (fun _ => "") pg [postDown])) [0; 0; 1]%nat = "2" /\
  textAt (dom pg') [0; 2]%nat = "10" /\
  ~ (forall big (pg : page) (pe pu pd : path) (clicks : list path),
       closest (dom pg) pu postOrComment = Some pe ->
       closest (dom pg) pd postOrComment = Some pe ->
       hasClass (dom pg) pu "upvote" = true ->
       hasClass (dom pg) pd "downvote" = true ->
       atMostOneActive (dom pg) pu pd ->
       Forall (fun this => this = pu \/ this = pd) clicks ->
       atMostOneActive (dom (voteClicks big pg clicks)) pu pd).
Proof.
  cbv zeta. repeat (split; [vm_compute; reflexivity|]).
  intros C.
  specialize (C (fun _ => "") (pageOf postWithComment "") [0]%nat postUp postDown
                [postDown; postUp] eq_refl eq_refl eq_refl eq_refl eq_refl).
  assert (Forall (fun this => this = postUp \/ this = postDown) [postDown; postUp]) as Hcl
      by (repeat (constructor; [first [left; reflexivity | right; reflexivity]|]); constructor).
  specialize (C Hcl). vm_compute in C. discriminate C.
Qed.

(** The run of the specification: from 10, an upvote gives 11 with the
    upvote active, a downvote then gives 9 with the downvote active, and a
    second downvote gives 10 with neither active. *)
Lemma vote_run :
  let flags pg := (textAt (dom pg) counter,
                   hasClass (dom pg) upButton "active",
                   hasClass (dom pg) downButton "active") in
  let clicks := voteClicks (fun _ => "") (pageOf votePost "") in
  flags (clicks [upButton]) = ("11", true, false) /\
  flags (clicks [upButton; downButton]) = ("9", false, true) /\
  flags (clicks [upButton; downButton; downButton]) = ("10", false, false).
Proof. repeat split; vm_compute; reflexivity. Qed.

End VoteFacts.

(** ** Facts: text expansion *)

Module ExpandFacts.
Import Dom Page Main DomProps DomFacts ExpandProps Examples.

(** The document after a click that finds its post and its text
    container. *)
Lemma expand_click_dom (pg : page) (this parentEl textEl : path) :
  closest (dom pg) this (SelClass "post") = Some parentEl ->
  querySelector (dom pg) parentEl (SelClass "post-text") = Some textEl ->
  let d1 := updElem textEl (classToggle "expanded") (dom pg) in
  let expanded := hasClass d1 textEl "expanded" in
  let d2 := setTextContent this (labelFor expanded) d1 in
  dom (expandButtonClick pg this)
  = match querySelector (dom pg) parentEl (SelClass "post-text-fade") with
    | Some f => updElem f (setStyle "display" (fadeDisplayFor expanded)) d2
    | None => d2
    end.
Proof.
  intros Hc Hq. cbv zeta. unfold expandButtonClick, labelFor, fadeDisplayFor.
  simpl dom. rewrite Hc, Hq.
  destruct (hasClass _ textEl "expanded"); reflexivity.
Qed.

(** One click: the class is toggled, label and fade follow the new class
    state, every other class stays, and the next click finds the same
    elements. *)
Lemma expand_click (pg : page) (this parentEl textEl : path) :
  expandable (dom pg) this parentEl textEl ->
  let d := dom pg in
  let d' := dom (expandButtonClick pg this) in
  let expanded := negb (hasClass d textEl "expanded") in
  expandable d' this parentEl textEl /\
  querySelector d' parentEl (SelClass "post-text-fade")
    = querySelector d parentEl (SelClass "post-text-fade") /\
  (forall c, hasClass d' textEl c = if decide (c = "expanded") then expanded else hasClass d textEl c) /\
  textAt d' this = labelFor expanded /\
  (forall f, querySelector d parentEl (SelClass "post-text-fade") = Some f ->
             styleAt d' f "display" = fadeDisplayFor expanded).
Proof.
  intros [[b Hb] Hleaf Hc Hq]. cbv zeta.
  rewrite (expand_click_dom pg this parentEl textEl Hc Hq). cbv zeta.
  pose proof (querySelector_Some _ _ _ _ Hq) as [_ Hmt].
  apply matchesAt_elem in Hmt as (t & Ht & _).
  set (d1 := updElem textEl (classToggle "expanded") (dom pg)).
  assert (inert "expanded" (dom pg) d1) as Hi1 by apply inert_updElem, sameBut_classToggle.
  assert (forall c, hasClass d1 textEl c
                    = if decide (c = "expanded") then negb (hasClass (dom pg) textEl "expanded")
                      else hasClass (dom pg) textEl c) as Hcls1.
  { intros c. unfold d1. rewrite hasClass_updElem, decide_True, Ht by reflexivity.
    rewrite contains_classToggle. unfold hasClass. rewrite Ht. reflexivity. }
  rewrite (Hcls1 "expanded"), decide_True by reflexivity.
  set (expanded := negb (hasClass (dom pg) textEl "expanded")).
  assert (is_Some (elemAt d1 this)) as [b1 Hb1] by (apply (inert_elemAt_Some _ _ _ Hi1); eauto).
  assert (descendants d1 this = []) as Hleaf1
      by (rewrite (inert_descendants _ _ _ Hi1); exact Hleaf).
  set (d2 := setTextContent this (labelFor expanded) d1).
  assert (inert "expanded" d1 d2) as Hi2 by apply (inert_setTextContent _ _ _ _ b1 Hb1 Hleaf1).
  assert (textAt d2 this = labelFor expanded) as Htext
      by apply (textAt_setTextContent _ _ _ b1 Hb1).
  assert (forall q c, hasClass d2 q c = hasClass d1 q c) as Hcls2.
  { intros q c. unfold hasClass, d2. rewrite (elemAt_setTextContent _ _ _ b1 Hb1 Hleaf1). reflexivity. }
  destruct (querySelector (dom pg) parentEl (SelClass "post-text-fade")) as [f|] eqn:Hf.
  - pose proof (querySelector_Some _ _ _ _ Hf) as [_ Hmf].
    apply matchesAt_elem in Hmf as (fe & Hfe & _).
    set (d3 := updElem f (setStyle "display" (fadeDisplayFor expanded)) d2).
    assert (inert "expanded" d2 d3) as Hi3 by apply inert_updElem, sameBut_setStyle.
    assert (inert "expanded" (dom pg) d3) as Hi
        by (eapply inert_trans; [exact Hi1 | eapply inert_trans; [exact Hi2 | exact Hi3]]).
    split; [|split; [|split; [|split]]].
    + split.
      * apply (inert_elemAt_Some _ _ _ Hi). eauto.
      * rewrite (inert_descendants _ _ _ Hi). exact Hleaf.
      * rewrite (inert_closest _ _ _ Hi) by reflexivity. exact Hc.
      * rewrite (inert_querySelector _ _ _ Hi) by reflexivity. exact Hq.
    + rewrite (inert_querySelector _ _ _ Hi) by reflexivity. exact Hf.
    + intros c. unfold d3. rewrite hasClass_updElem.
      case_decide as Hft; [subst f|]; [|rewrite Hcls2; apply Hcls1].
      transitivity (hasClass d2 textEl c); [|rewrite Hcls2; apply Hcls1].
      unfold hasClass. destruct (elemAt d2 textEl); reflexivity.
    + unfold d3. rewrite textAt_updElem. exact Htext.
    + intros f' [= <-]. unfold d3.
      assert (is_Some (elemAt d2 f)) as [fe2 Hfe2].
      { apply (inert_elemAt_Some _ _ _ Hi2), (inert_elemAt_Some _ _ _ Hi1). eauto. }
      apply (styleAt_updElem_setStyle _ _ _ _ fe2 Hfe2).
      unfold fadeDisplayFor. destruct expanded; discriminate.
  - assert (inert "expanded" (dom pg) d2) as Hi by (eapply inert_trans; eassumption).
    split; [|split; [|split; [|split]]].
    + split.
      * apply (inert_elemAt_Some _ _ _ Hi). eauto.
      * rewrite (inert_descendants _ _ _ Hi). exact Hleaf.
      * rewrite (inert_closest _ _ _ Hi) by reflexivity. exact Hc.
      * rewrite (inert_querySelector _ _ _ Hi) by reflexivity. exact Hq.
    + rewrite (inert_querySelector _ _ _ Hi) by reflexivity. exact Hf.
    + intros c. rewrite Hcls2. apply Hcls1.
    + exact Htext.
    + discriminate.
Qed.

(** C6, as amended.  For a post with a text container and an expand button
    that holds only text, two consecutive clicks give the text container the
    classes it had; the label and the fade display they leave are the ones
    the handler assigns to that class state, whatever they were before; and
    from the first click on, two more clicks give back classes, label and
    fade display alike. *)
Theorem expand_two_clicks (pg : page) (this parentEl textEl : path) :
  expandable (dom pg) this parentEl textEl ->
  let d := dom pg in
  let pg1 := expandButtonClick pg this in
  let d2 := dom (expandButtonClick pg1 this) in
  let d3 := dom (expandButtonClick (expandButtonClick pg1 this) this) in
  let expanded := hasClass d textEl "expanded" in
  ((forall c, hasClass d2 textEl c = hasClass d textEl c) /\
   textAt d2 this = labelFor expanded /\
   (forall f, querySelector d parentEl (SelClass "post-text-fade") = Some f ->
              styleAt d2 f "display" = fadeDisplayFor expanded)) /\
  ((forall c, hasClass d3 textEl c = hasClass (dom pg1) textEl c) /\
   textAt d3 this = textAt (dom pg1) this /\
   (forall f, querySelector d parentEl (SelClass "post-text-fade") = Some f ->
              styleAt d3 f "display" = styleAt (dom pg1) f "display")).
Proof.
  intros H0. cbv zeta.
  destruct (expand_click pg this parentEl textEl H0) as (H1 & Hf1 & Hc1 & Ht1 & Hs1).
  destruct (expand_click _ this parentEl textEl H1) as (H2 & Hf2 & Hc2 & Ht2 & Hs2).
  destruct (expand_click _ this parentEl textEl H2) as (H3 & Hf3 & Hc3 & Ht3 & Hs3).
  cbv zeta in *.
  assert (forall c, hasClass (dom (expandButtonClick (expandButtonClick pg this) this)) textEl c
                    = hasClass (dom pg) textEl c) as Hback.
  { intros c. rewrite Hc2. case_decide as Hce.
    - subst c. rewrite (Hc1 "expanded"), decide_True by reflexivity. apply negb_involutive.
    - rewrite (Hc1 c), decide_False by exact Hce. reflexivity. }
  split; [split; [exact Hback | split]| split; [|split]].
  - rewrite Ht2, (Hc1 "expanded"), decide_True, negb_involutive by reflexivity. reflexivity.
  - intros f Hf. rewrite Hs2 by (rewrite Hf1; exact Hf).
    rewrite (Hc1 "expanded"), decide_True, negb_involutive by reflexivity. reflexivity.
  - intros c. rewrite Hc3, !Hback, (Hc1 c). reflexivity.
  - rewrite Ht3, Ht1, Hback. reflexivity.
  - intros f Hf. rewrite Hs3 by (rewrite Hf2, Hf1; exact Hf).
    rewrite Hs1 by exact Hf. rewrite Hback. reflexivity.
Qed.

Lemma longPost_expandable : expandable longPost [0; 2]%nat [0]%nat [0; 0]%nat.
Proof. split; [eexists |..]; reflexivity. Qed.

Lemma expand_two_clicks_witness :
  expandable (dom longPostPage) [0; 2]%nat [0]%nat [0; 0]%nat /\
  textAt (dom (expandButtonClick (expandButtonClick longPostPage [0; 2]%nat) [0; 2]%nat))
         [0; 2]%nat = "Read more".
Proof.
  split; [exact longPost_expandable|].
  exact (proj1 (proj2 (proj1 (expand_two_clicks longPostPage _ _ _ longPost_expandable)))).
Defined.

(** C6 as stated fails on the fade element: it has no inline display before
    the first click and is left with [block] after the second. *)
Lemma expand_two_clicks_change_fade :
  let pg2 := expandButtonClick (expandButtonClick longPostPage [0; 2]%nat) [0; 2]%nat in
  querySelector longPost [0]%nat (SelClass "post-text-fade") = Some [0; 1]%nat /\
  styleAt (dom longPostPage) [0; 1]%nat "display" = "" /\
  styleAt (dom pg2) [0; 1]%nat "display" = "block" /\
  styleAt (dom pg2) [0; 1]%nat "display" ≠ styleAt (dom longPostPage) [0; 1]%nat "display".
Proof. cbv zeta. repeat split; try reflexivity. vm_compute. discriminate. Qed.

End ExpandFacts.

(** ** Facts: the reply action *)

Module ReplyFacts.
Import Dom Page Main DomProps DomFacts ReplyProps Examples.

(** ** The reply action *)

Lemma snoc_of_nonempty {A} (r : list A) : r ≠ [] -> exists r' x, r = (r' ++ [x])%list.
Proof.
  intros Hr. destruct (reverse r) as [|x rr] eqn:E.
  - apply (f_equal reverse) in E. rewrite reverse_involutive in E. contradiction.
  - exists (reverse rr), x. apply (f_equal reverse) in E.
    rewrite reverse_involutive, reverse_cons in E. exact E.
Qed.

(** The first click creates the form right after the actions element. *)
Lemma reply_first_click (pg : page) (this c a : path) :
  replyReady (dom pg) this c a ->
  exists pg1 form,
    commentActionClick pg this = Returns pg1 /\
    dom pg1 = insertAfter a newReplyForm (dom pg) /\
    nextSibling a = Some form /\
    get (dom pg1) form = Some newReplyForm /\
    replyOpen (dom pg1) this c form.
Proof.
  intros [Hc Hact Hnone Ha (r & Hr & ->)].
  destruct (snoc_of_nonempty r Hr) as (r' & i & ->).
  rewrite app_assoc in *. set (b := (c ++ r')%list) in *.
  destruct (closest_Some _ _ _ _ Ha) as [[t Hthis] Hma].
  apply matchesAt_elem in Hma as (x & Hx & _).
  rewrite <- app_assoc in Hthis. simpl in Hthis.
  set (d1 := insertAfter (b ++ [i]) newReplyForm (dom pg)).
  assert (d1 = update b (insKid i newReplyForm) (dom pg)) as Hd1 by apply insertAfter_snoc.
  assert (get d1 (b ++ [S i]) = Some newReplyForm) as Hnew
      by (rewrite Hd1; apply (get_insert_new _ _ _ _ x Hx)).
  assert (forall q, q ∈ prefixes this -> elemAt d1 q = elemAt (dom pg) q) as Hframe.
  { intros q Hq. rewrite Hd1. rewrite Hthis in Hq.
    apply (elemAt_insert_frame i newReplyForm b t q (dom pg) x Hx Hq). }
  assert (replyOpen d1 this c (b ++ [S i])) as Hopen.
  { split.
    - rewrite <- Hc. apply closest_ext_prefixes. intros q Hq.
      unfold matchesAt. rewrite (Hframe q Hq). reflexivity.
    - rewrite <- Hact. unfold datasetAt. rewrite Hframe; [reflexivity|].
      apply prefixes_spec. exists []. rewrite app_nil_r. reflexivity.
    - assert (length (replyForms d1 c) = 1%nat) as Hlen.
      { destruct (child_of_elemAt _ b i x Hx) as (eb & ks & k & Hgb & _).
        assert (elemAt (dom pg) (c ++ r') = Some eb) as Hb
            by (fold b; unfold elemAt; rewrite Hgb; reflexivity).
        unfold replyForms. rewrite Hd1. unfold b.
        rewrite (count_querySelectorAll_insert _ i newReplyForm c r' (dom pg) eb Hb).
        fold (replyForms (dom pg) c). rewrite Hnone. reflexivity. }
      assert ((b ++ [S i])%list ∈ replyForms d1 c) as Hin.
      { unfold replyForms, querySelectorAll. apply list_elem_of_filter. split.
        - unfold matchesAt, elemAt. rewrite Hnew. reflexivity.
        - unfold b. rewrite <- app_assoc. apply in_descendants.
          + rewrite app_assoc. fold b. unfold elemAt. rewrite Hnew. eauto.
          + destruct r'; discriminate. }
      destruct (replyForms d1 c) as [|f [|f' fs]]; try discriminate.
      apply list_elem_of_singleton in Hin. congruence. }
  exists (emit (Focus ((b ++ [S i]) ++ [1%nat])%list)
               (withDom d1 (emit PreventDefault pg))), (b ++ [S i])%list.
  split; [|split; [reflexivity | split; [apply nextSibling_snoc | split; assumption]]].
  unfold commentActionClick. simpl dom. rewrite Hact, Hc.
  rewrite decide_True by reflexivity.
  assert (querySelector (dom pg) c (SelClass "reply-form") = None) as ->
      by (unfold querySelector; fold (replyForms (dom pg) c); rewrite Hnone; reflexivity).
  rewrite Ha, nextSibling_snoc. reflexivity.
Qed.

(** Every later click finds that form and only toggles its display. *)
Lemma reply_toggle_click (pg : page) (this c form : path) :
  replyOpen (dom pg) this c form ->
  exists pg',
    commentActionClick pg this = Returns pg' /\
    dom pg' = updElem form (setStyle "display" (toggledDisplay (dom pg) form)) (dom pg) /\
    replyOpen (dom pg') this c form.
Proof.
  intros [Hc Hact Hform].
  set (d' := updElem form (setStyle "display" (toggledDisplay (dom pg) form)) (dom pg)).
  assert (inert "" (dom pg) d') as Hi by apply inert_updElem, sameBut_setStyle.
  assert (replyOpen d' this c form) as Hopen.
  { split.
    - rewrite (inert_closest _ _ _ Hi) by reflexivity. exact Hc.
    - rewrite (inert_datasetAt _ _ _ Hi). exact Hact.
    - unfold replyForms. rewrite (inert_querySelectorAll _ _ _ Hi) by reflexivity. exact Hform. }
  assert (querySelector (dom pg) c (SelClass "reply-form") = Some form) as Hq
      by (unfold querySelector; fold (replyForms (dom pg) c); rewrite Hform; reflexivity).
  unfold commentActionClick. simpl dom. rewrite Hact, Hc.
  rewrite decide_True by reflexivity. rewrite Hq.
  fold (toggledDisplay (dom pg) form).
  unfold toggledDisplay in *.
  destruct (bool_decide (styleAt (dom pg) form "display" = "none")); simpl.
  - destruct (querySelector _ form (SelTag "textarea"));
      eexists; (split; [reflexivity | split; [reflexivity | exact Hopen]]).
  - eexists; (split; [reflexivity | split; [reflexivity | exact Hopen]]).
Qed.

(** C5, as amended.  For a reply action of a comment that has no reply
    form yet and whose [.comment-actions] element lies inside the comment,
    no click on it throws; the first click creates the form as the next sibling of the
    actions element; after any number of clicks the comment holds at most
    one [.reply-form], and from the first click on exactly that one; every
    later click finds that same element and changes nothing but its
    display, from visible to [none] and from [none] to [block]. *)
Theorem reply_form_created_once (pg : page) (this c a : path) :
  replyReady (dom pg) this c a ->
  exists form,
    nextSibling a = Some form /\
    (exists pg1,
        replyClicks 1 pg this = Returns pg1 /\
        dom pg1 = insertAfter a newReplyForm (dom pg) /\
        get (dom pg1) form = Some newReplyForm) /\
    (forall n, exists pgn,
        replyClicks n pg this = Returns pgn /\
        (length (replyForms (dom pgn) c) <= 1)%nat) /\
    (forall n, exists pgn pgn',
        replyClicks (S n) pg this = Returns pgn /\
        replyForms (dom pgn) c = [form] /\
        commentActionClick pgn this = Returns pgn' /\
        dom pgn' = updElem form (setStyle "display" (toggledDisplay (dom pgn) form)) (dom pgn)).
Proof.
  intros Hready.
  destruct (reply_first_click pg this c a Hready) as (pg1 & form & Hclick & Hdom & Hnext & Hget & Hopen).
  assert (forall n, exists pgn, replyClicks (S n) pg this = Returns pgn /\
                                replyOpen (dom pgn) this c form) as Hlater.
  { induction n as [|n (pgn & Hn & Hon)].
    - exists pg1. split; [exact Hclick | exact Hopen].
    - destruct (reply_toggle_click pgn this c form Hon) as (pg' & Hc' & _ & Ho').
      exists pg'. split; [|exact Ho'].
      change (replyClicks (S (S n)) pg this)
        with (match replyClicks (S n) pg this with
              | Returns p => commentActionClick p this
              | Throws err p => Throws err p
              end).
      rewrite Hn. exact Hc'. }
  exists form. split; [exact Hnext|]. split; [|split].
  - exists pg1. repeat split; assumption.
  - intros [|n].
    + exists pg. split; [reflexivity|]. rewrite (rr_none _ _ _ _ Hready). simpl. lia.
    + destruct (Hlater n) as (pgn & Hn & Hon). exists pgn. split; [exact Hn|].
      rewrite (ro_form _ _ _ _ Hon). reflexivity.
  - intros n. destruct (Hlater n) as (pgn & Hn & Hon).
    destruct (reply_toggle_click pgn this c form Hon) as (pg' & Hc' & Hd' & _).
    exists pgn, pg'. repeat split; try assumption. apply (ro_form _ _ _ _ Hon).
Qed.

Lemma thread_ready : replyReady thread [0; 1; 0]%nat [0]%nat [0; 1]%nat.
Proof. split; try reflexivity. exists [1%nat]. split; [discriminate | reflexivity]. Qed.

Lemma reply_form_created_once_witness :
  replyReady (dom threadPage) [0; 1; 0]%nat [0]%nat [0; 1]%nat /\
  forall n, exists pgn,
    replyClicks n threadPage [0; 1; 0]%nat = Returns pgn /\
    (length (replyForms (dom pgn) [0]%nat) <= 1)%nat.
Proof.
  split; [exact thread_ready|].
  destruct (reply_form_created_once threadPage _ _ _ thread_ready) as (form & _ & _ & H & _).
  exact H.
Defined.

(** C5 as stated fails for a comment that holds other comments.  The
    handler looks for a reply form anywhere below the comment, so once an
    answer has its form open, the first click on the reply action of the
    outer comment creates nothing: it hides the form of the answer.  And
    once two answers have their forms open, the outer comment holds two
    reply forms, before and after any clicks on its own reply action. *)
Lemma nested_reply_forms :
  (exists pg1 pg2,
      commentActionClick nestedPage firstAnswerReply = Returns pg1 /\
      replyForms (dom pg1) [0]%nat = [[0; 1; 1]%nat] /\
      styleAt (dom pg1) [0; 1; 1]%nat "display" = "" /\
      commentActionClick pg1 outerReply = Returns pg2 /\
      dom pg2 = updElem [0; 1; 1]%nat (setStyle "display" "none") (dom pg1) /\
      replyForms (dom pg2) [0]%nat = [[0; 1; 1]%nat]) /\
  (exists pg1 pg2 pg3 pg4,
      commentActionClick nestedPage firstAnswerReply = Returns pg1 /\
      commentActionClick pg1 secondAnswerReply = Returns pg2 /\
      replyForms (dom pg2) [0]%nat = [[0; 1; 1]; [0; 2; 1]]%nat /\
      replyClicks 1 pg2 outerReply = Returns pg3 /\
      replyForms (dom pg3) [0]%nat = [[0; 1; 1]; [0; 2; 1]]%nat /\
      replyClicks 2 pg2 outerReply = Returns pg4 /\
      replyForms (dom pg4) [0]%nat = [[0; 1; 1]; [0; 2; 1]]%nat) /\
  ~ (forall (pg : page) (this c : path) (n : nat),
        closest (dom pg) this (SelClass "comment") = Some c ->
        datasetAt (dom pg) this "action" = Some "reply" ->
        exists pgn, replyClicks n pg this = Returns pgn /\
                    (length (replyForms (dom pgn) c) <= 1)%nat).
Proof.
  split; [|split].
  - eexists _, _. repeat split.
  - eexists _, _, _, _. repeat split.
  - intros C.
    destruct (C (withDom (insertAfter [0; 2; 0]%nat newReplyForm
                            (insertAfter [0; 1; 0]%nat newReplyForm nestedThread)) nestedPage)
                outerReply [0]%nat 0%nat eq_refl eq_refl) as (pgn & Hn & Hlen).
    injection Hn as <-. vm_compute in Hlen. lia.
Qed.

(** Two clicks on the page above: one form, hidden by the second click. *)
Lemma thread_two_clicks :
  exists pg2,
    replyClicks 2 threadPage [0; 1; 0]%nat = Returns pg2 /\
    replyForms (dom pg2) [0]%nat = [[0; 2]%nat] /\
    styleAt (dom pg2) [0; 2]%nat "display" = "none".
Proof. eexists. repeat split. Qed.

End ReplyFacts.

(** ** Facts: post and comment actions *)

Module ActionFacts.
Import Dom Page Main DomFacts Examples.

Lemma post_action_null (pg : page) (this : path) :
  closest (dom pg) this (SelClass "post") = None ->
  postActionClick pg this = Throws "TypeError" (emit PreventDefault pg).
Proof. intros H. unfold postActionClick. simpl dom. rewrite H. reflexivity. Qed.

Lemma comment_action_null (pg : page) (this : path) :
  closest (dom pg) this (SelClass "comment") = None ->
  commentActionClick pg this = Throws "TypeError" (emit PreventDefault pg).
Proof. intros H. unfold commentActionClick. simpl dom. rewrite H. reflexivity. Qed.

(** C8 fails on the action handlers.  A click on a [.post-action] element
    with no [.post] ancestor, or on a [.comment-action] element with no
    [.comment] ancestor, stops at a TypeError: the result of [closest] is
    dereferenced unchecked; so does a first reply in a comment without a
    [.comment-actions] element.  The vote and expand handlers do check the
    result of [closest] and leave the document as it is. *)
Theorem stray_action_click_throws :
  postActionClick (pageOf strayActions "") [0]%nat
    = Throws "TypeError" (emit PreventDefault (pageOf strayActions "")) /\
  commentActionClick (pageOf strayActions "") [1]%nat
    = Throws "TypeError" (emit PreventDefault (pageOf strayActions "")) /\
  commentActionClick (pageOf bareReply "") [0; 0]%nat
    = Throws "TypeError" (emit PreventDefault (pageOf bareReply "")) /\
  (forall big, dom (voteButtonClick big (pageOf strayActions "") [0]%nat) = strayActions) /\
  dom (expandButtonClick (pageOf strayActions "") [0]%nat) = strayActions.
Proof. repeat split; intros; reflexivity. Qed.

End ActionFacts.

(** ** Facts: the filter select *)

Module FilterFacts.
Import Dom Page Main UrlProps JSFacts UrlFacts Examples.

(** C3.  A change of a filter select navigates to the current pathname
    followed by a query string that [URLSearchParams] reads back as the
    pairs of the current query with the name [k] of the select set to its
    value [v]: [k] occurs once, with the value [v], and the pairs of every
    other name are the same, in the same order.  Name and value are taken as
    the interface takes its arguments, as scalar value strings: for a string
    held as UTF-8 that is the string itself. *)
Theorem filter_change_navigates (pg : page) (this : path) :
  let name := selectName (elemAt (dom pg) this) in
  let value := selectValue (elemAt (dom pg) this) in
  let k := Url.toUSVString name in
  let v := Url.toUSVString value in
  let q := Url.URLSearchParams (search pg) in
  let q' := Url.set name value q in
  trace (filterSelectChange pg this)
    = Navigate (pathname pg ++ "?" ++ Url.toString q') :: trace pg /\
  Url.URLSearchParams ("?" ++ Url.toString q') = q' /\
  Url.getAll k q' = [v] /\
  filter (others k) q' = filter (others k) q /\
  (forall k', k' ≠ k -> Url.getAll k' q' = Url.getAll k' q) /\
  (wellFormed name -> k = name) /\
  (wellFormed value -> v = value).
Proof.
  cbv zeta. split; [reflexivity|]. split; [|split; [|split; [|split; [|split]]]].
  - unfold Url.URLSearchParams at 1. rewrite append_cons, append_nil.
    apply parse_toString, set_wellFormed, parseUrlencoded_wellFormed.
  - apply getAll_set.
  - apply set_others.
  - intros k' Hk. apply getAll_set_other, Hk.
  - apply utf8Decode_wellFormed.
  - apply utf8Decode_wellFormed.
Qed.

(** The example of the specification, and a query whose value is a byte
    that is no UTF-8: the interface reads it as U+FFFD and writes it so. *)
Lemma filter_change_example :
  trace (filterSelectChange (pageOf feed "?sort=new&page=2") [0]%nat)
  = [Navigate "/feed?sort=top&page=2"] /\
  trace (filterSelectChange (pageOf feed "?a=%FF") [0]%nat)
  = [Navigate "/feed?a=%EF%BF%BD&sort=top"].
Proof. split; reflexivity. Qed.

End FilterFacts.

(** ** Facts: the counter of a vote-button pair *)

Module VoteCountFacts.
Import Dom Page Main DomProps DomFacts VoteProps VoteFacts VoteCountProps Examples.
Import Binary64Facts.

Lemma ownVote_bounds (d : node) (pu pd : path) : (-1 <= ownVote d pu pd <= 1)%Z.
Proof. unfold ownVote. destruct (hasClass d pu "active"), (hasClass d pd "active"); simpl; lia. Qed.

Section Host.

Variable big : Q -> string.

(** One click on a button of a pair whose counter is at [vc]: the pair and
    the counter stay where they are, and the counter reads what it read plus
    the change of the vote shown. *)
Lemma vote_click_counter (pg : page) (pe pu pd vc this : path) :
  votePair (dom pg) pe pu pd ->
  querySelector (dom pg) pe (SelClass "vote-count") = Some vc ->
  this = pu \/ this = pd ->
  let d := dom pg in
  let d' := dom (voteButtonClick big pg this) in
  votePair d' pe pu pd /\
  querySelector d' pe (SelClass "vote-count") = Some vc /\
  textAt d' vc
  = JS.toString big (addTo (JS.parseInt (textAt d vc))
                           (ownVote d' pu pd - ownVote d pu pd)).
Proof.
  intros Hp Hq Hthis. cbv zeta. pose proof Hp as [H1 H2 H3 H4 H5 H6].
  assert (closest (dom pg) this postOrComment = Some pe) as Hc
      by (destruct Hthis; subst; assumption).
  pose proof (querySelector_Some _ _ _ _ H3) as [_ Hmu].
  pose proof (querySelector_Some _ _ _ _ H4) as [_ Hmd].
  pose proof (querySelector_Some _ _ _ _ Hq) as [_ Hmc].
  rewrite matchesAt_class in Hmu.
  assert (pu ≠ pd) as Hne by (intros ->; congruence).
  assert (siblingOf (dom pg) pe this = Some (if decide (this = pu) then pd else pu)) as Hsib.
  { unfold siblingOf. destruct Hthis; subst this.
    - rewrite Hmu, decide_True by reflexivity. exact H4.
    - rewrite H5, decide_False by congruence. exact H3. }
  assert (exists b, elemAt (dom pg) this = Some b) as [b Hb].
  { destruct Hthis; subst this.
    - unfold hasClass in Hmu. destruct (elemAt (dom pg) pu); [eauto | discriminate].
    - apply matchesAt_elem in Hmd as (e & He & _). eauto. }
  apply matchesAt_elem in Hmc as (cnt & Hcnt & _).
  pose proof (classStep_inert (dom pg) this (siblingOf (dom pg) pe this)) as Hi.
  assert (is_Some (elemAt (classStep (dom pg) this (siblingOf (dom pg) pe this)) vc))
    as [cnt' Hcnt'] by (apply (inert_elemAt_Some _ _ _ Hi); eauto).
  assert (descendants (classStep (dom pg) this (siblingOf (dom pg) pe this)) vc = [])
    as Hleaf' by (rewrite (inert_descendants _ _ _ Hi); apply H6; exact Hq).
  assert (siblingOf (dom pg) pe this ≠ Some this) as Hself.
  { rewrite Hsib. case_decide; congruence. }
  destruct (classStep_flags (dom pg) this _ b Hb Hself) as (Hsa & Ha & Hs).
  specialize (Hs _ Hsib).
  rewrite (vote_click_dom big pg this pe vc Hc Hq). cbv zeta.
  set (d1 := classStep (dom pg) this (siblingOf (dom pg) pe this)) in *.
  set (txt := JS.toString big _).
  assert (inert "active" (dom pg) (setTextContent vc txt d1)) as Hi'.
  { eapply inert_trans; [exact Hi|]. apply (inert_setTextContent _ _ _ _ cnt' Hcnt' Hleaf'). }
  split; [apply (votePair_inert (dom pg)); assumption|].
  split; [rewrite (inert_querySelector _ _ _ Hi') by reflexivity; exact Hq|].
  rewrite (textAt_setTextContent _ _ _ cnt' Hcnt'). unfold txt at 1. do 2 f_equal.
  assert (forall q c, hasClass (setTextContent vc txt d1) q c = hasClass d1 q c) as Hset.
  { intros q c. unfold hasClass.
    rewrite (elemAt_setTextContent _ _ _ cnt' Hcnt' Hleaf'). reflexivity. }
  rewrite Hsa. unfold ownVote. rewrite !Hset, Hsib. unfold siblingActive, voteDelta.
  destruct Hthis; subst this.
  - rewrite decide_True in * by reflexivity. rewrite Ha, Hs, Hmu.
    destruct (hasClass (dom pg) pu "active"), (hasClass (dom pg) pd "active"); reflexivity.
  - rewrite decide_False in * by congruence. rewrite Ha, Hs, H5.
    destruct (hasClass (dom pg) pu "active"), (hasClass (dom pg) pd "active"); reflexivity.
Qed.

(** The counter of a vote-button pair follows the vote shown: after any
    sequence of clicks on the two buttons, a counter that read [n] reads
    [n] plus the difference between the vote the pair shows now and the vote
    it showed at the start, as long as the count without the vote of the
    pair is below 2^53 in magnitude. *)
Theorem vote_count_follows_vote (pg : page) (pe pu pd vc : path) (n : Z)
    (clicks : list path) :
  votePair (dom pg) pe pu pd ->
  querySelector (dom pg) pe (SelClass "vote-count") = Some vc ->
  JS.parseInt (textAt (dom pg) vc) = JS.Fin (inject_Z n) ->
  (- 2 ^ 53 < n - ownVote (dom pg) pu pd < 2 ^ 53)%Z ->
  Forall (fun this => this = pu \/ this = pd) clicks ->
  let d' := dom (voteClicks big pg clicks) in
  JS.parseInt (textAt d' vc)
  = JS.Fin (inject_Z (n + ownVote d' pu pd - ownVote (dom pg) pu pd)).
Proof.
  intros Hp Hq Hn Hbase Hclicks. cbv zeta. revert pg n Hp Hq Hn Hbase.
  induction Hclicks as [|this clicks Hthis _ IH]; intros pg n Hp Hq Hn Hbase.
  - simpl. rewrite Hn. do 2 f_equal. lia.
  - destruct (vote_click_counter pg pe pu pd vc this Hp Hq Hthis) as (Hp' & Hq' & Ht).
    set (pg1 := voteButtonClick big pg this) in *.
    pose proof (ownVote_bounds (dom pg1) pu pd) as Hb1.
    assert (heldExactly (n + (ownVote (dom pg1) pu pd - ownVote (dom pg) pu pd))) as Hex
        by (unfold heldExactly; lia).
    rewrite Hn in Ht. unfold addTo in Ht.
    rewrite (add_whole _ _ Hex), (toString_whole _ _ Hex) in Ht.
    assert (JS.parseInt (textAt (dom pg1) vc)
            = JS.Fin (inject_Z (n + (ownVote (dom pg1) pu pd - ownVote (dom pg) pu pd))))
      as Hn' by (rewrite Ht; apply JSFacts.parseInt_intToString, Hex).
    change (voteClicks big pg (this :: clicks)) with (voteClicks big pg1 clicks).
    rewrite (IH _ _ Hp' Hq' Hn') by lia. do 2 f_equal. lia.
Qed.

(** A counter whose text does not read as an integer shows NaN after the
    first click on either button, and after every later one. *)
Theorem vote_count_NaN_stays (pg : page) (pe pu pd vc : path) (this : path)
    (clicks : list path) :
  votePair (dom pg) pe pu pd ->
  querySelector (dom pg) pe (SelClass "vote-count") = Some vc ->
  JS.parseInt (textAt (dom pg) vc) = JS.NaN ->
  Forall (fun this => this = pu \/ this = pd) (this :: clicks) ->
  textAt (dom (voteClicks big pg (this :: clicks))) vc = "NaN".
Proof.
  intros Hp Hq Hn Hclicks.
  assert (forall clicks pg,
             Forall (fun this => this = pu \/ this = pd) clicks ->
             votePair (dom pg) pe pu pd ->
             querySelector (dom pg) pe (SelClass "vote-count") = Some vc ->
             textAt (dom pg) vc = "NaN" ->
             textAt (dom (voteClicks big pg clicks)) vc = "NaN") as Hrest.
  { intros cs pg0 Hcs. revert pg0. induction Hcs as [|t cs Ht _ IH]; intros pg0 Hp0 Hq0 Ht0.
    - exact Ht0.
    - destruct (vote_click_counter pg0 pe pu pd vc t Hp0 Hq0 Ht) as (Hp' & Hq' & Htx).
      rewrite Ht0 in Htx. apply (IH _ Hp' Hq' Htx). }
  inversion Hclicks as [|? ? Hthis Hcs]; subst.
  destruct (vote_click_counter pg pe pu pd vc this Hp Hq Hthis) as (Hp' & Hq' & Ht).
  rewrite Hn in Ht. apply (Hrest clicks _ Hcs Hp' Hq' Ht).
Qed.

(** ** What a click leaves alone *)

Lemma get_update_apart (f : node -> node) (p q : path) (d : node) :
  apart p q -> get (update p f d) q = get d q.
Proof.
  revert q d. induction p as [|i p IH]; intros q d [Hpq Hqp].
  - exfalso. apply Hpq. apply prefix_nil.
  - destruct q as [|j q]; [exfalso; apply Hqp, prefix_nil|].
    destruct d as [s|e ks]; [reflexivity|]. simpl update. rewrite !get_cons.
    destruct (decide (i = j)) as [<-|Hne].
    + rewrite list_lookup_alter_eq. destruct (ks !! i) as [k|]; [|reflexivity]. simpl.
      apply IH. split; intros H.
      * apply Hpq. apply prefix_cons, H.
      * apply Hqp. apply prefix_cons, H.
    + rewrite list_lookup_alter_ne by exact Hne. reflexivity.
Qed.

Lemma apart_sym (p q : path) : apart p q -> apart q p.
Proof. intros [H1 H2]. split; assumption. Qed.

Lemma classStep_apart (d : node) (this : path) (sib : option path) (q : path) :
  apart q this -> (forall s, sib = Some s -> apart q s) ->
  get (classStep d this sib) q = get d q.
Proof.
  intros Ht Hs. unfold classStep, updElem.
  destruct (hasClass d this "active"); [apply get_update_apart, apart_sym, Ht|].
  cbv zeta. destruct (siblingActive _ sib); [|apply get_update_apart, apart_sym, Ht].
  destruct sib as [s|]; [|apply get_update_apart, apart_sym, Ht].
  rewrite get_update_apart by (apply apart_sym, Hs; reflexivity).
  apply get_update_apart, apart_sym, Ht.
Qed.

(** A click on a vote button changes three places at most: the button,
    the button of the other kind that the handler finds from the container,
    and the counter that it finds there.  Every subtree of the document that
    lies apart from these is left exactly as it is. *)
Theorem vote_click_elsewhere (pg : page) (this q : path) :
  apart q this ->
  (forall pe, closest (dom pg) this postOrComment = Some pe ->
     (forall s, siblingOf (dom pg) pe this = Some s -> apart q s) /\
     (forall vc, querySelector (dom pg) pe (SelClass "vote-count") = Some vc -> apart q vc)) ->
  get (dom (voteButtonClick big pg this)) q = get (dom pg) q.
Proof.
  intros Hthis Hfound.
  destruct (closest (dom pg) this postOrComment) as [pe|] eqn:Hcl.
  2:{ rewrite vote_click_noop by (left; exact Hcl). reflexivity. }
  destruct (Hfound pe eq_refl) as [Hsib Hvc].
  destruct (querySelector (dom pg) pe (SelClass "vote-count")) as [vc|] eqn:Hq.
  2:{ rewrite vote_click_noop by (right; eauto). reflexivity. }
  rewrite (vote_click_dom big pg this pe vc Hcl Hq). cbv zeta.
  unfold setTextContent. rewrite get_update_apart by (apply apart_sym, Hvc; reflexivity).
  apply classStep_apart; assumption.
Qed.

End Host.

Lemma vote_count_follows_vote_witness :
  votePair (dom (pageOf votePost "")) [0]%nat upButton downButton /\
  JS.parseInt (textAt (dom (voteClicks (fun _ => "") (pageOf votePost "") [upButton; downButton]))
                 counter)
  = JS.Fin (inject_Z 9).
Proof.
  split; [exact votePost_pair|].
  refine (vote_count_follows_vote (fun _ => "") (pageOf votePost "") [0]%nat upButton downButton
            counter 10 [upButton; downButton] votePost_pair eq_refl _ _ _).
  - vm_compute. reflexivity.
  - vm_compute. split; reflexivity.
  - repeat (constructor; [first [left; reflexivity | right; reflexivity]|]). constructor.
Defined.

(** The other post of the page is left as it is. *)
Lemma vote_click_elsewhere_witness :
  get (dom (voteButtonClick (fun _ => "") (pageOf twoPosts "") [0; 0]%nat)) [1]%nat
  = get twoPosts [1]%nat.
Proof.
  assert (forall i, apart [1]%nat [0; i]%nat) as Ha.
  { intros i. split; intros [k Hk]; discriminate Hk. }
  apply (vote_click_elsewhere (fun _ => "") (pageOf twoPosts "") [0; 0]%nat [1]%nat (Ha _)).
  intros pe [= <-]. split.
  - intros s [= <-]. apply Ha.
  - intros vc [= <-]. apply Ha.
Defined.

(** In a post whose own buttons come after a comment nested in it, the
    places that a click on a button of the post changes are the button and
    the comment's other button and counter: the counter of the post is left
    as it is. *)
Lemma vote_click_elsewhere_nested :
  let pg := pageOf postWithComment "" in
  siblingOf (dom pg) [0]%nat postDown = Some [0; 0; 0]%nat /\
  querySelector (dom pg) [0]%nat (SelClass "vote-count") = Some [0; 0; 1]%nat /\
  get (dom (voteButtonClick (fun _ => "") pg postDown)) [0; 2]%nat
  = get postWithComment [0; 2]%nat.
Proof. repeat split. Qed.

Lemma unscoredPost_pair : votePair unscoredPost [0]%nat upButton downButton.
Proof. split; try reflexivity. intros vc [= <-]. reflexivity. Qed.

Lemma vote_count_NaN_stays_witness :
  JS.parseInt (textAt unscoredPost counter) = JS.NaN /\
  textAt (dom (voteClicks (fun _ => "") (pageOf unscoredPost "")
                 [upButton; upButton; downButton])) counter
  = "NaN".
Proof.
  split; [reflexivity|].
  refine (vote_count_NaN_stays (fun _ => "") (pageOf unscoredPost "") [0]%nat upButton downButton
            counter upButton [upButton; downButton] unscoredPost_pair eq_refl eq_refl _).
  repeat (constructor; [first [left; reflexivity | right; reflexivity]|]). constructor.
Defined.

End VoteCountFacts.

(** ** Facts: cancelling a reply *)

Module ReplyCancelFacts.
Import Dom Page Main DomProps DomFacts ReplyProps ReplyFacts ReplyCancelProps Examples.

Lemma styleAt_setStyle_inert (p : path) (prop v : string) (d : node) :
  inert "" d (updElem p (setStyle prop v) d).
Proof. apply inert_updElem. intros e. apply sameBut_setStyle. Qed.

(** Cancel hides the form and leaves it in the document; the next click on
    the reply action shows it again, puts the focus in its textarea and
    changes no other element, so that what was typed is still there. *)
Theorem cancel_hides_reply_reopens (pg : page) (this c form : path) :
  replyOpen (dom pg) this c form ->
  let pg1 := cancelReplyClick form pg in
  styleAt (dom pg1) form "display" = "none" /\
  replyForms (dom pg1) c = [form] /\
  trace pg1 = trace pg /\
  exists pg2,
    commentActionClick pg1 this = Returns pg2 /\
    styleAt (dom pg2) form "display" = "block" /\
    replyForms (dom pg2) c = [form] /\
    (forall q, q ≠ form -> elemAt (dom pg2) q = elemAt (dom pg) q) /\
    (forall q, textAt (dom pg2) q = textAt (dom pg) q) /\
    (forall textarea,
        querySelector (dom pg) form (SelTag "textarea") = Some textarea ->
        trace pg2 = Focus textarea :: PreventDefault :: trace pg).
Proof.
  intros [Hc Hact Hform]. cbv zeta.
  assert (form ∈ replyForms (dom pg) c) as Hin by (rewrite Hform; apply list_elem_of_singleton; reflexivity).
  apply list_elem_of_filter in Hin as [Hm _]. apply matchesAt_elem in Hm as (e & He & _).
  set (d1 := updElem form (setStyle "display" "none") (dom pg)).
  assert (inert "" (dom pg) d1) as Hi by apply styleAt_setStyle_inert.
  assert (styleAt d1 form "display" = "none") as Hs1
      by (apply (styleAt_updElem_setStyle _ _ _ _ e He); discriminate).
  assert (replyForms d1 c = [form]) as Hf1
      by (unfold replyForms; rewrite (inert_querySelectorAll _ _ _ Hi) by reflexivity; exact Hform).
  split; [exact Hs1|]. split; [exact Hf1|]. split; [reflexivity|].
  set (d2 := updElem form (setStyle "display" "block") d1).
  assert (inert "" d1 d2) as Hi2 by apply styleAt_setStyle_inert.
  assert (is_Some (elemAt d1 form)) as [e1 He1] by (apply elemAt_updElem_Some; eauto).
  assert (querySelector d1 c (SelClass "reply-form") = Some form) as Hq
      by (unfold querySelector; fold (replyForms d1 c); rewrite Hf1; reflexivity).
  assert (forall sel, querySelector d2 form sel = querySelector (dom pg) form sel) as Hsame.
  { intros sel. unfold querySelector, querySelectorAll, d2, d1.
    rewrite !descendants_updElem. f_equal. apply list_filter_iff. intros q.
    unfold matchesAt. rewrite !elemAt_updElem.
    destruct (decide (q = form)) as [->|]; [|reflexivity].
    rewrite He. simpl. rewrite !matches_setStyle. reflexivity. }
  assert (exists pg2, commentActionClick (cancelReplyClick form pg) this = Returns pg2 /\
                      dom pg2 = d2 /\
                      forall textarea,
                        querySelector (dom pg) form (SelTag "textarea") = Some textarea ->
                        trace pg2 = Focus textarea :: PreventDefault :: trace pg)
    as (pg2 & Hret & Hd2 & Htr).
  { unfold commentActionClick, cancelReplyClick. simpl dom. fold d1.
    rewrite (inert_datasetAt _ _ _ Hi), Hact.
    rewrite (inert_closest _ _ _ Hi) by reflexivity. rewrite Hc.
    rewrite decide_True by reflexivity. rewrite Hq, Hs1.
    rewrite bool_decide_eq_true_2 by reflexivity. simpl negb. cbv iota. fold d2.
    rewrite (Hsame (SelTag "textarea")).
    destruct (querySelector (dom pg) form (SelTag "textarea")) as [ta|].
    - eexists. split; [reflexivity|]. split; [reflexivity|]. intros ? [= <-]. reflexivity.
    - eexists. split; [reflexivity|]. split; [reflexivity|]. discriminate. }
  exists pg2. split; [exact Hret|]. rewrite Hd2. repeat split.
  - apply (styleAt_updElem_setStyle _ _ _ _ e1 He1). discriminate.
  - unfold replyForms. rewrite (inert_querySelectorAll _ _ _ Hi2) by reflexivity. exact Hf1.
  - intros q Hq'. unfold d2, d1. rewrite !elemAt_updElem, !decide_False by exact Hq'. reflexivity.
  - intros q. unfold d2, d1. rewrite !textAt_updElem. reflexivity.
  - exact Htr.
Qed.

Lemma threadOpen_open : replyOpen (dom threadOpen) [0; 1; 0]%nat [0]%nat [0; 2]%nat.
Proof. split; reflexivity. Qed.

Lemma cancel_hides_reply_reopens_witness :
  replyOpen (dom threadOpen) [0; 1; 0]%nat [0]%nat [0; 2]%nat /\
  styleAt (dom (cancelReplyClick [0; 2]%nat threadOpen)) [0; 2]%nat "display" = "none".
Proof.
  split; [exact threadOpen_open|].
  exact (proj1 (cancel_hides_reply_reopens threadOpen _ _ _ threadOpen_open)).
Defined.

End ReplyCancelFacts.

(** ** Facts: the save action *)

Module SaveFacts.
Import Dom Page Main DomProps DomFacts SaveProps.

(** A click on a save action inside a post, whose label holds only text:
    the [saved] mark of the action is flipped; the icon, if there is one,
    is left with exactly the two classes of the new state, and the label,
    if there is one, with its word; one line is logged. *)
Theorem save_click_toggles (pg : page) (this post : path) (b : element) :
  elemAt (dom pg) this = Some b ->
  closest (dom pg) this (SelClass "post") = Some post ->
  datasetAt (dom pg) this "action" = Some "save" ->
  (forall t, querySelector (dom pg) this (SelTag "span") = Some t ->
             descendants (dom pg) t = []) ->
  let saved := negb (hasClass (dom pg) this "saved") in
  exists pg',
    postActionClick pg this = Returns pg' /\
    hasClass (dom pg') this "saved" = saved /\
    (forall i, querySelector (dom pg) this (SelTag "i") = Some i ->
               classList <$> elemAt (dom pg') i = Some (iconClasses saved)) /\
    (forall t, querySelector (dom pg) this (SelTag "span") = Some t ->
               textAt (dom pg') t = saveLabel saved) /\
    trace pg' = ConsoleLog (saveLog (datasetAt (dom pg) post "id") saved)
                  :: PreventDefault :: trace pg.
Proof.
  intros Hb Hpost Hact Hleaf. cbv zeta.
  set (d1 := updElem this (classToggle "saved") (dom pg)).
  assert (inert "saved" (dom pg) d1) as Hi by apply inert_updElem, sameBut_classToggle.
  assert (hasClass d1 this "saved" = negb (hasClass (dom pg) this "saved")) as Hflag.
  { unfold d1. rewrite hasClass_updElem, decide_True by reflexivity.
    unfold hasClass. rewrite Hb. rewrite contains_classToggle, decide_True by reflexivity.
    reflexivity. }
  set (saved := negb (hasClass (dom pg) this "saved")) in *.
  set (icon := querySelector (dom pg) this (SelTag "i")).
  set (text := querySelector (dom pg) this (SelTag "span")).
  set (d2 := match icon with
             | Some i => updElem i (setClasses [if saved then "fas" else "far"; "fa-bookmark"]) d1
             | None => d1
             end).
  set (d3 := match text with
             | Some t => setTextContent t (if saved then "Saved" else "Save") d2
             | None => d2
             end).
  assert (postActionClick pg this
          = Returns (emit (ConsoleLog (saveLog (datasetAt (dom pg) post "id") saved))
                          (withDom d3 (emit PreventDefault pg)))) as Hrun.
  { unfold postActionClick. simpl dom. rewrite Hact, Hpost.
    rewrite decide_False by discriminate. rewrite decide_False by discriminate.
    rewrite decide_True by reflexivity. fold d1. rewrite Hflag.
    rewrite !(inert_querySelector _ _ _ Hi) by reflexivity. reflexivity. }
  assert (forall q, (forall i, icon = Some i -> q ≠ i) -> elemAt d2 q = elemAt d1 q) as H21.
  { intros q Hq. unfold d2. destruct icon as [i|]; [|reflexivity].
    rewrite elemAt_updElem, decide_False by (apply Hq; reflexivity). reflexivity. }
  assert (forall q, is_Some (elemAt d2 q) <-> is_Some (elemAt (dom pg) q)) as Hsome.
  { intros q. rewrite <- (inert_elemAt_Some _ _ _ Hi q). unfold d2.
    destruct icon as [i|]; [|reflexivity]. rewrite elemAt_updElem.
    case_decide; [|reflexivity]. rewrite fmap_is_Some. reflexivity. }
  assert (forall q, elemAt d3 q = elemAt d2 q) as H32.
  { intros q. unfold d3. destruct text as [t|] eqn:Et; [|reflexivity].
    destruct (querySelector_Some _ _ _ _ Et) as [_ Hm].
    apply matchesAt_elem in Hm as (et & Het & _).
    assert (is_Some (elemAt d2 t)) as [et2 Het2] by (apply Hsome; eauto).
    apply (elemAt_setTextContent _ _ _ et2 Het2).
    unfold d2. destruct icon; unfold d1; rewrite ?descendants_updElem; apply Hleaf, Et. }
  exists (emit (ConsoleLog (saveLog (datasetAt (dom pg) post "id") saved))
               (withDom d3 (emit PreventDefault pg))).
  split; [exact Hrun|]. simpl dom. simpl trace. split; [|split; [|split]].
  - unfold hasClass. rewrite H32, H21; [exact Hflag|].
    intros i Ei Hq. destruct (querySelector_Some _ _ _ _ Ei) as [(r & Hr & Hne) _].
    subst i. apply Hne. apply (app_inv_head this). rewrite app_nil_r. congruence.
  - intros i Ei. rewrite H32. unfold d2. fold icon in Ei. rewrite Ei.
    rewrite elemAt_updElem, decide_True by reflexivity.
    destruct (querySelector_Some _ _ _ _ Ei) as [_ Hm].
    apply matchesAt_elem in Hm as (ei & Hei & _).
    assert (is_Some (elemAt d1 i)) as [ei1 ->] by (apply (inert_elemAt_Some _ _ _ Hi); eauto).
    reflexivity.
  - intros t Et. unfold d3. fold text in Et. rewrite Et.
    destruct (querySelector_Some _ _ _ _ Et) as [_ Hm].
    apply matchesAt_elem in Hm as (et & Het & _).
    assert (is_Some (elemAt d2 t)) as [et2 Het2] by (apply Hsome; eauto).
    rewrite (textAt_setTextContent _ _ _ et2 Het2). destruct saved; reflexivity.
  - reflexivity.
Qed.

Lemma save_click_toggles_witness :
  exists pg',
    postActionClick savePage [0; 0]%nat = Returns pg' /\
    hasClass (dom pg') [0; 0]%nat "saved" = true /\
    classList <$> elemAt (dom pg') [0; 0; 0]%nat = Some ["fas"; "fa-bookmark"] /\
    textAt (dom pg') [0; 0; 1]%nat = "Saved".
Proof.
  destruct (save_click_toggles savePage [0; 0]%nat [0]%nat
              (Element "a" ["post-action"] {[ "data-action" := "save" ]} ∅ "")
              eq_refl eq_refl eq_refl) as (pg' & Hrun & Hflag & Hicon & Htext & _).
  { intros t [= <-]. reflexivity. }
  exists pg'. split; [exact Hrun|]. split; [exact Hflag|].
  split; [apply Hicon; reflexivity | apply Htext; reflexivity].
Defined.

(** With the icon inside the label, the write of the label removes the
    icon: the label holds the word and nothing else. *)
Lemma save_click_icon_in_label :
  let pg := MkPage savePostIconInLabel "/" "" "https://example.org/" true [] in
  querySelector (dom pg) [0; 0]%nat (SelTag "i") = Some [0; 0; 0; 0]%nat /\
  exists pg',
    postActionClick pg [0; 0]%nat = Returns pg' /\
    get (dom pg') [0; 0; 0]%nat = Some (Elem (Element "span" [] ∅ ∅ "") [Text "Saved"]) /\
    elemAt (dom pg') [0; 0; 0; 0]%nat = None.
Proof. split; [reflexivity|]. eexists. repeat split. Qed.

End SaveFacts.

(** ** Facts: form submissions *)

Module FormsFacts.
Import Dom Page Main Forms JSProps FormsProps DomFacts UrlProps JSFacts UrlFacts Examples.

(** The search form is held back exactly when there is nothing to search
    for, no input named q or nothing but white space in it: the default
    action is prevented and the page stays as it is.  With anything else in
    the query the default action goes ahead, and the overlay is shown
    first. *)
Theorem search_submit_guard (pg : page) (this : path) :
  (nothingToSearch (dom pg) this -> searchFormSubmit pg this = emit PreventDefault pg) /\
  (~ nothingToSearch (dom pg) this ->
   searchFormSubmit pg this = Overlay.showSpinner "Searching..." pg).
Proof.
  unfold searchFormSubmit, nothingToSearch.
  destruct (queryBy (dom pg) this inputNamedQ) as [i|]; [|split; [reflexivity | tauto]].
  split; intros H.
  - rewrite decide_True by (apply trim_empty; exact H). reflexivity.
  - rewrite decide_False; [reflexivity|]. intros E. apply H, trim_empty, E.
Qed.

(** A query of blanks, of a no-break space and an ideographic space, and a
    query with blanks around it. *)
Lemma search_submit_examples :
  trace (searchFormSubmit (searchPage "   ") [0]%nat) = [PreventDefault] /\
  trace (searchFormSubmit (searchPage (utf8 160 ++ utf8 12288)) [0]%nat) = [PreventDefault] /\
  trace (searchFormSubmit (searchPage " AAPL ") [0]%nat) = [].
Proof. repeat split. Qed.

Lemma search_submit_guard_witness :
  nothingToSearch (dom (searchPage (utf8 160))) [0]%nat /\
  searchFormSubmit (searchPage (utf8 160)) [0]%nat = emit PreventDefault (searchPage (utf8 160)).
Proof.
  assert (nothingToSearch (dom (searchPage (utf8 160))) [0]%nat) as H.
  { exists [160%N]. split; [|reflexivity].
    constructor; [apply whiteSpace_elem; reflexivity | constructor]. }
  split; [exact H|]. exact (proj1 (search_submit_guard (searchPage (utf8 160)) [0]%nat) H).
Defined.

(** ** The filter select once more *)

Lemma setPair_twice (k v : string) (l : Url.params) :
  Url.setPair k v (Url.setPair k v l) = Url.setPair k v l.
Proof.
  induction l as [|[n x] l IH]; simpl.
  - rewrite String.eqb_refl. reflexivity.
  - destruct (String.eqb n k) eqn:E; simpl; rewrite E.
    + rewrite filter_others_twice. reflexivity.
    + rewrite IH. reflexivity.
Qed.

Lemma set_twice (k v : string) (l : Url.params) : Url.set k v (Url.set k v l) = Url.set k v l.
Proof. apply setPair_twice. Qed.

Lemma URLSearchParams_question (s : string) :
  Url.URLSearchParams ("?" ++ s) = Url.parseUrlencoded s.
Proof. reflexivity. Qed.

Lemma append_cancel (p a b : string) : p ++ a = p ++ b -> a = b.
Proof.
  induction p as [|c p IH]; intros H; [exact H|].
  rewrite !append_cons in H. injection H as H. apply IH, H.
Qed.

(** On the page a filter change leads to, the same choice leads to the same
    address again. *)
Theorem filter_change_again (pg pg' : page) (this : path) (url : string) :
  trace (filterSelectChange pg this) = Navigate url :: trace pg ->
  pathname pg' ++ search pg' = url ->
  pathname pg' = pathname pg ->
  elemAt (dom pg') this = elemAt (dom pg) this ->
  trace (filterSelectChange pg' this) = Navigate url :: trace pg'.
Proof.
  unfold filterSelectChange. simpl trace. simpl pathname. simpl search.
  intros [= Hurl] Hsearch Hpath Hsel. rewrite Hpath in *. rewrite Hsel.
  rewrite <- Hurl in Hsearch.
  assert (search pg' = "?" ++ Url.toString (Url.set (selectName (elemAt (dom pg) this))
                                               (selectValue (elemAt (dom pg) this))
                                               (Url.URLSearchParams (search pg)))) as Hs.
    by (apply (append_cancel (pathname pg)), Hsearch).
  rewrite Hs, URLSearchParams_question.
  rewrite parse_toString by (apply set_wellFormed, parseUrlencoded_wellFormed).
  rewrite set_twice, Hurl. reflexivity.
Qed.

Lemma filter_change_again_witness :
  trace (filterSelectChange (pageOf feed "?sort=top&page=2") [0]%nat)
  = [Navigate "/feed?sort=top&page=2"].
Proof.
  exact (filter_change_again (pageOf feed "?sort=new&page=2") (pageOf feed "?sort=top&page=2")
           [0]%nat "/feed?sort=top&page=2" eq_refl eq_refl eq_refl eq_refl).
Defined.

End FormsFacts.

(** ** Facts: relative dates *)

Module RelativeDateFacts.
Import JS Binary64Facts RelativeDate RelativeDateProps.

Lemma plural_Some (n : Z) : plural (Some n) = if (n =? 1)%Z then "" else "s".
Proof.
  unfold plural. destruct (Z.eqb_spec n 1) as [->|H].
  - rewrite decide_True by reflexivity. reflexivity.
  - rewrite decide_False by congruence. reflexivity.
Qed.

(** The age shown for a valid date that lies [ms] milliseconds before the
    clock: nothing but "just now" under a minute, and so for every date in
    the future; whole minutes from 1 to 59 under an hour, whole hours from 1
    to 23 under a day, whole days from 1 to 29 under thirty days, each
    rounded down; from thirty days on, and for an invalid date, the date as
    the host writes it. *)
Theorem relative_date_bands (parseDate : string -> option Z)
    (toLocaleDateString : option Z -> string) (now : Z) (dateString : string) :
  let shown := formatRelativeDate parseDate toLocaleDateString now dateString in
  (parseDate dateString = None -> shown = toLocaleDateString None) /\
  (forall t : Z, parseDate dateString = Some t ->
     let ms := (now - t)%Z in
     (ms < minute -> shown = "just now")%Z /\
     (minute <= ms < hour ->
        shown = ago (ms / minute) "minute" /\ 1 <= ms / minute <= 59)%Z /\
     (hour <= ms < day ->
        shown = ago (ms / hour) "hour" /\ 1 <= ms / hour <= 23)%Z /\
     (day <= ms < 30 * day ->
        shown = ago (ms / day) "day" /\ 1 <= ms / day <= 29)%Z /\
     (30 * day <= ms -> shown = toLocaleDateString (Some t))%Z).
Proof.
  cbv zeta. unfold formatRelativeDate. split.
  - intros ->. reflexivity.
  - intros t ->. simpl. unfold minute, hour, day, ago.
    set (ms := (now - t)%Z).
    assert (ms / 1000 / 60 = ms / 60000)%Z as Em by (rewrite Z.div_div by lia; reflexivity).
    assert (ms / 1000 / 60 / 60 = ms / 3600000)%Z as Eh
        by (rewrite Em, Z.div_div by lia; reflexivity).
    assert (ms / 1000 / 60 / 60 / 24 = ms / 86400000)%Z as Ed
        by (rewrite Eh, Z.div_div by lia; reflexivity).
    rewrite Ed, Eh, Em, !plural_Some.
    pose proof (Z.div_le_lower_bound ms 1000) as L1.
    pose proof (Z.div_lt_upper_bound ms 1000) as U1.
    assert (forall k c, 0 < k -> (ms / k <? c) = (ms <? k * c))%Z as Hlt.
    { intros k c Hk. destruct (Z.ltb_spec (ms / k) c) as [H|H];
        destruct (Z.ltb_spec ms (k * c)) as [H'|H']; try reflexivity; exfalso.
      - apply (Z.div_le_lower_bound ms k c Hk) in H'. lia.
      - apply (Z.div_lt_upper_bound ms k c Hk) in H'. lia. }
    rewrite (Hlt 1000%Z 60%Z), (Hlt 60000%Z 60%Z), (Hlt 3600000%Z 24%Z), (Hlt 86400000%Z 30%Z) by lia.
    change (1000 * 60)%Z with 60000%Z. change (60000 * 60)%Z with 3600000%Z.
    change (3600000 * 24)%Z with 86400000%Z. change (86400000 * 30)%Z with 2592000000%Z.
    assert (forall k, 0 < k -> k <= ms -> 1 <= ms / k)%Z as Hone
        by (intros k Hk H; apply Z.div_le_lower_bound; lia).
    assert (forall k c, 0 < k -> ms < k * c -> ms / k <= c - 1)%Z as Hup.
    { intros k c Hk H. apply (Z.div_lt_upper_bound ms k c Hk) in H. lia. }
    assert (forall n, 1 <= n -> (n <? 0) = false)%Z as Hpos by (intros n Hn; apply Z.ltb_ge; lia).
    repeat split.
    + intros H. destruct (Z.ltb_spec ms 60000); [reflexivity | lia].
    + destruct H as [H1 H2].
      destruct (Z.ltb_spec ms 60000); [lia|]. destruct (Z.ltb_spec ms 3600000); [|lia].
      rewrite (Hpos _ (Hone 60000%Z ltac:(lia) H1)). reflexivity.
    + apply Hone; lia.
    + apply (Hup 60000 60)%Z; lia.
    + destruct H as [H1 H2].
      destruct (Z.ltb_spec ms 60000); [lia|]. destruct (Z.ltb_spec ms 3600000); [lia|].
      destruct (Z.ltb_spec ms 86400000); [|lia].
      rewrite (Hpos _ (Hone 3600000%Z ltac:(lia) H1)). reflexivity.
    + apply Hone; lia.
    + apply (Hup 3600000 24)%Z; lia.
    + destruct H as [H1 H2].
      destruct (Z.ltb_spec ms 60000); [lia|]. destruct (Z.ltb_spec ms 3600000); [lia|].
      destruct (Z.ltb_spec ms 86400000); [lia|]. destruct (Z.ltb_spec ms 2592000000); [|lia].
      rewrite (Hpos _ (Hone 86400000%Z ltac:(lia) H1)). reflexivity.
    + apply Hone; lia.
    + apply (Hup 86400000 30)%Z; lia.
    + intros H.
      destruct (Z.ltb_spec ms 60000); [lia|]. destruct (Z.ltb_spec ms 3600000); [lia|].
      destruct (Z.ltb_spec ms 86400000); [lia|]. destruct (Z.ltb_spec ms 2592000000); [lia|].
      reflexivity.
Qed.

(** Ninety seconds, ninety minutes and thirty-six hours before the clock,
    and one second after it. *)
Lemma relative_date_examples :
  let shown t := formatRelativeDate (fun _ => Some t) (fun _ => "1/1/2026") 1000000000 "" in
  shown 999910000%Z = "1 minute ago" /\
  shown 994600000%Z = "1 hour ago" /\
  shown 870400000%Z = "1 day ago" /\
  shown 740800000%Z = "3 days ago" /\
  shown 1000001000%Z = "just now".
Proof. repeat split. Qed.

Lemma relative_date_bands_witness :
  formatRelativeDate (fun _ => Some 999910000%Z) (fun _ => "1/1/2026") 1000000000 ""
  = "1 minute ago".
Proof.
  pose proof (relative_date_bands (fun _ => Some 999910000%Z) (fun _ => "1/1/2026")
                1000000000 "") as [_ H].
  destruct (H 999910000%Z eq_refl) as (_ & Hminute & _).
  exact (proj1 (Hminute ltac:(unfold minute, hour; lia))).
Defined.

(** ** The quotients in binary64 *)

Lemma floor_div_whole (v k E : Z) :
  (0 < k)%Z -> (0 <= E <= 52)%Z ->
  (2 ^ 53 <= k * 2 ^ (E + 1))%Z ->
  (inject_Z k * 2 ^ (E - 53) < 1)%Q ->
  (- 2 ^ 53 < v < 2 ^ 53)%Z ->
  floor (div (Fin (inject_Z v)) (Fin (inject_Z k))) = Fin (inject_Z (v / k)).
Proof.
  intros Hk HE Hcap Hstep Hv.
  assert (- (k * 2 ^ (E + 1)) < v < k * 2 ^ (E + 1))%Z as Hn.
  { revert Hcap Hv. generalize (k * 2 ^ (E + 1))%Z (2 ^ 53)%Z. intros; lia. }
  destruct (floor_of_quotient v k E Hk HE Hn Hstep) as (r & -> & <-).
  reflexivity.
Qed.

Lemma quotient_in_range (v k : Z) :
  (0 < k)%Z -> (- 2 ^ 53 < v < 2 ^ 53)%Z -> (- 2 ^ 53 < v / k < 2 ^ 53)%Z.
Proof.
  assert (0 < 2 ^ 53)%Z as HP by reflexivity. revert HP.
  generalize (2 ^ 53)%Z. intros P HP Hk [Hlo Hhi]. split.
  - assert (- P + 1 <= v / k)%Z; [|lia].
    apply Z.div_le_lower_bound; [exact Hk|]. nia.
  - apply Z.div_lt_upper_bound; [exact Hk|]. nia.
Qed.

(** The four quotients of [formatRelativeDate] as the language computes
    them: when the difference of the two time values is below 2^53 in
    magnitude, as it is for the clock and any valid date, no rounding of a
    quotient reaches the next whole number, and [Math.floor] of each is the
    integer quotient rounded down that [floorDiv] takes. *)
Theorem relative_date_quotients_exact (diffMs : Z) :
  (- 2 ^ 53 < diffMs < 2 ^ 53)%Z ->
  let quotient (x : number) (k : Q) := floor (div x (Fin k)) in
  let whole (x : option Z) := from_option (fun v => Fin (inject_Z v)) NaN x in
  let diffSeconds := quotient (Fin (inject_Z diffMs)) 1000%Q in
  let diffMinutes := quotient diffSeconds 60%Q in
  let diffHours := quotient diffMinutes 60%Q in
  let diffDays := quotient diffHours 24%Q in
  diffSeconds = whole (floorDiv (Some diffMs) 1000) /\
  diffMinutes = whole (floorDiv (floorDiv (Some diffMs) 1000) 60) /\
  diffHours = whole (floorDiv (floorDiv (floorDiv (Some diffMs) 1000) 60) 60) /\
  diffDays = whole (floorDiv (floorDiv (floorDiv (floorDiv (Some diffMs) 1000) 60) 60) 24).
Proof.
  intros Hms. cbv zeta. unfold floorDiv. cbn [fmap option_fmap option_map from_option].
  pose proof (quotient_in_range diffMs 1000 ltac:(lia) Hms) as Hs.
  pose proof (quotient_in_range _ 60 ltac:(lia) Hs) as Hm.
  pose proof (quotient_in_range _ 60 ltac:(lia) Hm) as Hh.
  assert (forall v, (- 2 ^ 53 < v < 2 ^ 53)%Z ->
            floor (div (Fin (inject_Z v)) (Fin 1000%Q)) = Fin (inject_Z (v / 1000))) as K1000.
  { intros v Hv. apply (floor_div_whole v 1000 43); [lia | lia | vm_compute; discriminate | reflexivity | exact Hv]. }
  assert (forall v, (- 2 ^ 53 < v < 2 ^ 53)%Z ->
            floor (div (Fin (inject_Z v)) (Fin 60%Q)) = Fin (inject_Z (v / 60))) as K60.
  { intros v Hv. apply (floor_div_whole v 60 47); [lia | lia | vm_compute; discriminate | reflexivity | exact Hv]. }
  assert (forall v, (- 2 ^ 53 < v < 2 ^ 53)%Z ->
            floor (div (Fin (inject_Z v)) (Fin 24%Q)) = Fin (inject_Z (v / 24))) as K24.
  { intros v Hv. apply (floor_div_whole v 24 48); [lia | lia | vm_compute; discriminate | reflexivity | exact Hv]. }
  rewrite (K1000 _ Hms), (K60 _ Hs), (K60 _ Hm), (K24 _ Hh). repeat split.
Qed.

(** A date ninety minutes before the clock. *)
Lemma relative_date_quotients_exact_witness :
  JS.floor (JS.div (JS.Fin (inject_Z 5400000)) (JS.Fin 1000%Q)) = JS.Fin (inject_Z 5400).
Proof.
  exact (proj1 (relative_date_quotients_exact 5400000 ltac:(split; reflexivity))).
Defined.

End RelativeDateFacts.

(** ** Facts: number formatting *)

Module FormatFacts.
Import JS Format FormatProps Binary64Facts.

Lemma geb_int (n k : Z) : geb (Fin (inject_Z n)) (Fin (inject_Z k)) = (k <=? n)%Z.
Proof.
  simpl. destruct (Z.leb_spec k n) as [H|H].
  - apply Qle_bool_iff. rewrite <- Zle_Qle. exact H.
  - destruct (Qle_bool (inject_Z k) (inject_Z n)) eqn:E; [|reflexivity].
    apply Qle_bool_iff in E. rewrite <- Zle_Qle in E. lia.
Qed.

(** An integer [n] divided by [d = 20 h] and fixed to one decimal place:
    the tenths shown are as near as tenths can be, when the quotient is
    below [2^(E+1)] and the rounding step at that size is small against
    [1 / d]. *)
Lemma toFixed_div_near (big : Q -> string) (n h E : Z) :
  (0 < h)%Z -> (20 * h <= n)%Z ->
  (inject_Z n < inject_Z (20 * h) * 2 ^ (E + 1))%Q ->
  (-1022 <= E <= 60)%Z ->
  (inject_Z (20 * h) * 2 ^ (E - 53) < 1)%Q ->
  exists N : Z,
    toFixed big 1 (div (Fin (inject_Z n)) (Fin (inject_Z (20 * h)))) = tenths N /\
    (- h <= n - 2 * h * N <= h)%Z.
Proof.
  intros Hh Hn Hlt HE Hstep.
  set (D := inject_Z (20 * h)) in *. set (nQ := inject_Z n) in *.
  assert (0 < D)%Q as HD by (unfold D; rewrite <- (Zlt_Qlt 0); lia).
  assert (20 <= D)%Q as HD20 by (unfold D; rewrite <- (Zle_Qle 20); lia).
  assert (D <= nQ)%Q as HDn by (unfold D, nQ; rewrite <- Zle_Qle; exact Hn).
  assert (~ D == 0)%Q as HD0 by (intros C; rewrite C in HD; discriminate HD).
  set (x := (nQ / D)%Q).
  assert (x * D == nQ)%Q as HxD by (unfold x; field; exact HD0).
  assert (0 < x)%Q as Hx0.
  { unfold x. apply Qlt_shift_div_l; [exact HD|]. lra. }
  assert (x < 2 ^ (E + 1))%Q as HxE.
  { unfold x. apply Qlt_shift_div_r; [exact HD|]. lra. }
  destruct (binary64_near x E Hx0 HxE ltac:(lia)) as (r & Hr & Hlo & Hhi).
  set (eps := (2 ^ (E - 53))%Q) in *.
  assert (0 < eps)%Q as Heps by apply two_pos.
  assert (nQ - 1 < r * D /\ r * D < nQ + 1)%Q as [HR1 HR2].
  { assert ((x - eps) * D <= r * D)%Q as A1 by (apply Qmult_le_compat_r; lra).
    assert (r * D <= (x + eps) * D)%Q as A2 by (apply Qmult_le_compat_r; lra).
    assert ((x - eps) * D == nQ - D * eps)%Q as B1 by (rewrite <- HxD; ring).
    assert ((x + eps) * D == nQ + D * eps)%Q as B2 by (rewrite <- HxD; ring).
    lra. }
  assert (0 < r)%Q as Hr0.
  { destruct (Qlt_le_dec 0 r) as [H|H]; [exact H|]. exfalso.
    assert (r * D <= 0 * D)%Q as A by (apply Qmult_le_compat_r; lra). lra. }
  assert (r < inject_Z (10 ^ 21))%Q as Hr21.
  { assert (eps <= 2 ^ 7)%Q as A by (apply Qpower_le_compat_l; [lia | discriminate]).
    assert (2 ^ (E + 1) <= 2 ^ 61)%Q as B by (apply Qpower_le_compat_l; [lia | discriminate]).
    assert (2 ^ 61 + 2 ^ 7 < inject_Z (10 ^ 21))%Q as C by reflexivity.
    lra. }
  unfold div. replace (Qeq_bool D 0) with false.
  2:{ symmetry. destruct (Qeq_bool D 0) eqn:C; [|reflexivity].
      apply Qeq_bool_iff in C. contradiction. }
  fold x. rewrite Hr.
  rewrite (JSFacts.toFixed_one big r).
  2:{ apply Qle_bool_iff. lra. }
  2:{ destruct (Qle_bool (inject_Z (10 ^ 21)) r) eqn:C; [|reflexivity].
      apply Qle_bool_iff in C. lra. }
  set (N := Qfloor (r * inject_Z 10 + (1 # 2))).
  exists N. split; [reflexivity|].
  pose proof (Qfloor_le (r * inject_Z 10 + (1 # 2))) as F1.
  pose proof (Qlt_floor (r * inject_Z 10 + (1 # 2))) as F2.
  fold N in F1, F2. rewrite inject_Z_plus in F2.
  change (inject_Z 1) with 1%Q in F2. change (inject_Z 10) with 10%Q in F1, F2.
  assert (inject_Z N * D <= (r * 10 + (1 # 2)) * D)%Q as G1
      by (apply Qmult_le_compat_r; lra).
  assert ((r * 10 + (1 # 2)) * D <= (inject_Z N + 1) * D)%Q as G2
      by (apply Qmult_le_compat_r; lra).
  assert (~ (r * 10 + (1 # 2)) * D == (inject_Z N + 1) * D)%Q as G3.
  { intros C. apply Qmult_inj_r in C; [lra | exact HD0]. }
  assert ((r * 10 + (1 # 2)) * D == 10 * (r * D) + (1 # 2) * D)%Q as G4 by ring.
  assert (D == 20 * inject_Z h)%Q as HDh by (unfold D; rewrite inject_Z_mult; reflexivity).
  assert (inject_Z N * D == 20 * inject_Z (h * N))%Q as K1
      by (rewrite HDh, inject_Z_mult; ring).
  assert (forall a b : Z, inject_Z (a - b) == inject_Z a - inject_Z b)%Q as Hsub.
  { intros a b. unfold Z.sub. rewrite inject_Z_plus, inject_Z_opp. reflexivity. }
  assert (inject_Z (2 * h * N) == 2 * inject_Z (h * N))%Q as H2
      by (rewrite <- Z.mul_assoc, inject_Z_mult; reflexivity).
  assert (2 * h * N - h < n + 1)%Z as Z1.
  { rewrite Zlt_Qlt, Hsub, inject_Z_plus, H2. change (inject_Z 1) with 1%Q. fold nQ. lra. }
  assert (n - 1 < 2 * h * N + h)%Z as Z2.
  { rewrite Zlt_Qlt, Hsub, inject_Z_plus, H2. change (inject_Z 1) with 1%Q. fold nQ.
    assert ((inject_Z N + 1) * D == 20 * inject_Z (h * N) + D)%Q as K2 by (rewrite <- K1; ring).
    assert (10 * (r * D) + (1 # 2) * D < (inject_Z N + 1) * D)%Q as K3.
    { rewrite <- G4. apply Qle_lteq in G2 as [G2|G2]; [exact G2 | contradiction]. }
    lra. }
  split; lia.
Qed.

(** [formatNumber] on a whole number [n].  Below 1000, negative numbers
    included, it is [n] itself.  From 1000 to 999999 it is a number of
    tenths of a thousand followed by k, and from a million up to 2^53 a
    number of tenths of a million followed by m, in both cases as near to
    [n] as tenths can be: the nearest one, and one of the two nearest when
    [n] lies halfway.  So the last forty-nine numbers below a million read
    1000.0k. *)
Theorem formatNumber_rounds (big : Q -> string) (n : Z) :
  let shown := formatNumber big (Fin (inject_Z n)) in
  ((n < 1000)%Z -> shown = inr (Fin (inject_Z n))) /\
  ((1000 <= n < 1000000)%Z ->
     exists k : Z, shown = inl (tenths k ++ "k") /\
                   (-50 <= n - 100 * k <= 50)%Z /\
                   (n mod 100 <> 50 -> k = (n + 50) / 100)%Z) /\
  ((999950 < n < 1000000)%Z -> shown = inl "1000.0k") /\
  ((1000000 <= n < 2 ^ 53)%Z ->
     exists k : Z, shown = inl (tenths k ++ "m") /\
                   (-50000 <= n - 100000 * k <= 50000)%Z /\
                   (n mod 100000 <> 50000 -> k = (n + 50000) / 100000)%Z).
Proof.
  cbv zeta. unfold formatNumber.
  change (Fin 1000000) with (Fin (inject_Z 1000000)).
  change (Fin 1000) with (Fin (inject_Z 1000)). rewrite !geb_int.
  assert ((1000 <= n < 1000000)%Z ->
          exists k : Z,
            toFixed big 1 (div (Fin (inject_Z n)) (Fin (inject_Z 1000))) = tenths k /\
            (-50 <= n - 100 * k <= 50)%Z) as Hk.
  { intros Hn.
    destruct (toFixed_div_near big n 50 9) as (k & Hs & Hb); try lia.
    - change (inject_Z (20 * 50) * 2 ^ (9 + 1))%Q with (inject_Z 1024000).
      rewrite <- Zlt_Qlt. lia.
    - reflexivity.
    - exists k. split; [exact Hs | lia]. }
  split; [|split; [|split]].
  - intros Hn. destruct (Z.leb_spec 1000000 n); [lia|]. destruct (Z.leb_spec 1000 n); [lia|].
    reflexivity.
  - intros Hn. destruct (Z.leb_spec 1000000 n); [lia|]. destruct (Z.leb_spec 1000 n); [|lia].
    destruct (Hk Hn) as (k & -> & Hb). exists k. split; [reflexivity|]. split; [exact Hb|].
    intros Hmod. pose proof (Z.div_mod n 100). pose proof (Z.mod_pos_bound n 100).
    apply Z.div_unique with (r := (n + 50 - 100 * k)%Z); lia.
  - intros Hn. destruct (Z.leb_spec 1000000 n); [lia|]. destruct (Z.leb_spec 1000 n); [|lia].
    destruct (Hk ltac:(lia)) as (k & -> & Hb).
    assert (k = 10000%Z) as -> by lia. reflexivity.
  - intros Hn. destruct (Z.leb_spec 1000000 n); [|lia].
    destruct (toFixed_div_near big n 50000 33) as (k & Hs & Hb); try lia.
    + change (inject_Z (20 * 50000) * 2 ^ (33 + 1))%Q with (inject_Z (1000000 * 2 ^ 34)).
      rewrite <- Zlt_Qlt. lia.
    + reflexivity.
    + change (inject_Z (20 * 50000)) with (inject_Z 1000000) in Hs. rewrite Hs.
      exists k. split; [reflexivity|]. split; [lia|].
      intros Hmod. pose proof (Z.div_mod n 100000). pose proof (Z.mod_pos_bound n 100000).
      apply Z.div_unique with (r := (n + 50000 - 100000 * k)%Z); lia.
Qed.

Lemma formatNumber_rounds_witness :
  formatNumber (fun _ => "") (Fin (inject_Z 1500)) = inl "1.5k".
Proof.
  destruct (formatNumber_rounds (fun _ => "") 1500) as (_ & H & _).
  destruct (H ltac:(lia)) as (k & Hs & _ & Hk).
  rewrite Hs, (Hk ltac:(discriminate)). reflexivity.
Defined.

(** The examples of the specification, and numbers that lie halfway. *)
Lemma formatNumber_examples :
  let shown n := formatNumber (fun _ => "") (Fin (inject_Z n)) in
  shown 999%Z = inr (Fin 999) /\
  shown 1000%Z = inl "1.0k" /\
  shown 1500000%Z = inl "1.5m" /\
  shown 1150%Z = inl "1.1k" /\
  shown 1250%Z = inl "1.3k" /\
  shown 999999%Z = inl "1000.0k" /\
  shown (-5000)%Z = inr (Fin (-5000)).
Proof. vm_compute. repeat split. Qed.

End FormatFacts.

(** ** Facts: formatted numbers read back *)

Module FormattedCountFacts.
Import JS JSProps Binary64Facts JSFacts Format FormatProps FormatFacts.

(** Reading stops at the first byte that is no digit. *)
Lemma readDigits_uint_then (d : Decimal.uint) (a : Z) (c : ascii) (rest : string) :
  digitValue c = None ->
  readDigits 10 (NilEmpty.string_of_uint d ++ String c rest) (Some a) = Some (uval d a).
Proof.
  intros Hc. revert a.
  induction d as [|d IH|d IH|d IH|d IH|d IH|d IH|d IH|d IH|d IH|d IH]; intros a;
    [cbn [NilEmpty.string_of_uint]; rewrite append_nil; cbn [readDigits]; rewrite Hc; reflexivity | ..];
    (cbn [NilEmpty.string_of_uint]; rewrite append_cons; cbn [readDigits];
     match goal with
     | |- context [digitValue ?x] =>
         let v := eval vm_compute in (digitValue x) in change (digitValue x) with v
     end;
     cbn beta iota; change (_ <? 10)%Z with true; cbn beta iota;
     rewrite IH; cbn [uval]; f_equal; f_equal; lia).
Qed.

Lemma readDigits_start_then (d : Decimal.uint) (rest : string) :
  d <> Decimal.Nil ->
  readDigits 10 (NilEmpty.string_of_uint d ++ rest) None
  = readDigits 10 (NilEmpty.string_of_uint d ++ rest) (Some 0%Z).
Proof.
  destruct d; [contradiction | ..]; intros _;
    cbn [NilEmpty.string_of_uint]; rewrite append_cons; reflexivity.
Qed.

(** [parseInt] reads the whole part of a number written with a point. *)
Lemma parseInt_point (n : Z) (rest : string) :
  (0 <= n)%Z -> parseInt (digits n ++ "." ++ rest) = binary64 (inject_Z n).
Proof.
  intros Hn. rewrite digits_string. set (d := N.to_uint (Z.to_N n)).
  assert (d <> Decimal.Nil) as Hd by apply to_uint_nonnil.
  pose proof (readDigits_uint_then d 0 "." rest eq_refl) as Hr.
  assert (uval d 0 = n) as Hv by (apply digits_uval; exact Hn).
  change ("." ++ rest) with (String "." rest).
  rewrite <- (readDigits_start_then d _ Hd) in Hr. rewrite Hv in Hr. clear Hv.
  destruct d as [|d|d|d|d|d|d|d|d|d|d]; [contradiction | ..];
    (destruct d as [|d|d|d|d|d|d|d|d|d|d];
     (unfold parseInt; cbn [NilEmpty.string_of_uint] in *; rewrite ?append_cons, ?append_nil in *;
      cbn [trimStart];
      match goal with
      | |- context [isByteSpace ?x] => change (isByteSpace x) with false
      end;
      cbv beta iota; rewrite Hr; do 2 f_equal; lia)).
Qed.

Lemma parseInt_tenths (k : Z) (suffix : string) :
  (0 <= k)%Z -> parseInt (tenths k ++ suffix) = binary64 (inject_Z (k / 10)).
Proof.
  intros Hk. unfold tenths. rewrite !append_assoc.
  apply parseInt_point. apply Z.div_pos; lia.
Qed.

(** [parseInt], by which the vote handler reads a counter, takes a number
    that [formatNumber] has formatted for its whole part: for a whole number
    [n] from 1000 up, the text shown reads as an integer of at least 1 and
    at most about a thousandth of [n]. *)
Theorem formatted_count_reads_short (big : Q -> string) (n : Z) :
  (1000 <= n < 2 ^ 53)%Z ->
  exists (s : string) (v : Z),
    formatNumber big (Fin (inject_Z n)) = inl s /\
    parseInt s = Fin (inject_Z v) /\
    (1 <= v)%Z /\ (1000 * v <= n + 50)%Z.
Proof.
  intros Hn. unfold formatNumber.
  change (Fin 1000000) with (Fin (inject_Z 1000000)).
  change (Fin 1000) with (Fin (inject_Z 1000)). rewrite !geb_int.
  destruct (Z.leb_spec 1000000 n) as [Hm|Hm].
  - destruct (toFixed_div_near big n 50000 33) as (k & Hs & Hb); try lia.
    + change (inject_Z (20 * 50000) * 2 ^ (33 + 1))%Q with (inject_Z (1000000 * 2 ^ 34)).
      rewrite <- Zlt_Qlt. lia.
    + reflexivity.
    + change (inject_Z (20 * 50000)) with (inject_Z 1000000) in Hs. rewrite Hs.
      exists (tenths k ++ "m"), (k / 10)%Z. split; [reflexivity|].
      pose proof (Z.div_mod k 10). pose proof (Z.mod_pos_bound k 10).
      split; [|lia]. rewrite parseInt_tenths by lia. apply binary64_whole. lia.
  - destruct (Z.leb_spec 1000 n); [|lia].
    destruct (toFixed_div_near big n 50 9) as (k & Hs & Hb); try lia.
    + change (inject_Z (20 * 50) * 2 ^ (9 + 1))%Q with (inject_Z 1024000).
      rewrite <- Zlt_Qlt. lia.
    + reflexivity.
    + change (inject_Z (20 * 50)) with (inject_Z 1000) in Hs. rewrite Hs.
      exists (tenths k ++ "k"), (k / 10)%Z. split; [reflexivity|].
      pose proof (Z.div_mod k 10). pose proof (Z.mod_pos_bound k 10).
      split; [|lia]. rewrite parseInt_tenths by lia. apply binary64_whole. lia.
Qed.

Lemma formatted_count_reads_short_witness :
  exists (s : string) (v : Z),
    formatNumber (fun _ => "") (Fin (inject_Z 1500)) = inl s /\
    parseInt s = Fin (inject_Z v) /\ (1 <= v)%Z /\ (1000 * v <= 1500 + 50)%Z.
Proof.
  apply (formatted_count_reads_short (fun _ => "") 1500). split; [lia | reflexivity].
Defined.

End FormattedCountFacts.

(** ** Facts: the overlay *)

Module OverlayFacts.
Import Dom Page Main Overlay OverlayInit OverlayProps DomProps DomFacts.

(** ** How many elements a selector finds *)

Lemma docQuerySelector_None (d : node) (sel : selector) :
  docQuerySelector d sel = None <-> countSel sel d = 0%nat.
Proof.
  unfold docQuerySelector. rewrite <- count_elemPaths.
  destruct (filter _ (elemPaths d)); simpl; split; (discriminate || reflexivity).
Qed.

Lemma countSel_insertBeforeEnd (sel : selector) (new : list node) (e : element) (ks : list node) :
  countSel sel (insertBeforeEnd new (Elem e ks))
  = (countSel sel (Elem e ks) + sum_list (map (countSel sel) new))%nat.
Proof. simpl. rewrite map_app, sum_list_append. lia. Qed.

(** Creating the overlay leaves the document with an overlay: one is added
    to a document that has none, and a document that has one is left as it
    is, so that creating it again changes nothing. *)
Theorem overlay_created_once (pg : page) :
  is_Some (rootElem (dom pg)) ->
  let pg' := createOverlay pg in
  countSel overlaySel (dom pg') = Nat.max 1 (countSel overlaySel (dom pg)) /\
  countSel messageSel (dom pg') = (countSel messageSel (dom pg)
                                  + if decide (countSel overlaySel (dom pg) = 0%nat) then 1 else 0)%nat /\
  is_Some (docQuerySelector (dom pg') overlaySel) /\
  createOverlay pg' = pg'.
Proof.
  intros [e He]. cbv zeta. unfold createOverlay. fold overlaySel.
  destruct (docQuerySelector (dom pg) overlaySel) as [o|] eqn:E.
  - assert (countSel overlaySel (dom pg) ≠ 0%nat) as Hc.
    { intros H. apply docQuerySelector_None in H. congruence. }
    rewrite E. rewrite decide_False by exact Hc. repeat split; [lia | lia | eauto].
  - pose proof (proj1 (docQuerySelector_None _ _) E) as Hc.
    destruct (dom pg) as [s|e' ks] eqn:Ed; [discriminate|].
    simpl dom.
    change (Elem e' (ks ++ spinnerHTML)) with (insertBeforeEnd spinnerHTML (Elem e' ks)).
    rewrite !countSel_insertBeforeEnd, Hc. rewrite decide_True by reflexivity.
    assert (docQuerySelector (insertBeforeEnd spinnerHTML (Elem e' ks)) overlaySel ≠ None) as Hn.
    { intros H. apply docQuerySelector_None in H.
      rewrite countSel_insertBeforeEnd, Hc in H. discriminate H. }
    destruct (docQuerySelector (insertBeforeEnd spinnerHTML (Elem e' ks)) overlaySel) eqn:E';
      [|contradiction].
    repeat split; eauto.
Qed.

Lemma overlay_created_once_witness :
  is_Some (rootElem (dom plainPage)) /\
  countSel overlaySel (dom (createOverlay plainPage)) = 1%nat.
Proof.
  assert (is_Some (rootElem (dom plainPage))) as H by (eexists; reflexivity).
  split; [exact H|]. exact (proj1 (overlay_created_once plainPage H)).
Defined.

(** ** Showing and hiding *)

Lemma styleAt_updElem_unset (p : path) (prop : string) (d : node) :
  styleAt (updElem p (setStyle prop "") d) p prop = "".
Proof.
  unfold styleAt. rewrite elemAt_updElem, decide_True by reflexivity.
  destruct (elemAt d p) as [e|]; [|reflexivity]. simpl.
  unfold styleOf, setStyle; simpl. rewrite lookup_delete_eq. reflexivity.
Qed.

Lemma root_of_match (d : node) (sel : selector) (q : path) :
  matchesAt d sel q = true -> is_Some (elemAt d []).
Proof.
  intros H. apply matchesAt_elem in H as (e & He & _).
  destruct d as [s|e0 ks]; [rewrite elemAt_Text in He; discriminate|].
  eexists. reflexivity.
Qed.

Lemma docQuerySelector_Some (d : node) (sel : selector) (q : path) :
  docQuerySelector d sel = Some q -> matchesAt d sel q = true.
Proof.
  unfold docQuerySelector. intros H. apply head_Some_elem_of in H.
  apply list_elem_of_filter in H. tauto.
Qed.

Lemma inert_docQuerySelector (c : string) (d d' : node) (sel : selector) :
  inert c d d' -> mentions c sel = false ->
  docQuerySelector d' sel = docQuerySelector d sel.
Proof.
  intros Hi Hm. unfold docQuerySelector. rewrite <- !subPaths_nil.
  rewrite (proj1 Hi). f_equal. apply list_filter_iff. intros q.
  rewrite (inert_matchesAt _ _ _ Hi) by exact Hm. reflexivity.
Qed.

(** The document that [showSpinner] leaves, given what it finds. *)
Lemma showSpinner_dom (message : string) (pg : page) (o m : path) :
  docQuerySelector (dom pg) overlaySel = Some o ->
  docQuerySelector (dom pg) messageSel = Some m ->
  dom (showSpinner message pg)
  = updElem [] (setStyle "overflow" "hidden")
      (updElem o (classAdd "active") (setTextContent m message (dom pg))).
Proof.
  intros Ho Hm. unfold showSpinner. fold overlaySel messageSel. rewrite Ho, Hm. reflexivity.
Qed.

Lemma hideSpinner_dom (pg : page) (o : path) :
  docQuerySelector (dom pg) overlaySel = Some o ->
  dom (hideSpinner pg)
  = updElem [] (setStyle "overflow" "") (updElem o (classRemove "active") (dom pg)).
Proof. intros Ho. unfold hideSpinner. fold overlaySel. rewrite Ho. reflexivity. Qed.

Lemma hideSpinner_inert (pg : page) : inert "active" (dom pg) (dom (hideSpinner pg)).
Proof.
  unfold hideSpinner. simpl dom.
  eapply inert_trans; [|apply inert_updElem; intros e; apply sameBut_setStyle].
  destruct (docQuerySelector (dom pg) (SelClass "spinner-overlay"));
    [apply inert_updElem, sameBut_classRemove | apply inert_refl].
Qed.

Lemma hideSpinner_textAt (pg : page) (q : path) :
  textAt (dom (hideSpinner pg)) q = textAt (dom pg) q.
Proof.
  unfold hideSpinner. simpl dom. rewrite textAt_updElem.
  destruct (docQuerySelector (dom pg) (SelClass "spinner-overlay"));
    [apply textAt_updElem | reflexivity].
Qed.

(** Whatever the document, [hideSpinner] leaves the spinner off. *)
Lemma hideSpinner_off (pg : page) : spinnerOff (dom (hideSpinner pg)).
Proof.
  pose proof (hideSpinner_inert pg) as Hi.
  split; [|apply styleAt_updElem_unset].
  intros o Ho. rewrite (inert_docQuerySelector _ _ _ _ Hi) in Ho by reflexivity.
  rewrite (hideSpinner_dom _ o Ho).
  set (d1 := updElem o (classRemove "active") (dom pg)).
  assert (hasClass d1 o "active" = false) as H1.
  { unfold d1. rewrite hasClass_updElem, decide_True by reflexivity.
    destruct (elemAt (dom pg) o); [|reflexivity].
    rewrite contains_classRemove, decide_True by reflexivity. reflexivity. }
  rewrite hasClass_updElem. case_decide as Hroot; [|exact H1].
  subst o. unfold hasClass in H1. destruct (elemAt d1 []); [|reflexivity].
  rewrite contains_setStyle. exact H1.
Qed.

(** What [showSpinner] leaves, with an overlay and a message element that
    holds only text in the document. *)
Lemma showSpinner_shown (message : string) (pg : page) (o m : path) :
  docQuerySelector (dom pg) overlaySel = Some o ->
  docQuerySelector (dom pg) messageSel = Some m ->
  descendants (dom pg) m = [] ->
  let shown := showSpinner message pg in
  hasClass (dom shown) o "active" = true /\
  textAt (dom shown) m = message /\
  styleAt (dom shown) [] "overflow" = "hidden" /\
  inert "active" (dom pg) (dom shown).
Proof.
  intros Ho Hm Hleaf. cbv zeta.
  pose proof (docQuerySelector_Some _ _ _ Ho) as Hmo.
  pose proof (docQuerySelector_Some _ _ _ Hm) as Hmm.
  destruct (root_of_match _ _ _ Hmo) as [body Hbody].
  destruct (matchesAt_elem _ _ _ Hmo) as (eo & Heo & _).
  destruct (matchesAt_elem _ _ _ Hmm) as (em & Hem & _).
  set (d1 := setTextContent m message (dom pg)).
  set (d2 := updElem o (classAdd "active") d1).
  set (d3 := updElem [] (setStyle "overflow" "hidden") d2).
  assert (dom (showSpinner message pg) = d3) as Hshown by apply (showSpinner_dom _ _ _ _ Ho Hm).
  assert (inert "active" (dom pg) d1) as Hi1 by apply (inert_setTextContent _ _ _ _ em Hem Hleaf).
  assert (inert "active" d1 d2) as Hi2 by apply inert_updElem, sameBut_classAdd.
  assert (inert "active" d2 d3) as Hi3 by (apply inert_updElem; intros e; apply sameBut_setStyle).
  assert (inert "active" (dom pg) d3) as Hi
      by exact (inert_trans _ _ _ _ Hi1 (inert_trans _ _ _ _ Hi2 Hi3)).
  assert (is_Some (elemAt d1 o)) as [eo1 Heo1] by (apply (inert_elemAt_Some _ _ _ Hi1); eauto).
  assert (is_Some (elemAt d2 [])) as [b2 Hb2].
  { apply (inert_elemAt_Some "active" (dom pg)); [|eauto].
    exact (inert_trans _ _ _ _ Hi1 Hi2). }
  assert (hasClass d2 o "active" = true) as Ha2.
  { unfold d2. rewrite hasClass_updElem, decide_True, Heo1 by reflexivity.
    rewrite contains_classAdd, decide_True by reflexivity. reflexivity. }
  rewrite Hshown. split; [|split; [|split; [|exact Hi]]].
  - unfold d3. rewrite hasClass_updElem. case_decide as Hroot; [|exact Ha2].
    subst o. rewrite Hb2. rewrite contains_setStyle.
    unfold hasClass in Ha2. rewrite Hb2 in Ha2. exact Ha2.
  - unfold d3, d2. rewrite !textAt_updElem. apply (textAt_setTextContent _ _ _ em Hem).
  - apply (styleAt_updElem_setStyle _ _ _ _ b2 Hb2). discriminate.
Qed.

(** With an overlay and a message element that holds only text in the
    document: [showSpinner] puts the message in, marks the overlay active
    and stops the body from scrolling; [hideSpinner] after it takes the
    mark and the scroll lock away again and leaves the message in. *)
Theorem spinner_shown_then_hidden (message : string) (pg : page) (o m : path) :
  docQuerySelector (dom pg) overlaySel = Some o ->
  docQuerySelector (dom pg) messageSel = Some m ->
  descendants (dom pg) m = [] ->
  let shown := showSpinner message pg in
  let hidden := hideSpinner shown in
  (hasClass (dom shown) o "active" = true /\
   textAt (dom shown) m = message /\
   styleAt (dom shown) [] "overflow" = "hidden") /\
  (hasClass (dom hidden) o "active" = false /\
   textAt (dom hidden) m = message /\
   styleAt (dom hidden) [] "overflow" = "") /\
  trace hidden = trace pg.
Proof.
  intros Ho Hm Hleaf. cbv zeta.
  destruct (showSpinner_shown message pg o m Ho Hm Hleaf) as (Ha & Ht & Hs & Hi).
  split; [repeat split; assumption|]. split; [|reflexivity].
  destruct (hideSpinner_off (showSpinner message pg)) as [Hoff Hflow].
  split; [|split; [|exact Hflow]].
  - apply Hoff.
    rewrite (inert_docQuerySelector _ _ _ _ (hideSpinner_inert _)) by reflexivity.
    rewrite (inert_docQuerySelector _ _ _ _ Hi) by reflexivity. exact Ho.
  - rewrite hideSpinner_textAt. exact Ht.
Qed.

Lemma spinner_shown_then_hidden_witness :
  let pg := createOverlay plainPage in
  docQuerySelector (dom pg) overlaySel = Some [2]%nat /\
  docQuerySelector (dom pg) messageSel = Some [2; 1; 3]%nat /\
  descendants (dom pg) [2; 1; 3]%nat = [] /\
  textAt (dom (showSpinner "Searching..." pg)) [2; 1; 3]%nat = "Searching...".
Proof.
  cbv zeta.
  assert (docQuerySelector (dom (createOverlay plainPage)) overlaySel = Some [2]%nat) as Ho
      by reflexivity.
  assert (docQuerySelector (dom (createOverlay plainPage)) messageSel = Some [2; 1; 3]%nat) as Hm
      by reflexivity.
  assert (descendants (dom (createOverlay plainPage)) [2; 1; 3]%nat = []) as Hl by reflexivity.
  split; [exact Ho|]. split; [exact Hm|]. split; [exact Hl|].
  exact (proj1 (proj2 (proj1 (spinner_shown_then_hidden "Searching..." _ _ _ Ho Hm Hl)))).
Defined.

End OverlayFacts.

(** ** Facts: fetch and swap *)

Module AjaxFacts.
Import Dom Page Main Overlay OverlayProps OverlayFacts Ajax AjaxProps DomProps DomFacts.
Import VoteCountProps VoteCountFacts.

Lemma styleAt_other (p q : path) (prop prop' v : string) (d : node) :
  prop' ≠ prop ->
  styleAt (updElem p (setStyle prop' v) d) q prop = styleAt d q prop.
Proof.
  intros Hp. unfold styleAt. rewrite elemAt_updElem. case_decide; [|reflexivity].
  destruct (elemAt d q) as [e|]; [|reflexivity]. simpl.
  unfold styleOf, setStyle; simpl. case_decide.
  - rewrite lookup_delete_ne by exact Hp. reflexivity.
  - rewrite lookup_insert_ne by exact Hp. reflexivity.
Qed.

Lemma styleAt_classRemove (p q : path) (c prop : string) (d : node) :
  styleAt (updElem p (classRemove c) d) q prop = styleAt d q prop.
Proof.
  unfold styleAt. rewrite elemAt_updElem. case_decide; [|reflexivity].
  destruct (elemAt d q); reflexivity.
Qed.

(** Changes that keep the elements, their classes and the overflow of the
    body keep the spinner off. *)
Lemma spinnerOff_inert (d d' : node) :
  inert "" d d' -> styleAt d' [] "overflow" = styleAt d [] "overflow" ->
  spinnerOff d -> spinnerOff d'.
Proof.
  intros Hi Hs [Ho Hf]. split; [|rewrite Hs; exact Hf].
  intros o Hq. rewrite (inert_docQuerySelector _ _ _ _ Hi) in Hq by reflexivity.
  rewrite (inert_hasClass _ _ _ Hi) by discriminate. apply Ho, Hq.
Qed.

Lemma styleAt_setTextContent (p q : path) (s prop : string) (d : node) (e : element) :
  elemAt d p = Some e -> descendants d p = [] ->
  styleAt (setTextContent p s d) q prop = styleAt d q prop.
Proof.
  intros He Hl. unfold styleAt. rewrite (elemAt_setTextContent _ _ _ e He Hl). reflexivity.
Qed.

(** A change of the element record at [o] keeps the children of every
    element that [o] is not inside of. *)
Lemma get_updElem_kids (o t : path) (g : element -> element) (d : node) (e : element)
    (ks : list node) :
  get d t = Some (Elem e ks) -> ~ inside t o ->
  exists e', get (updElem o g d) t = Some (Elem e' ks).
Proof.
  intros Ht Hin. unfold updElem.
  destruct (decide (o `prefix_of` t)) as [[k ->]|Ho].
  - destruct k as [|i r].
    + rewrite app_nil_r in *. rewrite get_update_eq, Ht. simpl. eauto.
    + rewrite get_update_below. rewrite get_app in Ht.
      destruct (get d o) as [[s|e0 ks0]|]; try discriminate; simpl in *; eauto.
  - destruct (decide (t `prefix_of` o)) as [[k ->]|Ht'].
    + destruct k as [|i r]; [exfalso; apply Ho; rewrite app_nil_r; reflexivity|].
      exfalso. apply Hin. exists i, r. reflexivity.
    + rewrite get_update_apart by (split; assumption). eauto.
Qed.

Lemma hideSpinner_kids (pg : page) (t : path) (e : element) (ks : list node) :
  get (dom pg) t = Some (Elem e ks) ->
  (forall o, docQuerySelector (dom pg) overlaySel = Some o -> ~ inside t o) ->
  exists e', get (dom (hideSpinner pg)) t = Some (Elem e' ks).
Proof.
  intros Ht Hin. unfold hideSpinner. fold overlaySel. simpl dom.
  destruct (docQuerySelector (dom pg) overlaySel) as [o|].
  - destruct (get_updElem_kids o t (classRemove "active") _ e ks Ht (Hin o eq_refl)) as [e1 H1].
    apply (get_updElem_kids [] t _ _ e1 ks H1). intros (i & r & E).
    destruct t; discriminate.
  - apply (get_updElem_kids [] t _ _ e ks Ht). intros (i & r & E). destruct t; discriminate.
Qed.

Section Host.

Variable parseHTML : string -> list node.
Variable querySelectorText : node -> string -> option path.
Variable lookupError : string -> string.

(** The document that the catch handler leaves. *)
Lemma fetchFailed_found (error : string) (b : browser) (c : path) :
  getElementById (dom (hideSpinner (current b))) "error-container" = Some c ->
  fetchFailed error b
  = Browser (withDom (updElem c (setStyle "display" "block")
                        (setTextContent c failureMessage (dom (hideSpinner (current b)))))
                     (hideSpinner (emit (ConsoleError ("Fetch error: " ++ error)) (current b))))
            (fetched b) (HideErrorAfter 5000 c :: timeouts b) (alerts b).
Proof.
  intros Hc. unfold fetchFailed, showError, onPage. simpl current.
  change (dom (hideSpinner (emit (ConsoleError ("Fetch error: " ++ error)) (current b))))
    with (dom (hideSpinner (current b))).
  rewrite Hc. reflexivity.
Qed.

Lemma fetchFailed_missing (error : string) (b : browser) :
  getElementById (dom (hideSpinner (current b))) "error-container" = None ->
  fetchFailed error b
  = Browser (hideSpinner (emit (ConsoleError ("Fetch error: " ++ error)) (current b)))
            (fetched b) (timeouts b) (failureMessage :: alerts b).
Proof.
  intros Hc. unfold fetchFailed, showError, onPage. simpl current.
  change (dom (hideSpinner (emit (ConsoleError ("Fetch error: " ++ error)) (current b))))
    with (dom (hideSpinner (current b))).
  rewrite Hc. reflexivity.
Qed.

Lemma inert_getElementById (c : string) (d d' : node) (i : string) :
  inert c d d' -> getElementById d' i = getElementById d i.
Proof. intros Hi. apply (inert_docQuerySelector c); [exact Hi | reflexivity]. Qed.

(** A click on a link that loads a fragment, in a document with an overlay
    and a message element that holds only text.  The default action is
    always prevented.  Without an address (the href, or else the data-url)
    or without a target the click does nothing more; with both, one request
    is made for the address and the overlay is shown with the message of
    the link, or with "Loading data...". *)
Theorem ajax_click_requests (b : browser) (this : path) (e : element) (o m : path) :
  elemAt (dom (current b)) this = Some e ->
  docQuerySelector (dom (current b)) overlaySel = Some o ->
  docQuerySelector (dom (current b)) messageSel = Some m ->
  descendants (dom (current b)) m = [] ->
  let address := orOption (getAttribute "href" e) (getAttribute "data-url" e) in
  let place := getAttribute "data-target" e in
  let b' := ajaxClick b this in
  trace (current b') = PreventDefault :: trace (current b) /\
  (truthy address && truthy place = false -> b' = onPage (emit PreventDefault) b) /\
  (truthy address && truthy place = true ->
     fetched b' = Request (default "" address) (default "" place) :: fetched b /\
     hasClass (dom (current b')) o "active" = true /\
     textAt (dom (current b')) m
       = orElse (getAttribute "data-spinner-message" e) "Loading data..." /\
     styleAt (dom (current b')) [] "overflow" = "hidden").
Proof.
  intros He Ho Hm Hleaf. cbv zeta. unfold ajaxClick. simpl dom. rewrite He. simpl.
  destruct (truthy (orOption (getAttribute "href" e) (getAttribute "data-url" e))
            && truthy (getAttribute "data-target" e)).
  - split; [reflexivity|]. split; [discriminate|]. intros _. split; [reflexivity|].
    simpl current.
    destruct (showSpinner_shown
                (orElse (getAttribute "data-spinner-message" e) "Loading data...")
                (emit PreventDefault (current b)) o m Ho Hm Hleaf) as (Ha & Ht & Hs & _).
    repeat split; assumption.
  - split; [reflexivity|]. split; [reflexivity | discriminate].
Qed.

(** A response whose target is found.  The assignment gives the target the
    nodes that the markup parses to as its children, in place of what it
    held before, an earlier response included; hideSpinner then runs on that
    document.  Afterwards the spinner is off, the text of the target is the
    text of the parsed nodes, and the children of the target are exactly the
    parsed nodes unless the overlay that hideSpinner finds is inside the
    target, among the nodes just put there.  Nothing is logged, queued or
    alerted. *)
Theorem response_swaps_and_hides (r : request) (html : string) (b : browser)
    (t : path) (e : element) :
  querySelectorText (dom (current b)) (target r) = Some t ->
  elemAt (dom (current b)) t = Some e ->
  let b' := fetchLoaded parseHTML querySelectorText lookupError r html b in
  let swapped := setInnerHTML t (parseHTML html) (dom (current b)) in
  get swapped t = Some (Elem e (parseHTML html)) /\
  (forall q, apart t q -> get swapped q = get (dom (current b)) q) /\
  current b' = hideSpinner (withDom swapped (current b)) /\
  spinnerOff (dom (current b')) /\
  textAt (dom (current b')) t = String.concat "" (map textContent (parseHTML html)) /\
  ((forall o, docQuerySelector swapped overlaySel = Some o -> ~ inside t o) ->
   exists e', get (dom (current b')) t = Some (Elem e' (parseHTML html))) /\
  trace (current b') = trace (current b) /\
  fetched b' = fetched b /\ timeouts b' = timeouts b /\ alerts b' = alerts b.
Proof.
  intros Ht He. cbv zeta. unfold fetchLoaded. rewrite Ht. unfold onPage.
  cbn [current fetched timeouts alerts].
  assert (get (setInnerHTML t (parseHTML html) (dom (current b))) t
          = Some (Elem e (parseHTML html))) as Hswap.
  { unfold setInnerHTML. rewrite get_update_eq. unfold elemAt in He.
    destruct (get (dom (current b)) t) as [[s|e' ks]|]; try discriminate.
    injection He as ->. reflexivity. }
  split; [exact Hswap|].
  split; [intros q Hq; apply get_update_apart; exact Hq|].
  split; [reflexivity|].
  split; [apply hideSpinner_off|].
  split; [rewrite hideSpinner_textAt; cbn [dom withDom]; unfold textAt; rewrite Hswap; reflexivity|].
  split; [|repeat split].
  intros Hin. apply (hideSpinner_kids _ t e); [exact Hswap | exact Hin].
Qed.

(** A failed fetch, and a response whose target is not found, in a document
    whose error container, if it has one, holds only text: the error is
    logged and the spinner is off; the container shows the message until
    the callback queued for five seconds later hides it, the message still
    in it; without a container the message is alerted. *)
Theorem failure_shows_error (error : string) (b : browser) :
  (forall c, getElementById (dom (current b)) "error-container" = Some c ->
             descendants (dom (current b)) c = []) ->
  let b' := fetchFailed error b in
  spinnerOff (dom (current b')) /\
  trace (current b') = ConsoleError ("Fetch error: " ++ error) :: trace (current b) /\
  fetched b' = fetched b /\
  match getElementById (dom (current b)) "error-container" with
  | Some c =>
      textAt (dom (current b')) c = failureMessage /\
      styleAt (dom (current b')) c "display" = "block" /\
      timeouts b' = HideErrorAfter 5000 c :: timeouts b /\
      alerts b' = alerts b /\
      let b'' := hideError c b' in
      styleAt (dom (current b'')) c "display" = "none" /\
      textAt (dom (current b'')) c = failureMessage /\
      spinnerOff (dom (current b''))
  | None =>
      dom (current b') = dom (hideSpinner (current b)) /\
      timeouts b' = timeouts b /\
      alerts b' = failureMessage :: alerts b
  end /\
  (forall r html,
      querySelectorText (dom (current b)) (target r) = None ->
      fetchLoaded parseHTML querySelectorText lookupError r html b
      = fetchFailed (lookupError (target r)) b).
Proof.
  intros Hleaf. cbv zeta.
  pose proof (hideSpinner_inert (current b)) as Hi.
  pose proof (hideSpinner_off (current b)) as Hoff.
  set (d0 := dom (hideSpinner (current b))) in *.
  assert (getElementById d0 "error-container" = getElementById (dom (current b)) "error-container")
    as Hid by apply (inert_getElementById _ _ _ _ Hi).
  assert (forall r html,
             querySelectorText (dom (current b)) (target r) = None ->
             fetchLoaded parseHTML querySelectorText lookupError r html b
             = fetchFailed (lookupError (target r)) b) as Hnotfound.
  { intros r html Hnone. unfold fetchLoaded. rewrite Hnone. reflexivity. }
  destruct (getElementById (dom (current b)) "error-container") as [c|] eqn:Ec.
  2:{ rewrite (fetchFailed_missing error b Hid). cbn [current fetched timeouts alerts].
      repeat split; try reflexivity; try apply Hoff. exact Hnotfound. }
  rewrite (fetchFailed_found error b c Hid). cbn [current fetched timeouts alerts dom withDom].
  fold d0.
  pose proof (docQuerySelector_Some _ _ _ Hid) as Hmc.
  destruct (matchesAt_elem _ _ _ Hmc) as (ec & Hec & _).
  assert (descendants d0 c = []) as Hl0
      by (unfold d0; rewrite (inert_descendants _ _ _ Hi); apply Hleaf; reflexivity).
  set (d1 := setTextContent c failureMessage d0).
  set (d2 := updElem c (setStyle "display" "block") d1).
  assert (inert "" d0 d1) as Hi1 by apply (inert_setTextContent _ _ _ _ ec Hec Hl0).
  assert (inert "" d1 d2) as Hi2 by (apply inert_updElem; intros x; apply sameBut_setStyle).
  assert (is_Some (elemAt d1 c)) as [ec1 Hec1] by (apply (inert_elemAt_Some _ _ _ Hi1); eauto).
  assert (is_Some (elemAt d2 c)) as [ec2 Hec2] by (apply (inert_elemAt_Some _ _ _ Hi2); eauto).
  assert (spinnerOff d2) as Hoff2.
  { apply (spinnerOff_inert d0); [exact (inert_trans _ _ _ _ Hi1 Hi2) | | exact Hoff].
    unfold d2, d1. rewrite styleAt_other by discriminate.
    apply (styleAt_setTextContent _ _ _ _ _ ec Hec Hl0). }
  assert (textAt d2 c = failureMessage) as Ht2.
  { unfold d2. rewrite textAt_updElem. apply (textAt_setTextContent _ _ _ ec Hec). }
  split; [exact Hoff2|]. split; [reflexivity|]. split; [reflexivity|].
  split; [|exact Hnotfound].
  split; [exact Ht2|]. split; [apply (styleAt_updElem_setStyle _ _ _ _ ec1 Hec1); discriminate|].
  split; [reflexivity|]. split; [reflexivity|].
  unfold hideError, onPage. cbn [current dom withDom].
  split; [apply (styleAt_updElem_setStyle _ _ _ _ ec2 Hec2); discriminate|].
  split; [rewrite textAt_updElem; exact Ht2|].
  apply (spinnerOff_inert d2); [apply inert_updElem; intros x; apply sameBut_setStyle | | exact Hoff2].
  apply styleAt_other. discriminate.
Qed.

End Host.

Lemma ajax_click_requests_witness :
  fetched (ajaxClick loading [0]%nat) = [Request "/quotes" "#panel"; Request "/quotes" "#panel"] /\
  textAt (dom (current (ajaxClick loading [0]%nat))) [3; 0]%nat = "Loading data...".
Proof.
  destruct (ajax_click_requests loading [0]%nat
              (Element "a" [] {[ "href" := "/quotes"; "data-ajax" := "true";
                                 "data-target" := "#panel" ]} ∅ "")
              [3]%nat [3; 0]%nat eq_refl eq_refl eq_refl eq_refl) as (_ & _ & H).
  destruct (H eq_refl) as (Hf & _ & Ht & _). split; [exact Hf | exact Ht].
Defined.

Lemma response_swaps_and_hides_witness :
  let b' := fetchLoaded textOnly panelOnly (fun _ => "TypeError")
              (Request "/quotes" "#panel") "AAPL 1.2" loading in
  spinnerOff (dom (current b')) /\
  exists e', get (dom (current b')) [1]%nat = Some (Elem e' [Text "AAPL 1.2"]).
Proof.
  destruct (response_swaps_and_hides textOnly panelOnly (fun _ => "TypeError")
              (Request "/quotes" "#panel") "AAPL 1.2" loading [1]%nat
              (Element "div" [] {[ "id" := "panel" ]} ∅ "") eq_refl eq_refl)
    as (_ & _ & _ & Hoff & _ & Hk & _).
  split; [exact Hoff|]. apply Hk.
  intros o [= <-] (i & rest & E). discriminate E.
Defined.

Lemma failure_shows_error_witness :
  (forall c, getElementById (dom (current loading)) "error-container" = Some c ->
             descendants (dom (current loading)) c = []) /\
  spinnerOff (dom (current (fetchFailed "TypeError: Failed to fetch" loading))) /\
  textAt (dom (current (fetchFailed "TypeError: Failed to fetch" loading))) [2]%nat
  = failureMessage.
Proof.
  assert (forall c, getElementById (dom (current loading)) "error-container" = Some c ->
                    descendants (dom (current loading)) c = []) as Hleaf
      by (intros c [= <-]; reflexivity).
  split; [exact Hleaf|].
  destruct (failure_shows_error textOnly panelOnly (fun _ => "TypeError")
              "TypeError: Failed to fetch" loading Hleaf) as (Hoff & _ & _ & H & _).
  split; [exact Hoff|].
  change (getElementById (dom (current loading)) "error-container") with (Some [2]%nat) in H.
  exact (proj1 H).
Defined.

End AjaxFacts.

(** ** Facts: the chart registry *)

Module ChartRegistryFacts.
Import Dom Page Chart ChartProps ChartFacts ChartRegistryProps Examples.

Lemma render_found_type big tls (call : renderCall) (w : world) (c : path) :
  getElementById (dom (pg w)) (callCanvasId call) = Some c ->
  exists k, render big tls call w = newChart c k (destroyExisting c w) /\ type k = callType call.
Proof.
  intros H. destruct call; simpl in *;
    unfold createSentimentTrendChart, createSentimentPieChart,
           createEntitySentimentChart, createCommentTimelineChart;
    rewrite H; eexists; (split; [reflexivity | reflexivity]).
Qed.

Lemma same_id_same_chart (reg : list chart) (x y : chart) :
  NoDup (chartId <$> reg) -> x ∈ reg -> y ∈ reg -> chartId x = chartId y -> x = y.
Proof.
  induction reg as [|ch reg IH]; intros Hnd Hx Hy E; [inversion Hx|].
  rewrite fmap_cons in Hnd. apply NoDup_cons in Hnd as [Hnot Hnd].
  apply elem_of_cons in Hx as [-> | Hx]; apply elem_of_cons in Hy as [-> | Hy].
  - reflexivity.
  - exfalso. apply Hnot. rewrite E. apply list_elem_of_fmap. eauto.
  - exfalso. apply Hnot. rewrite <- E. apply list_elem_of_fmap. eauto.
  - apply IH; assumption.
Qed.

Lemma filter_filter_drop {A} (P Q : A -> Prop) `{forall x, Decision (P x)}
    `{forall x, Decision (Q x)} (l : list A) :
  (forall x, x ∈ l -> P x -> Q x) -> filter P (filter Q l) = filter P l.
Proof.
  induction l as [|x l IH]; intros Hl; [reflexivity|].
  assert (forall y, y ∈ l -> P y -> Q y) as Hl' by (intros y Hy; apply Hl; right; exact Hy).
  rewrite (filter_cons Q). destruct (decide (Q x)) as [Hq|Hq].
  - rewrite !filter_cons. rewrite IH by exact Hl'. reflexivity.
  - rewrite filter_cons. rewrite decide_False by (intros Hp; apply Hq, Hl; [left|]; assumption).
    apply IH, Hl'.
Qed.

(** Destroying a chart leaves the charts of every other canvas. *)
Lemma destroy_others (ex : chart) (w : world) (c' : path) :
  NoDup (chartId <$> registry w) -> ex ∈ registry w -> canvas ex ≠ c' ->
  chartsOf c' (destroy ex w) = chartsOf c' w.
Proof.
  unfold chartsOf, destroy; simpl. intros Hnd Hin Hc.
  apply filter_filter_drop. intros ch Hch Hcanvas E.
  apply Hc. rewrite <- (same_id_same_chart _ _ _ Hnd Hch Hin E). exact Hcanvas.
Qed.

Lemma destroyExisting_others (c c' : path) (w : world) :
  NoDup (chartId <$> registry w) -> c' ≠ c ->
  chartsOf c' (destroyExisting c w) = chartsOf c' w.
Proof.
  intros Hnd Hc. unfold destroyExisting. destruct (getChart c w) as [ex|] eqn:E; [|reflexivity].
  apply getChart_in in E as [Hin Hcan]. apply destroy_others; congruence.
Qed.

Lemma freshIds_destroyExisting (c : path) (w : world) :
  freshIds w -> freshIds (destroyExisting c w) /\ nextId (destroyExisting c w) = nextId w.
Proof.
  intros [Hnd Hlt]. unfold destroyExisting. destruct (getChart c w) as [ex|]; [|repeat split; assumption].
  unfold freshIds, destroy; simpl. repeat split.
  - apply NoDup_fmap_2_strong.
    + intros x y Hx Hy E. apply list_elem_of_filter in Hx as [_ Hx].
      apply list_elem_of_filter in Hy as [_ Hy]. apply (same_id_same_chart _ _ _ Hnd Hx Hy E).
    + apply NoDup_filter. apply (NoDup_fmap_1 chartId). exact Hnd.
  - intros ch Hch. apply list_elem_of_filter in Hch as [_ Hch]. apply Hlt, Hch.
Qed.

Lemma freshIds_newChart (c : path) (k : config) (w : world) :
  freshIds w -> freshIds (newChart c k w).
Proof.
  intros [Hnd Hlt]. unfold freshIds, newChart; simpl. split.
  - rewrite fmap_app. apply NoDup_app. split; [exact Hnd|]. split.
    + intros i Hi Hi'. apply list_elem_of_fmap in Hi as (ch & -> & Hch).
      simpl in Hi'. apply list_elem_of_singleton in Hi'. specialize (Hlt ch Hch). lia.
    + simpl. apply NoDup_singleton.
  - intros ch Hch. apply elem_of_app in Hch as [Hch | Hch].
    + specialize (Hlt ch Hch). lia.
    + apply list_elem_of_singleton in Hch. subst ch. simpl. lia.
Qed.

Lemma render_freshIds big tls (call : renderCall) (w : world) :
  freshIds w -> freshIds (render big tls call w).
Proof.
  intros Hw. destruct (getElementById (dom (pg w)) (callCanvasId call)) as [c|] eqn:E.
  - destruct (render_found big tls call w c E) as (k & ->).
    apply freshIds_newChart, freshIds_destroyExisting, Hw.
  - rewrite (render_missing big tls call w E). exact Hw.
Qed.

(** What a render call that finds its canvas leaves in the registry: the
    chart that the library finds on the canvas next is the new one, of the
    type the call asks for and with an identifier never used before; the
    charts of every other canvas are the same charts as before. *)
Theorem render_registers_last big tls (call : renderCall) (w : world) (c : path) :
  freshIds w ->
  getElementById (dom (pg w)) (callCanvasId call) = Some c ->
  let w' := render big tls call w in
  freshIds w' /\
  (exists k, getChart c w' = Some (MkChart (nextId w) c k) /\ type k = callType call) /\
  (forall ch, ch ∈ registry w -> chartId ch ≠ nextId w) /\
  (forall c', c' ≠ c -> chartsOf c' w' = chartsOf c' w).
Proof.
  intros Hw Hc. cbv zeta.
  destruct (render_found_type big tls call w c Hc) as (k & -> & Hk).
  destruct (freshIds_destroyExisting c w Hw) as [Hd Hn].
  split; [apply freshIds_newChart, Hd|]. split; [|split].
  - exists k. split; [|exact Hk]. unfold getChart, newChart; simpl.
    rewrite filter_app, filter_cons, decide_True by reflexivity.
    rewrite filter_nil, last_snoc, Hn. reflexivity.
  - intros ch Hch. pose proof (proj2 Hw ch Hch). lia.
  - intros c' Hc'. unfold chartsOf at 1. unfold newChart; simpl.
    rewrite filter_app, filter_cons, decide_False by (simpl; congruence).
    rewrite filter_nil, app_nil_r. apply destroyExisting_others; [apply Hw | exact Hc'].
Qed.

(** Every registry that render calls build from an empty one is of this
    kind. *)
Lemma renderAll_freshIds big tls (calls : list renderCall) (w : world) :
  freshIds w -> freshIds (renderAll big tls calls w).
Proof.
  revert w. induction calls as [|call calls IH]; intros w Hw; [exact Hw|].
  simpl. apply IH, render_freshIds, Hw.
Qed.

Lemma emptyWorld_freshIds : freshIds emptyWorld.
Proof. split; [constructor | intros ch Hch; inversion Hch]. Qed.

Lemma render_registers_last_witness :
  freshIds emptyWorld /\
  getElementById (dom (pg emptyWorld)) "trend" = Some [0]%nat /\
  freshIds (render (fun _ => "") (fun t => t)
              (PieChart "trend" (JS.Fin 50) (JS.Fin 30) (JS.Fin 20)) emptyWorld).
Proof.
  split; [exact emptyWorld_freshIds|]. split; [reflexivity|].
  exact (proj1 (render_registers_last (fun _ => "") (fun t => t)
                  (PieChart "trend" (JS.Fin 50) (JS.Fin 30) (JS.Fin 20)) emptyWorld [0]%nat
                  emptyWorld_freshIds eq_refl)).
Defined.

End ChartRegistryFacts.

(** ** Facts: the snapshot of a button *)

Module SpinnerSnapshotFacts.
Import Spinner SpinnerProps SpinnerFacts SpinnerSnapshotProps Examples.

Section Host.

Variable readBack : string -> string.

Lemma add_remove_empty (id : string) (disable : bool) (doc : document) (b : button) :
  doc !! id = Some b ->
  innerHTML b = "" ->
  removeButtonSpinner readBack id true (addButtonSpinner readBack id disable doc) !! id
    = Some (Button (readBack spinnerMarkup) (<[snapshotKey := ""]> (attributes b)) false).
Proof.
  intros H He. unfold removeButtonSpinner.
  rewrite (add_lookup readBack id disable doc b H), lookup_insert_eq. simpl.
  fold snapshotKey. rewrite lookup_insert_eq, He. reflexivity.
Qed.

(** A button whose inner markup is empty never gets it back: after one
    round of add and remove, and after any number of further rounds, it
    shows the spinner markup, which reads back as it is assigned. *)
Theorem empty_button_stays_spinning (doc : document) (id : string) (b : button) (n : nat) :
  readBack spinnerMarkup = spinnerMarkup ->
  doc !! id = Some b ->
  innerHTML b = "" ->
  innerHTML <$> (rounds readBack id (S n) doc !! id) = Some spinnerMarkup.
Proof.
  intros Hspin H He. induction n as [|n IH].
  - simpl. rewrite (add_remove_empty id true doc b H He), Hspin. reflexivity.
  - change (rounds readBack id (S (S n)) doc)
      with (removeButtonSpinner readBack id true
              (addButtonSpinner readBack id true (rounds readBack id (S n) doc))).
    destruct (rounds readBack id (S n) doc !! id) as [b'|] eqn:E; [|discriminate].
    simpl in IH. injection IH as IH.
    rewrite (add_remove_lookup readBack id true _ b' E)
      by (rewrite IH; apply spinnerMarkup_nonempty).
    simpl. rewrite IH, Hspin. reflexivity.
Qed.

(** The snapshot outlives the round that took it: when the inner markup
    of the button is written by somebody else afterwards, a later remove
    with no add before it assigns the old markup again, and the button
    reads what the old markup reads back as. *)
Theorem remove_restores_old_snapshot (doc : document) (id markup : string) (b : button)
    (disable enable : bool) :
  doc !! id = Some b ->
  innerHTML b ≠ "" ->
  let doc1 := removeButtonSpinner readBack id true (addButtonSpinner readBack id disable doc) in
  let doc2 := setInnerHTML readBack id markup doc1 in
  innerHTML <$> (doc2 !! id) = Some (readBack markup) /\
  innerHTML <$> (removeButtonSpinner readBack id enable doc2 !! id)
    = Some (readBack (innerHTML b)).
Proof.
  intros H Hne. cbv zeta. unfold setInnerHTML.
  rewrite (add_remove_lookup readBack id disable doc b H Hne). simpl.
  split; [rewrite lookup_insert_eq; reflexivity|].
  erewrite (remove_lookup readBack id enable _ _ (innerHTML b));
    [reflexivity | apply lookup_insert_eq | apply lookup_insert_eq | exact Hne].
Qed.

End Host.

Lemma empty_button_stays_spinning_witness :
  innerHTML <$> (rounds verbatim "go" 3 {[ "go" := Button "" ∅ false ]} !! "go")
  = Some spinnerMarkup.
Proof.
  exact (empty_button_stays_spinning verbatim _ "go" (Button "" ∅ false) 2
           eq_refl (lookup_singleton_eq _ _) eq_refl).
Defined.

Lemma remove_restores_old_snapshot_witness :
  let doc : document := {[ "go" := preButton ]} in
  innerHTML <$> (removeButtonSpinner dropLineBreak "go" true
                   (setInnerHTML dropLineBreak "go" "Done"
                      (removeButtonSpinner dropLineBreak "go" true
                         (addButtonSpinner dropLineBreak "go" true doc))) !! "go")
  = Some "<pre>Go</pre>".
Proof.
  exact (proj2 (remove_restores_old_snapshot dropLineBreak {[ "go" := preButton ]} "go" "Done"
                  preButton true true (lookup_singleton_eq _ _) ltac:(discriminate))).
Defined.

End SpinnerSnapshotFacts.
